(** * TSTL: the linked-list node store and the containers indexed over it

    A shallow embedding of [std.List] (src/ts/src/std/List.ts),
    [std.UnorderedMultiMap] (src/src/std/base/iterators/SetIterator.ts),
    [std.TreeMap] (src/ts/std/TreeMap.ts) and the descent of
    [std.base.tree.AtomicTree] (src/ts/std/base/tree/AtomicTree.ts).

    JavaScript objects live in an explicit heap: a [ListIterator] is a node
    object addressed by its identity, a [List] is an object holding
    [begin_], [end_] and [size_].  [null] and [undefined] references are
    [None]; a method called on them raises [TypeError].  Loops whose number
    of rounds depends on the links found in the heap take a fuel argument
    and answer [OutOfFuel] when it is used up. *)

From stdpp Require Import base option list numbers sorting.
From Stdlib Require Import ZArith Lia.

Open Scope Z_scope.

(* ===================================================================== *)
(** * std.List *)
(* ===================================================================== *)

Module StdList.
Section list_model.

(** The element type.  Every TypeScript type of this code base is
    inhabited by [null]; the sentinel node carries it as its value. *)
Variable T : Type.
Variable null : T.

(** [std.equals], the global equality predicate. *)
Variable std_equals : T -> T -> bool.

(** Identity of a [ListIterator] object and of a [List] object. *)
Definition ref := nat.
Definition lid := nat.

(** [new ListIterator(source, prev, next, value)]: the four fields the
    constructor call in List.ts passes. *)
Record ListIterator := mkIt {
  source_ : lid;
  prev_ : option ref;
  next_ : option ref;
  value_ : T
}.

(** The fields of a [List].  A field that was never assigned is [None];
    for [size_], [None] also stands for [NaN], which is what [undefined++]
    yields and which every later [+=], [-=] and [== 0] keeps or answers
    [false] on. *)
Record List := mkList {
  begin_ : option ref;
  end_ : option ref;
  size_ : option Z
}.

Record Heap := mkHeap {
  iterators : list ListIterator;
  containers : list List
}.

Inductive Exception := InvalidArgument | TypeError.

Inductive Outcome (A : Type) :=
| Ret (a : A) (h : Heap)
| Throw (e : Exception) (h : Heap)
| OutOfFuel.
Arguments Ret {A} a h.
Arguments Throw {A} e h.
Arguments OutOfFuel {A}.

Definition M (A : Type) := Heap -> Outcome A.

Definition ret {A} (a : A) : M A := fun h => Ret a h.
Definition throw {A} (e : Exception) : M A := fun h => Throw e h.
Definition bind {A B} (m : M A) (k : A -> M B) : M B :=
  fun h => match m h with
           | Ret a h' => k a h'
           | Throw e h' => Throw e h'
           | OutOfFuel => OutOfFuel
           end.

Notation "'let*' x ':=' m 'in' k" := (bind m (fun x => k))
  (at level 10, x name, m at level 100, k at level 200).
Notation "m ';;' k" := (bind m (fun _ => k))
  (at level 100, k at level 200, right associativity).

(** ** Object access *)

Definition deref (o : option ref) : M ref :=
  match o with Some r => ret r | None => throw TypeError end.

Definition getIt (o : option ref) : M ListIterator :=
  let* r := deref o in
  fun h => match iterators h !! r with
           | Some it => Ret it h
           | None => Throw TypeError h
           end.

Definition putIt (o : option ref) (f : ListIterator -> ListIterator) : M unit :=
  let* r := deref o in
  let* it := getIt o in
  fun h => Ret tt (mkHeap (<[r := f it]> (iterators h)) (containers h)).

Definition newIt (source : lid) (prev next : option ref) (val : T) : M (option ref) :=
  fun h => Ret (Some (length (iterators h)))
               (mkHeap (iterators h ++ [mkIt source prev next val]) (containers h)).

Definition getList (this : lid) : M List :=
  fun h => match containers h !! this with
           | Some l => Ret l h
           | None => Throw TypeError h
           end.

Definition putList (this : lid) (f : List -> List) : M unit :=
  let* l := getList this in
  fun h => Ret tt (mkHeap (iterators h) (<[this := f l]> (containers h))).

(** ** ListIterator *)

(** Modelled from the spec: ListIterator.ts is not among the sources.  Its
    accessors [prev()], [next()], [value], [get_source()], [setPrev] and
    [setNext] are taken as plain reads and writes of the four fields, and
    [equals] as the comparison of store and node identity of section 4.2
    (two iterators on the same node have the same store). *)
Definition prev (it : option ref) : M (option ref) :=
  let* n := getIt it in ret (prev_ n).
Definition next (it : option ref) : M (option ref) :=
  let* n := getIt it in ret (next_ n).
Definition value (it : option ref) : M T :=
  let* n := getIt it in ret (value_ n).
Definition get_source (it : option ref) : M lid :=
  let* n := getIt it in ret (source_ n).
Definition setPrev (it p : option ref) : M unit :=
  putIt it (fun n => mkIt (source_ n) p (next_ n) (value_ n)).
Definition setNext (it p : option ref) : M unit :=
  putIt it (fun n => mkIt (source_ n) (prev_ n) p (value_ n)).
Definition equals (it obj : option ref) : M bool :=
  let* r := deref it in ret (bool_decide (Some r = obj)).

(** ** Accessors of List *)

Definition begin (this : lid) : M (option ref) :=
  let* l := getList this in ret (begin_ l).
Definition end' (this : lid) : M (option ref) :=
  let* l := getList this in ret (end_ l).
Definition size (this : lid) : M (option Z) :=
  let* l := getList this in ret (size_ l).
(** Modelled from the spec: [empty()] is inherited from the base class
    Container, which is not among the sources; section 6 gives it as the
    zero check on [size()]. *)
Definition empty (this : lid) : M bool :=
  let* s := size this in ret (bool_decide (s = Some 0)).

Definition set_begin (this : lid) (v : option ref) : M unit :=
  putList this (fun l => mkList v (end_ l) (size_ l)).
Definition set_end (this : lid) (v : option ref) : M unit :=
  putList this (fun l => mkList (begin_ l) v (size_ l)).
Definition set_size (this : lid) (v : option Z) : M unit :=
  putList this (fun l => mkList (begin_ l) (end_ l) v).
(** [this.size_ += d] *)
Definition add_size (this : lid) (d : Z) : M unit :=
  putList this (fun l => mkList (begin_ l) (end_ l) (Z.add d <$> size_ l)).

(** ** clear *)
Definition clear (this : lid) : M unit :=
  let* it := newIt this None None null in
  setPrev it it ;;
  setNext it it ;;
  set_begin this it ;;
  set_end this it ;;
  set_size this (Some 0).

(** ** push_front, push_back, push *)
Definition push_front (this : lid) (val : T) : M unit :=
  let* b := begin this in
  let* item := newIt this None b val in
  setPrev b item ;;
  let* s := size this in
  (if bool_decide (s = Some 0) then
     let* e := newIt this item item null in
     set_end this e ;;
     setNext item e
   else
     let* e := end' this in
     setNext e item) ;;
  set_begin this item ;;
  add_size this 1.

Definition push_back (this : lid) (val : T) : M unit :=
  let* e := end' this in
  let* prev0 := prev e in
  let* p := prev e in
  let* item := newIt this p e val in
  setNext prev0 item ;;
  setPrev e item ;;
  let* em := empty this in
  (if em then set_begin this item ;; setPrev item e else ret tt) ;;
  add_size this 1.

Fixpoint push (this : lid) (items : list T) : M (option Z) :=
  match items with
  | [] => size this
  | x :: rest => push_back this x ;; push this rest
  end.

(** ** insert *)

(** The arguments of the overloaded [insert(...args)]. *)
Inductive InsertArgs :=
| InsertVal (position : option ref) (val : T)
| InsertRepeat (position : option ref) (size : Z) (val : T)
| InsertRange (position begin end_it : option ref).

(** The [for (i = 0; i < size; i++)] loop of [insertByRepeatingVal];
    [n] counts the rounds still to run. *)
Fixpoint repeating_loop (this : lid) (val : T) (n : nat) (i : Z)
    (prev first : option ref) : M (option ref * option ref) :=
  match n with
  | O => ret (prev, first)
  | S n' =>
      let* item := newIt this prev None val in
      let first' := if bool_decide (i = 0) then item else first in
      setNext prev item ;;
      repeating_loop this val n' (i + 1) item first'
  end.

Definition insertByRepeatingVal (this : lid) (position : option ref)
    (size : Z) (val : T) : M (option ref) :=
  let* src := get_source position in
  if negb (bool_decide (this = src)) then throw InvalidArgument else
  let* prev0 := prev position in
  let* pf := repeating_loop this val (Z.to_nat size) 0 prev0 None in
  let prev1 := fst pf in
  let first := snd pf in
  let* em := empty this in
  let* at_front :=
    (if em then ret true
     else let* fp := prev first in
          let* e := end' this in
          equals fp e) in
  (if at_front then set_begin this first else ret tt) ;;
  setNext prev1 position ;;
  setPrev position prev1 ;;
  add_size this size ;;
  ret first.

Definition insert_by_val (this : lid) (position : option ref) (val : T)
    : M (option ref) :=
  insertByRepeatingVal this position 1 val.

(** The [for (it = begin; it.equals(end) == false; it = it.next())] loop of
    [insert_by_range]. *)
Fixpoint range_loop (fuel : nat) (this : lid) (it end_it : option ref)
    (prev first : option ref) (size : Z) : M (option ref * option ref * Z) :=
  match fuel with
  | O => fun _ => OutOfFuel
  | S fuel' =>
      let* stop := equals it end_it in
      if stop then ret (prev, first, size) else
      let* v := value it in
      let* item := newIt this prev None v in
      let first' := if bool_decide (size = 0) then item else first in
      (match prev with Some _ => setNext prev item | None => ret tt end) ;;
      let* it' := next it in
      range_loop fuel' this it' end_it item first' (size + 1)
  end.

Definition insert_by_range (fuel : nat) (this : lid)
    (position begin end_it : option ref) : M (option ref) :=
  let* src := get_source position in
  if negb (bool_decide (this = src)) then throw InvalidArgument else
  let* prev0 := prev position in
  let* r := range_loop fuel this begin end_it prev0 None 0 in
  let prev1 := fst (fst r) in
  let first := snd (fst r) in
  let size := snd r in
  let* em := empty this in
  (if em then set_begin this first else ret tt) ;;
  setNext prev1 position ;;
  setPrev position prev1 ;;
  add_size this size ;;
  ret first.

Definition insert (fuel : nat) (this : lid) (args : InsertArgs) : M (option ref) :=
  match args with
  | InsertVal position val => insert_by_val this position val
  | InsertRepeat position size val => insertByRepeatingVal this position size val
  | InsertRange position begin end_it => insert_by_range fuel this position begin end_it
  end.

(** ** erase *)

Inductive EraseArgs :=
| ErasePosition (position : option ref)
| EraseRange (begin end_it : option ref).

(** The counting loop of [erase_by_range]. *)
Fixpoint count_loop (fuel : nat) (it end_it : option ref) (size : Z) : M Z :=
  match fuel with
  | O => fun _ => OutOfFuel
  | S fuel' =>
      let* stop := equals it end_it in
      if stop then ret size else
      let* it' := next it in
      count_loop fuel' it' end_it (size + 1)
  end.

Definition erase_by_range (fuel : nat) (this : lid) (begin end_it : option ref)
    : M (option ref) :=
  let* src := get_source begin in
  (if negb (bool_decide (this = src)) then throw InvalidArgument
   else let* src1 := get_source begin in
        let* src2 := get_source end_it in
        if negb (bool_decide (src1 = src2)) then throw InvalidArgument
        else ret tt) ;;
  let* prev0 := prev begin in
  let* n := count_loop fuel begin end_it 0 in
  setNext prev0 end_it ;;
  setPrev end_it prev0 ;;
  add_size this (- n) ;;
  let* s := size this in
  (if bool_decide (s = Some 0) then set_begin this end_it else ret tt) ;;
  ret end_it.

Definition erase_by_iterator (fuel : nat) (this : lid) (it : option ref)
    : M (option ref) :=
  let* n := next it in
  erase_by_range fuel this it n.

Definition erase (fuel : nat) (this : lid) (args : EraseArgs) : M (option ref) :=
  match args with
  | ErasePosition position => erase_by_iterator fuel this position
  | EraseRange begin end_it => erase_by_range fuel this begin end_it
  end.

(** ** unique *)

(** The [while] loop of [unique].  The body calls [std.equals]; the
    [binary_pred] parameter of the method does not occur in it. *)
Fixpoint unique_loop (fuel : nat) (this : lid) (it : option ref) : M unit :=
  match fuel with
  | O => fun _ => OutOfFuel
  | S fuel' =>
      let* e := end' this in
      let* stop := equals it e in
      if stop then ret tt else
      let* v := value it in
      let* p := prev it in
      let* pv := value p in
      if std_equals v pv then
        let* it' := erase fuel' this (ErasePosition it) in
        unique_loop fuel' this it'
      else
        let* it' := next it in
        unique_loop fuel' this it'
  end.

Definition unique (fuel : nat) (this : lid) (binary_pred : T -> T -> bool)
    : M unit :=
  let* b := begin this in
  let* it := next b in
  unique_loop fuel this it.

(** ** splice and merge *)

Definition splice (fuel : nat) (this : lid) (position : option ref) (obj : lid)
    (begin_arg end_arg : option ref) : M unit :=
  let* be :=
    (match begin_arg with
     | None => let* b := begin obj in
               let* e := end' obj in
               ret (b, e)
     | Some _ =>
         match end_arg with
         | None => let* e := next begin_arg in ret (begin_arg, e)
         | Some _ => ret (begin_arg, end_arg)
         end
     end) in
  insert fuel this (InsertRange position (fst be) (snd be)) ;;
  erase fuel obj (EraseRange (fst be) (snd be)) ;;
  ret tt.

(** The inner [while] of [merge]: step [it] while it is not [end()] and
    [compare(it.value, begin.value)] holds. *)
Fixpoint merge_advance (fuel : nat) (this : lid) (compare : T -> T -> bool)
    (it b : option ref) : M (option ref) :=
  match fuel with
  | O => fun _ => OutOfFuel
  | S fuel' =>
      let* e := end' this in
      let* at_end := equals it e in
      if at_end then ret it else
      let* v := value it in
      let* bv := value b in
      if compare v bv then
        let* it' := next it in
        merge_advance fuel' this compare it' b
      else ret it
  end.

(** The outer [while (obj.empty() == false)] of [merge]. *)
Fixpoint merge_loop (fuel : nat) (this obj : lid) (compare : T -> T -> bool)
    (it : option ref) : M unit :=
  match fuel with
  | O => fun _ => OutOfFuel
  | S fuel' =>
      let* em := empty obj in
      if em then ret tt else
      let* b := begin obj in
      let* it' := merge_advance fuel' this compare it b in
      splice fuel' this it' obj b None ;;
      merge_loop fuel' this obj compare it'
  end.

Definition merge (fuel : nat) (this obj : lid) (compare : T -> T -> bool) : M unit :=
  if bool_decide (this = obj) then ret tt else
  let* it := begin this in
  merge_loop fuel this obj compare it.

(** ** assign *)

(** The arguments of the overloaded [assign(par1, par2)].  An input range
    [begin, end) is given by the values its iterators yield; the identity
    tests [it == begin] and [it == end] of the loop are tests on the
    position in the range. *)
Inductive AssignArgs :=
| AssignFill (n : Z) (val : T)
| AssignRange (range : list T).

(** The [while (true)] loop of [assign].  [prev] is declared [null]
    before the loop and the loop never assigns it; [pos] is the position
    of [it] in the range. *)
Fixpoint assign_loop (fuel : nat) (this : lid) (range : list T) (pos : nat)
    (prev : option ref) : M unit :=
  match fuel with
  | O => fun _ => OutOfFuel
  | S fuel' =>
      let at_end := bool_decide (pos = length range) in
      let* item := newIt this prev None
                     (if at_end then null else default null (range !! pos)) in
      (match prev with Some _ => setNext prev item | None => ret tt end) ;;
      if bool_decide (pos = 0%nat) then
        set_begin this item ;;
        add_size this 1 ;;
        assign_loop fuel' this range (S pos) prev
      else if at_end then
        set_end this item
      else
        add_size this 1 ;;
        assign_loop fuel' this range (S pos) prev
  end.

Definition assign (fuel : nat) (this : lid) (args : AssignArgs) : M unit :=
  match args with
  | AssignRange range => assign_loop fuel this range 0 None
  | AssignFill _ _ => ret tt
  end.

(** ** sort *)

(** [new Vector<T>(this.begin(), this.end())]: the values met from [it]
    up to [end_it]. *)
Fixpoint vector_of_range (fuel : nat) (it end_it : option ref) : M (list T) :=
  match fuel with
  | O => fun _ => OutOfFuel
  | S fuel' =>
      let* stop := equals it end_it in
      if stop then ret [] else
      let* v := value it in
      let* it' := next it in
      let* rest := vector_of_range fuel' it' end_it in
      ret (v :: rest)
  end.

(** The global [std.sort(first, last)] of two arguments is not among the
    sources; it is a parameter of [sort]. *)
Variable std_sort : list T -> list T.

Definition sort (fuel : nat) (this : lid) (compare : T -> T -> bool) : M unit :=
  let* b := begin this in
  let* e := end' this in
  let* vector := vector_of_range fuel b e in
  assign fuel this (AssignRange (std_sort vector)).

(** ** The constructor *)

Inductive ConstructorArgs :=
| NoArgs
| FromArray (items : list T)
| FromRange (range : list T)
| FromFill (size : Z) (val : T).

(** Modelled from the spec: the constructor of the base class Container
    is not among the sources; [super()] is taken to assign none of the
    three fields, which List.ts declares itself. *)
Definition newList : M lid :=
  fun h => Ret (length (containers h))
               (mkHeap (iterators h) (containers h ++ [mkList None None None])).

Definition constructor (fuel : nat) (args : ConstructorArgs) : M lid :=
  let* this := newList in
  (match args with
   | NoArgs => clear this
   | FromArray items => clear this ;; push this items ;; ret tt
   | FromRange range => assign fuel this (AssignRange range)
   | FromFill size val => assign fuel this (AssignFill size val)
   end) ;;
  ret this.

(** ** Observations *)

(** The elements met walking [next] from [begin()] to [end()]. *)
Definition elements (fuel : nat) (this : lid) : M (list T) :=
  let* b := begin this in
  let* e := end' this in
  vector_of_range fuel b e.

Definition result {A} (o : Outcome A) : option A :=
  match o with Ret a _ => Some a | _ => None end.

Definition heap_of {A} (o : Outcome A) : option Heap :=
  match o with Ret _ h => Some h | Throw _ h => Some h | OutOfFuel => None end.

Definition empty_heap : Heap := mkHeap [] [].

(** [node.next.prev == node], the link test of the circular chain. *)
Definition link_ok (h : Heap) (r : ref) : bool :=
  match iterators h !! r with
  | Some n =>
      match next_ n with
      | Some r' =>
          match iterators h !! r' with
          | Some n' => bool_decide (prev_ n' = Some r)
          | None => false
          end
      | None => false
      end
  | None => false
  end.

(** ** front, back, pop_front, pop_back *)

Definition front (this : lid) : M T :=
  let* b := begin this in value b.

Definition back (this : lid) : M T :=
  let* e := end' this in
  let* p := prev e in
  value p.

Definition pop_front (fuel : nat) (this : lid) : M unit :=
  let* b := begin this in
  erase fuel this (ErasePosition b) ;;
  ret tt.

Definition pop_back (fuel : nat) (this : lid) : M unit :=
  let* e := end' this in
  let* p := prev e in
  erase fuel this (ErasePosition p) ;;
  ret tt.

(** ** remove, remove_if *)

(** The [while] loop of [remove_if]; [remove] runs the same loop with
    [std.equals(it.value, val)] as the test. *)
Fixpoint remove_if_loop (fuel : nat) (this : lid) (pred : T -> bool)
    (it : option ref) : M unit :=
  match fuel with
  | O => fun _ => OutOfFuel
  | S fuel' =>
      let* e := end' this in
      let* stop := equals it e in
      if stop then ret tt else
      let* v := value it in
      if pred v then
        let* it' := erase fuel' this (ErasePosition it) in
        remove_if_loop fuel' this pred it'
      else
        let* it' := next it in
        remove_if_loop fuel' this pred it'
  end.

Definition remove_if (fuel : nat) (this : lid) (pred : T -> bool) : M unit :=
  let* it := begin this in
  remove_if_loop fuel this pred it.

Definition remove (fuel : nat) (this : lid) (val : T) : M unit :=
  let* it := begin this in
  remove_if_loop fuel this (fun v => std_equals v val) it.

(** ** swap *)

(** [swap_list(obj)]: the three fields of the two lists change places,
    through the copy [supplement]. *)
Definition swap_list (this obj : lid) : M unit :=
  let* supplement := getList this in
  let* o := getList obj in
  putList this (fun _ => mkList (begin_ o) (end_ o) (size_ o)) ;;
  putList obj (fun _ => mkList (begin_ supplement) (end_ supplement) (size_ supplement)).

(** ** The elements [unique] keeps *)

(** The elements of [xs] that the loop of [unique] keeps when the kept
    element before them is [p]: an element is erased when it
    [std.equals] the value of [it.prev()], which is the last kept one. *)
Fixpoint unique_from (p : T) (xs : list T) : list T :=
  match xs with
  | [] => []
  | x :: xs' =>
      if std_equals x p then unique_from p xs' else x :: unique_from x xs'
  end.

(** The loop starts at [begin().next()]: the first element is kept. *)
Definition unique_result (xs : list T) : list T :=
  match xs with
  | [] => []
  | x :: xs' => x :: unique_from x xs'
  end.

(** ** Well-formed lists *)

(** The real nodes [rs], holding [xs], linked in both directions between
    the node [p] before the first and the node [q] after the last. *)
Fixpoint seg (h : Heap) (this : lid) (p : ref) (rs : list ref) (xs : list T)
    (q : ref) : Prop :=
  match rs, xs with
  | [], [] => True
  | r :: rs', x :: xs' =>
      iterators h !! r = Some (mkIt this (Some p) (Some (default q (head rs'))) x) ∧
      seg h this r rs' xs' q
  | _, _ => False
  end.

(** The list [this] is the circular chain of the sentinel [e] and the
    nodes [rs] holding [xs], [begin_] is its first node and [size_] its
    length: what [clear], [push_back], [insert] and [erase] are written
    to maintain. *)
Definition list_at (h : Heap) (this : lid) (e : ref) (rs : list ref)
    (xs : list T) : Prop :=
  containers h !! this
    = Some (mkList (Some (default e (head rs))) (Some e)
              (Some (Z.of_nat (length xs)))) ∧
  iterators h !! e
    = Some (mkIt this (Some (default e (last rs))) (Some (default e (head rs))) null) ∧
  seg h this e rs xs e ∧
  NoDup (e :: rs).

Definition is_list (h : Heap) (this : lid) (xs : list T) : Prop :=
  ∃ e rs, list_at h this e rs xs.

(** The call raised [InvalidArgument] (the error the specification calls
    InvalidOperand) and left [this] as it was: same elements, same size. *)
Definition rejected {A} (this : lid) (h : Heap) (o : Outcome A) : Prop :=
  ∃ h', o = Throw InvalidArgument h' ∧
        (∀ fuel, result (elements fuel this h') = result (elements fuel this h)) ∧
        result (size this h') = result (size this h) ∧
        h' = h.

End list_model.
Arguments Ret {T A} a h.
Arguments Throw {T A} e h.
Arguments OutOfFuel {T A}.
Arguments ret {T A} a h.
Arguments bind {T A B} m k h.
Arguments mkIt {T} source_ prev_ next_ value_.
Arguments source_ {T} l.
Arguments prev_ {T} l.
Arguments next_ {T} l.
Arguments value_ {T} l.
Arguments mkHeap {T} iterators containers.
Arguments iterators {T} h.
Arguments containers {T} h.
Arguments result {T A} o.
Arguments heap_of {T A} o.
Arguments rejected {T A} this h o.
End StdList.

(* ===================================================================== *)
(** * std.UnorderedMultiMap *)
(* ===================================================================== *)

Module UnorderedMultiMap.
Section hash_model.

Variables K T : Type.
Variable std_equals : K -> K -> bool.

(** [base.Hash] is not among the sources: its hash function and its two
    policy constants are parameters. *)
Variable Hash_code : K -> Z.
Variable Hash_MIN_SIZE : Z.
Variable Hash_RATIO : Z.

(** A [MapIterator] wraps a node of the element list [data]; [end()] wraps
    the sentinel, which holds no pair. *)
Inductive MapIterator := Pos (id : nat) | End.

(** Modelled from the spec: base.MultiMap and base.MapContainer, which own
    the element list [data], are not among the sources.  Following section
    3, the node store is an arena: [nodes] holds the pair of every node
    ever created, addressed by its identity (an erased node object keeps
    its pair), and [data] is the sequence of the live nodes.  [hashGroup]
    is the [Vector<Vector<MapIterator>>] of the class. *)
Record Map := mkMap {
  nodes : list (K * T);
  data : list nat;
  hashGroup : list (list nat)
}.

Definition size (m : Map) : Z := Z.of_nat (length (data m)).

(** [it.first] *)
Definition first (m : Map) (id : nat) : option K := fst <$> nodes m !! id.

(** [hashIndex(val)]: [Hash.code(val) % hashGroup.size()], as an index that
    [Vector.at] accepts. *)
Definition hashIndex (m : Map) (val : K) : option nat :=
  let n := Z.of_nat (length (hashGroup m)) in
  if bool_decide (n = 0) then None
  else let i := Z.rem (Hash_code val) n in
       if bool_decide (0 <= i) then Some (Z.to_nat i) else None.

(** [constructHashGroup(size = -1)] *)
Definition constructHashGroup (size' : Z) (m : Map) : Map :=
  let size' := if bool_decide (size' < Hash_MIN_SIZE) then Hash_MIN_SIZE else size' in
  mkMap (nodes m) (data m) (replicate (Z.to_nat size') []).

(** [handleInsert] and [reconstructHashGroup] call each other; [fuel]
    bounds the depth of these calls. *)
Fixpoint handleInsert (fuel : nat) (m : Map) (it : nat) : option Map :=
  match fuel with
  | O => None
  | S fuel' =>
      let reconstructHashGroup (size' : Z) (m : Map) : option Map :=
        let size' := if bool_decide (size' = -1) then size m * Hash_RATIO else size' in
        foldl (fun acc it' => acc ≫= fun m' => handleInsert fuel' m' it')
              (Some (constructHashGroup size' m)) (data m) in
      m1 ← (if bool_decide (Z.of_nat (length (hashGroup m)) > size m * 2)
            then reconstructHashGroup (-1) m else Some m);
      key ← first m1 it;
      hashIndex ← hashIndex m1 key;
      bucket ← hashGroup m1 !! hashIndex;
      Some (mkMap (nodes m1) (data m1)
                  (<[hashIndex := bucket ++ [it]]> (hashGroup m1)))
  end.

Definition reconstructHashGroup (fuel : nat) (size' : Z) (m : Map) : option Map :=
  let size' := if bool_decide (size' = -1) then size m * Hash_RATIO else size' in
  foldl (fun acc it' => acc ≫= fun m' => handleInsert fuel m' it')
        (Some (constructHashGroup size' m)) (data m).

(** The scan of [handleErase]: drop the first handle whose key
    [std.equals] the key of [it], then [break]. *)
Fixpoint erase_scan (m : Map) (key : K) (hashVector : list nat)
    : option (list nat) :=
  match hashVector with
  | [] => Some []
  | h :: rest =>
      k ← first m h;
      if std_equals key k then Some rest
      else (h ::.) <$> erase_scan m key rest
  end.

Definition handleErase (m : Map) (it : nat) : option Map :=
  key ← first m it;
  hashIndex ← hashIndex m key;
  hashVector ← hashGroup m !! hashIndex;
  hashVector' ← erase_scan m key hashVector;
  Some (mkMap (nodes m) (data m) (<[hashIndex := hashVector']> (hashGroup m))).

(** The scan of [find]. *)
Fixpoint find_scan (m : Map) (key : K) (hashArray : list nat)
    : option MapIterator :=
  match hashArray with
  | [] => Some End
  | h :: rest =>
      k ← first m h;
      if std_equals k key then Some (Pos h) else find_scan m key rest
  end.

Definition find (m : Map) (key : K) : option MapIterator :=
  hashIndex ← hashIndex m key;
  hashArray ← hashGroup m !! hashIndex;
  find_scan m key hashArray.

(** [insertByPair]: [data.insert(data.end(), pair)], then [handleInsert]. *)
Definition insertByPair (fuel : nat) (m : Map) (kv : K * T)
    : option (Map * MapIterator) :=
  let it := length (nodes m) in
  m' ← handleInsert fuel (mkMap (nodes m ++ [kv]) (data m ++ [it]) (hashGroup m)) it;
  Some (m', Pos it).

(** Modelled from the spec: the inherited [insertByRange], [assign],
    [constructByArray], [constructByRange] and [erase] of the absent base
    classes.  They insert the pairs of the source one by one (range
    construction goes through [assign]), respectively unlink the node
    from [data] and then call [handleErase] (section 4.5). *)
Definition super_insertByRange (fuel : nat) (m : Map) (range : list (K * T))
    : option Map :=
  foldl (fun acc kv => acc ≫= fun m' => fst <$> insertByPair fuel m' kv)
        (Some m) range.

Definition insertByRange (fuel : nat) (m : Map) (range : list (K * T))
    : option Map :=
  let size' := Z.of_nat (length range) in
  m1 ← (if bool_decide (size m + size' > Z.of_nat (length (hashGroup m)) * 2)
        then reconstructHashGroup fuel ((size m + size') * Hash_RATIO) m
        else Some m);
  super_insertByRange fuel m1 range.

Definition clear (m : Map) : Map :=
  constructHashGroup (-1) (mkMap (nodes m) [] (hashGroup m)).

Definition assign (fuel : nat) (m : Map) (range : list (K * T)) : option Map :=
  let m1 := constructHashGroup (Z.of_nat (length range) * Hash_RATIO) m in
  super_insertByRange fuel (mkMap (nodes m1) [] (hashGroup m1)) range.

Definition erase (m : Map) (it : nat) : option Map :=
  handleErase (mkMap (nodes m) (filter (fun id => id ≠ it) (data m)) (hashGroup m)) it.

Inductive ConstructorArgs :=
| NoArgs
| FromArray (items : list (K * T))
| FromRange (range : list (K * T)).

Definition constructor (fuel : nat) (args : ConstructorArgs) : option Map :=
  let m := constructHashGroup (-1) (mkMap [] [] []) in
  match args with
  | NoArgs => Some m
  | FromArray items =>
      super_insertByRange fuel
        (constructHashGroup (Z.of_nat (length items) * Hash_RATIO) m) items
  | FromRange range => assign fuel m range
  end.

(** The mutating operations of the public surface, to state what holds
    after any sequence of them. *)
Inductive Operation :=
| DoClear
| DoAssign (range : list (K * T))
| DoInsert (kv : K * T)
| DoInsertRange (range : list (K * T))
| DoErase (it : nat).

Definition perform (fuel : nat) (m : Map) (op : Operation) : option Map :=
  match op with
  | DoClear => Some (clear m)
  | DoAssign range => assign fuel m range
  | DoInsert kv => fst <$> insertByPair fuel m kv
  | DoInsertRange range => insertByRange fuel m range
  | DoErase it => erase m it
  end.

Definition perform_all (fuel : nat) (m : Map) (ops : list Operation) : option Map :=
  foldl (fun acc op => acc ≫= fun m' => perform fuel m' op) (Some m) ops.

(** "[bucketCount ≥ MIN_SIZE]" *)
Definition enough_buckets (m : Map) : Prop :=
  Hash_MIN_SIZE <= Z.of_nat (length (hashGroup m)).

(** Every handle kept in the element list or in a bucket refers to a
    node that was created. *)
Definition handles_valid (m : Map) : Prop :=
  Forall (fun id => (id < length (nodes m))%nat) (data m) ∧
  Forall (Forall (fun id => (id < length (nodes m))%nat)) (hashGroup m).

End hash_model.
Arguments mkMap {K T} nodes data hashGroup.
Arguments nodes {K T} m.
Arguments data {K T} m.
Arguments hashGroup {K T} m.
End UnorderedMultiMap.

(* ===================================================================== *)
(** * std.base.tree: the descent of the ordered index *)
(* ===================================================================== *)

Module XTree.
Section descent.

(** [V] is what a tree node stores (an iterator), [Key] what the descent
    compares, [proj] the projection from the one to the other:
    [node.value.value] in [AtomicTree], [node.value.first] in [PairTree]. *)
Variables V Key : Type.
Variable proj : V -> Key.
Variable std_less : Key -> Key -> bool.
Variable std_equals : Key -> Key -> bool.

(** [XTreeNode], with [null] children; parent link and colour are not
    read by the descent. *)
Inductive XTreeNode :=
| null
| node (left_ : XTreeNode) (value : V) (right_ : XTreeNode).

(** [AtomicTree.findByVal]: the node that matches [val], or else the last
    node met on the way down; [null] only for an empty tree. *)
Fixpoint findByVal (root : XTreeNode) (val : Key) : option V :=
  match root with
  | null => None
  | node left_ value right_ =>
      if std_equals val (proj value) then Some value
      else
        let newNode := if std_less val (proj value) then left_ else right_ in
        match newNode with
        | null => Some value
        | node _ _ _ => findByVal newNode val
        end
  end.

(** Modelled from the spec: [XTree.insert] is not among the sources.  By
    section 4.3 it attaches the new node at the leaf position the same
    descent reaches and then rebalances; rotations and recolouring change
    the shape of the tree and not its in-order sequence, and are left_ out. *)
Fixpoint insert (root : XTreeNode) (val : V) : XTreeNode :=
  match root with
  | null => node null val null
  | node left_ value right_ =>
      if std_less (proj val) (proj value)
      then node (insert left_ val) value right_
      else node left_ value (insert right_ val)
  end.

Fixpoint inorder (root : XTreeNode) : list V :=
  match root with
  | null => []
  | node left_ value right_ => inorder left_ ++ value :: inorder right_
  end.

End descent.
Arguments null {V}.
Arguments node {V} left_ value right_.
Arguments findByVal {V Key} proj std_less std_equals root val.
Arguments insert {V Key} proj std_less root val.
Arguments inorder {V} root.
End XTree.

(* ===================================================================== *)
(** * std.TreeMap *)
(* ===================================================================== *)

Module TreeMap.
Section tree_map_model.

Variables Key T : Type.
Variable std_less : Key -> Key -> bool.
Variable std_equals : Key -> Key -> bool.

(** A real node of the element list: its identity and the pair it holds.
    None of the operations below overwrites a stored pair, so an iterator
    to the node is given with the pair it reads. *)
Record Entry := mkEntry { id : nat; first : Key; second : T }.

(** [MapIterator]; [End] wraps the sentinel of the element list. *)
Inductive MapIterator := Pos (e : Entry) | End.

(** Modelled from the spec: base.container.UniqueMap and MapContainer,
    which own the element list, are not among the sources.  [data] is the
    sequence of live nodes, [created] the number of nodes created so far
    (the identity of the next one), [tree] the [PairTree]. *)
Record Map := mkMap {
  data : list Entry;
  created : nat;
  tree : XTree.XTreeNode Entry
}.

(** Modelled from the spec: [PairTree.find] is not among the sources; it
    is the descent of its sibling [AtomicTree.findByVal] on the key of the
    stored pair, which is what the callers in TreeMap.ts rely on when they
    compare the key of the node they get back. *)
Definition tree_find (m : Map) (key : Key) : option Entry :=
  XTree.findByVal first std_less std_equals (tree m) key.

(** [MapIterator.next()] on the element list: the node after the one with
    identity [i]; nothing when no live node has that identity. *)
Fixpoint next_in (i : nat) (l : list Entry) : option MapIterator :=
  match l with
  | [] => None
  | e :: rest =>
      if bool_decide (id e = i)
      then Some (match rest with [] => End | e' :: _ => Pos e' end)
      else next_in i rest
  end.

Definition next (m : Map) (it : MapIterator) : option MapIterator :=
  match it with
  | Pos e => next_in (id e) (data m)
  | End => Some (match data m with [] => End | e' :: _ => Pos e' end)
  end.

Definition find (m : Map) (key : Key) : MapIterator :=
  match tree_find m key with
  | None => End
  | Some value => if negb (std_equals (first value) key) then End else Pos value
  end.

Definition lowerBound (m : Map) (key : Key) : option MapIterator :=
  match tree_find m key with
  | None => Some End
  | Some value =>
      if std_less (first value) key then next m (Pos value)
      else Some (Pos value)
  end.

Definition upperBound (m : Map) (key : Key) : option MapIterator :=
  match tree_find m key with
  | None => Some End
  | Some value =>
      if negb (std_equals (first value) key) && negb (std_less (first value) key)
      then Some (Pos value)
      else next m (Pos value)
  end.

Definition equalRange (m : Map) (key : Key)
    : option (MapIterator * MapIterator) :=
  lo ← lowerBound m key;
  up ← upperBound m key;
  Some (lo, up).

(** Splicing a new node into the element list right before [it]. *)
Fixpoint splice_before (i : nat) (new : Entry) (l : list Entry)
    : option (list Entry) :=
  match l with
  | [] => None
  | e :: rest =>
      if bool_decide (id e = i) then Some (new :: e :: rest)
      else (e ::.) <$> splice_before i new rest
  end.

(** Modelled from the spec: the inherited [insert(hint, pair)] splices a
    new node into the element list before [hint] and registers it in the
    index through [handleInsert] (section 4.5). *)
Definition handleInsert (m : Map) (item : Entry) : Map :=
  mkMap (data m) (created m) (XTree.insert first std_less (tree m) item).

Definition insert (m : Map) (hint : MapIterator) (kv : Key * T)
    : option (Map * MapIterator) :=
  let item := mkEntry (created m) (fst kv) (snd kv) in
  data' ← match hint with
           | End => Some (data m ++ [item])
           | Pos e => splice_before (id e) item (data m)
           end;
  Some (handleInsert (mkMap data' (S (created m)) (tree m)) item, Pos item).

Definition insertByPair (m : Map) (kv : Key * T)
    : option (Map * (MapIterator * bool)) :=
  let node := tree_find m (fst kv) in
  match node with
  | Some value =>
      if std_equals (first value) (fst kv) then Some (m, (Pos value, false))
      else
        it ← (if std_less (first value) (fst kv) then next m (Pos value)
              else Some (Pos value));
        r ← insert m it kv;
        Some (fst r, (snd r, true))
  | None =>
      r ← insert m End kv;
      Some (fst r, (snd r, true))
  end.

(** [new TreeMap()] *)
Definition constructor : Map := mkMap [] 0%nat XTree.null.

Definition insert_all (m : Map) (kvs : list (Key * T)) : option Map :=
  foldl (fun acc kv => acc ≫= fun m' => fst <$> insertByPair m' kv) (Some m) kvs.

(** ** What the claims say, in the words of the specification *)

(** The first element of the sequence whose key satisfies [p], [end()]
    when there is none. *)
Fixpoint first_such (p : Key -> bool) (l : list Entry) : MapIterator :=
  match l with
  | [] => End
  | e :: rest => if p (first e) then Pos e else first_such p rest
  end.

(** "first entry whose key is not ordered-before [key]" *)
Definition lowerBound_spec (m : Map) (key : Key) : MapIterator :=
  first_such (fun k => negb (std_less k key)) (data m).

(** "first entry strictly after [key]" *)
Definition upperBound_spec (m : Map) (key : Key) : MapIterator :=
  first_such (fun k => std_less key k) (data m).

(** The sequence with [new] put before the first element that its key
    goes before. *)
Fixpoint insert_sorted (new : Entry) (l : list Entry) : list Entry :=
  match l with
  | [] => [new]
  | e :: rest =>
      if std_less (first new) (first e) then new :: l
      else e :: insert_sorted new rest
  end.

(** Index and store are coherent: the tree, read in order, is the element
    list; the keys of the list strictly increase; node identities are
    distinct and were all handed out already. *)
Definition coherent (m : Map) : Prop :=
  XTree.inorder (tree m) = data m ∧
  StronglySorted (fun a b => std_less (first a) (first b) = true) (data m) ∧
  NoDup (id <$> data m) ∧
  Forall (fun e => (id e < created m)%nat) (data m).

(** ** MapIterator (src/std/MapIterator.ts) *)

(** [equals]: same source and the same node of the element list; all
    iterators here are on the one map [m]. *)
Definition equals (it obj : MapIterator) : bool :=
  match it, obj with
  | Pos a, Pos b => bool_decide (id a = id b)
  | End, End => true
  | _, _ => false
  end.

(** Modelled from the spec: [ListIterator.prev()] is not among the
    sources; on the circular element list of section 3 the node before
    the first one is the sentinel, and the node before the sentinel is
    the last one.  [prev_in i before l] is the node before the one with
    identity [i], [before] being what precedes [l]. *)
Fixpoint prev_in (i : nat) (before : MapIterator) (l : list Entry)
    : option MapIterator :=
  match l with
  | [] => None
  | e :: rest =>
      if bool_decide (id e = i) then Some before else prev_in i (Pos e) rest
  end.

Definition prev (m : Map) (it : MapIterator) : option MapIterator :=
  match it with
  | Pos e => prev_in (id e) End (data m)
  | End => Some (match last (data m) with Some e' => Pos e' | None => End end)
  end.

(** The two [for] loops of [advance], which differ in the step only. *)
Fixpoint advance_loop (step : MapIterator -> option MapIterator) (rounds : nat)
    (it : MapIterator) : option MapIterator :=
  match rounds with
  | O => Some it
  | S rounds' =>
      if equals it End then Some End
      else it' ← step it; advance_loop step rounds' it'
  end.

Definition advance (m : Map) (it : MapIterator) (n : Z) : option MapIterator :=
  if bool_decide (0 <= n) then advance_loop (next m) (Z.to_nat n) it
  else advance_loop (prev m) (Z.to_nat (n * -1)) it.

(** The iterator on the element at place [i] of the sequence, [end()]
    past the last one. *)
Definition at_index (m : Map) (i : nat) : MapIterator :=
  match data m !! i with Some e => Pos e | None => End end.

End tree_map_model.
Arguments Pos {Key T} e.
Arguments End {Key T}.
Arguments mkEntry {Key T} id first second.
Arguments id {Key T} e.
Arguments first {Key T} e.
Arguments second {Key T} e.
Arguments data {Key T} m.
Arguments created {Key T} m.
Arguments tree {Key T} m.
Arguments mkMap {Key T} data created tree.
End TreeMap.

(* ===================================================================== *)
(** * std.base.tree.AtomicTree *)
(* ===================================================================== *)

Module AtomicTree.
Section atomic_tree.

Variable T : Type.
Variable std_less : T -> T -> bool.
Variable std_equals : T -> T -> bool.

(** A [SetIterator]: the node of the element list it is on, and the value
    that node holds. *)
Record SetIterator := mkSetIterator { node : nat; value : T }.

(** [findByVal(val)], the descent on [node.value.value]. *)
Definition findByVal (root : XTree.XTreeNode SetIterator) (val : T)
    : option SetIterator :=
  XTree.findByVal value std_less std_equals root val.

(** [isLess(left, right)]: [std.less(left.value, right.value)]. *)
Definition isLess (left_ right_ : SetIterator) : bool :=
  std_less (value left_) (value right_).

(** The values of the tree increase from left to right under [isLess]. *)
Definition ordered (root : XTree.XTreeNode SetIterator) : Prop :=
  StronglySorted (fun a b => isLess a b = true) (XTree.inorder root).

End atomic_tree.
Arguments mkSetIterator {T} node value.
Arguments node {T} s.
Arguments value {T} s.
End AtomicTree.

(* ===================================================================== *)
(** * Instances used by the examples *)
(* ===================================================================== *)

Module Instances.

(** JavaScript values of the examples: [null] and numbers. *)
Inductive JsVal := JsNull | JsNum (n : Z).

Definition to_number (v : JsVal) : Z :=
  match v with JsNull => 0 | JsNum n => n end.

(** [std.less] and [std.equals] at these values: [<] after conversion to
    a number, and structural equality. *)
Definition js_less (a b : JsVal) : bool := to_number a <? to_number b.
Definition js_greater (a b : JsVal) : bool := to_number b <? to_number a.
Definition js_equals (a b : JsVal) : bool :=
  match a, b with
  | JsNull, JsNull => true
  | JsNum x, JsNum y => x =? y
  | _, _ => false
  end.
Definition same_parity (a b : JsVal) : bool :=
  Bool.eqb (Z.even (to_number a)) (Z.even (to_number b)).

(** Modelled from the spec: the global [std.sort(first, last)] is not
    among the sources (section 1 lists the generic sort utilities as
    external); with two arguments it orders by [std.less].  A stable
    insertion sort stands for it. *)
Fixpoint sorted_insert (x : JsVal) (l : list JsVal) : list JsVal :=
  match l with
  | [] => [x]
  | y :: rest => if js_less x y then x :: l else y :: sorted_insert x rest
  end.
Definition js_sort (l : list JsVal) : list JsVal := foldr sorted_insert [] l.

Definition ListM := StdList.M JsVal.
Definition new_List := StdList.constructor JsVal JsNull.
Definition from_array (l : list Z) := StdList.FromArray JsVal (JsNum <$> l).
Definition elements := StdList.elements JsVal.
Definition run {A} (m : ListM A) : StdList.Outcome JsVal A := m (StdList.empty_heap JsVal).

(** The heap that [new List()] leaves. *)
Definition cleared_list : StdList.Heap JsVal :=
  Eval vm_compute in
    default (StdList.empty_heap JsVal)
      (StdList.heap_of (run (new_List 10 (StdList.NoArgs JsVal)))).

(** Two lists [[1]] and [[2]] in one heap, built by the array constructor. *)
Definition two_lists : StdList.Heap JsVal :=
  Eval vm_compute in
    default (StdList.empty_heap JsVal)
      (StdList.heap_of
         (run (StdList.bind (new_List 10 (from_array [1]))
                 (fun _ => new_List 10 (from_array [2]))))).

(** The heap that [new List([1, 2, 2, 3])] leaves. *)
Definition list_1_2_2_3 : StdList.Heap JsVal :=
  Eval vm_compute in
    default (StdList.empty_heap JsVal)
      (StdList.heap_of (run (new_List 10 (from_array [1; 2; 2; 3])))).

Notation "'let*' x ':=' m 'in' k" := (StdList.bind m (fun x => k))
  (at level 10, x name, m at level 100, k at level 200).
Notation "m ';;' k" := (StdList.bind m (fun _ => k))
  (at level 100, k at level 200, right associativity).

(** [A = new List(a); B = new List(b); A.merge(B, compare)], then the
    elements and sizes of both. *)
Definition merge_example (a b : list Z) (compare : JsVal -> JsVal -> bool)
    : ListM (list JsVal * list JsVal * option Z * option Z) :=
  let* A := new_List 100 (from_array a) in
  let* B := new_List 100 (from_array b) in
  StdList.merge JsVal 100 A B compare ;;
  let* ea := elements 100 A in
  let* eb := elements 100 B in
  let* sa := StdList.size JsVal A in
  let* sb := StdList.size JsVal B in
  StdList.ret (ea, eb, sa, sb).

(** [A = new List(a); A.unique(binary_pred)], then the elements of [A]. *)
Definition unique_example (a : list Z) (binary_pred : JsVal -> JsVal -> bool)
    : ListM (list JsVal) :=
  let* A := new_List 100 (from_array a) in
  StdList.unique JsVal js_equals 100 A binary_pred ;;
  elements 100 A.

(** [A = new List(a); A.sort(compare)], then [A.front()],
    [A.begin().next()] and [A.size()]. *)
Definition sort_example (a : list Z) (compare : JsVal -> JsVal -> bool)
    : ListM (JsVal * option StdList.ref * option Z) :=
  let* A := new_List 100 (from_array a) in
  StdList.sort JsVal JsNull js_sort 100 A compare ;;
  let* b := StdList.begin JsVal A in
  let* front := StdList.value JsVal b in
  let* second := StdList.next JsVal b in
  let* s := StdList.size JsVal A in
  StdList.ret (front, second, s).

(** [A = new List(); A.push_front(val)], then [A.end()]. *)
Definition push_front_example (val : JsVal) : ListM (option StdList.ref) :=
  let* A := new_List 100 (StdList.NoArgs JsVal) in
  StdList.push_front JsVal JsNull A val ;;
  StdList.end' JsVal A.

(** [A = new List(); A.push_back(val)], then [A.end()]. *)
Definition push_back_example (val : JsVal) : ListM (option StdList.ref) :=
  let* A := new_List 100 (StdList.NoArgs JsVal) in
  StdList.push_back JsVal A val ;;
  StdList.end' JsVal A.

(** [A = new List(a); A.erase(A.begin())], then the elements met from
    [A.begin()] and [A.size()]. *)
Definition erase_first_example (a : list Z) : ListM (list JsVal * option Z) :=
  let* A := new_List 100 (from_array a) in
  let* b := StdList.begin JsVal A in
  StdList.erase JsVal 100 A (StdList.ErasePosition b) ;;
  let* ea := elements 100 A in
  let* sa := StdList.size JsVal A in
  StdList.ret (ea, sa).

(** Keys and mapped values of the map examples are integers.  The hash
    map example hashes a key to itself and takes 2 and 1 for the two
    policy constants. *)
Definition hash_perform_all :=
  UnorderedMultiMap.perform_all Z Z Z.eqb (fun k => k) 2 1 10.

Definition hash_empty : UnorderedMultiMap.Map Z Z :=
  Eval vm_compute in
    default (UnorderedMultiMap.mkMap [] [] [])
      (UnorderedMultiMap.constructor Z Z (fun k => k) 2 1 10
         (UnorderedMultiMap.NoArgs Z Z)).

(** Two elements with the key 1, then the unlinking of the second one from
    the element list, which is the state [handleErase] is called in. *)
Definition hash_two_equal_keys : UnorderedMultiMap.Map Z Z :=
  Eval vm_compute in
    default hash_empty
      (hash_perform_all hash_empty
         [UnorderedMultiMap.DoInsert Z Z (1, 100);
          UnorderedMultiMap.DoInsert Z Z (1, 200)]).

Definition hash_second_unlinked : UnorderedMultiMap.Map Z Z :=
  UnorderedMultiMap.mkMap (UnorderedMultiMap.nodes hash_two_equal_keys) [0%nat]
    (UnorderedMultiMap.hashGroup hash_two_equal_keys).

Definition tree_insert_all (keys : list Z) : option (TreeMap.Map Z Z) :=
  TreeMap.insert_all Z Z Z.ltb Z.eqb (TreeMap.constructor Z Z)
    ((fun k => (k, 10 * k)) <$> keys).

(** The map of the example of the specification: keys 5, 3, 8, 1
    inserted in this order. *)
Definition tree_5_3_8_1 : TreeMap.Map Z Z :=
  Eval vm_compute in
    default (TreeMap.constructor Z Z) (tree_insert_all [5; 3; 8; 1]).

(** Two elements with the keys 1 and 3, which share the bucket 1 of 2. *)
Definition hash_keys_1_3 : UnorderedMultiMap.Map Z Z :=
  Eval vm_compute in
    default hash_empty
      (hash_perform_all hash_empty
         [UnorderedMultiMap.DoInsert Z Z (1, 100);
          UnorderedMultiMap.DoInsert Z Z (3, 300)]).

(** The empty map when [MIN_SIZE] is 10. *)
Definition hash_empty_10 : UnorderedMultiMap.Map Z Z :=
  Eval vm_compute in
    default (UnorderedMultiMap.mkMap [] [] [])
      (UnorderedMultiMap.constructor Z Z (fun k => k) 10 1 10
         (UnorderedMultiMap.NoArgs Z Z)).

(** An [AtomicTree] with 3 at the root, 1 to its left and 5 to its right. *)
Definition atomic_1_3_5 : XTree.XTreeNode (AtomicTree.SetIterator Z) :=
  XTree.node (XTree.node XTree.null (AtomicTree.mkSetIterator 0%nat 1) XTree.null)
    (AtomicTree.mkSetIterator 1%nat 3)
    (XTree.node XTree.null (AtomicTree.mkSetIterator 2%nat 5) XTree.null).

End Instances.

(* ===================================================================== *)
(** * Facts about std.List *)
(* ===================================================================== *)

Section list_facts.

Variable T : Type.
Variable null : T.

Local Abbreviation Heap := (StdList.Heap T).

Lemma get_source_at (h : Heap) (r : StdList.ref) (n : StdList.ListIterator T) :
  StdList.iterators h !! r = Some n →
  StdList.get_source T (Some r) h = StdList.Ret (StdList.source_ n) h.
Proof.
  intros Hn. unfold StdList.get_source, StdList.getIt, StdList.bind, StdList.deref.
  cbn. unfold StdList.ret. now rewrite Hn.
Qed.

Lemma next_at (h : Heap) (r : StdList.ref) (n : StdList.ListIterator T) :
  StdList.iterators h !! r = Some n →
  StdList.next T (Some r) h = StdList.Ret (StdList.next_ n) h.
Proof.
  intros Hn. unfold StdList.next, StdList.getIt, StdList.bind, StdList.deref.
  cbn. unfold StdList.ret. now rewrite Hn.
Qed.

Lemma rejected_intro {A} (this : StdList.lid) (h : Heap) (o : StdList.Outcome T A) :
  o = StdList.Throw StdList.InvalidArgument h → StdList.rejected this h o.
Proof. intros ->. exists h. repeat split. Qed.

Lemma insertByRepeatingVal_foreign (h : Heap) this r n size val :
  StdList.iterators h !! r = Some n →
  StdList.source_ n ≠ this →
  StdList.insertByRepeatingVal T this (Some r) size val h
  = StdList.Throw StdList.InvalidArgument h.
Proof.
  intros Hn Hsrc. unfold StdList.insertByRepeatingVal.
  unfold StdList.bind at 1. rewrite (get_source_at h r n Hn).
  rewrite bool_decide_eq_false_2 by congruence. reflexivity.
Qed.

Lemma insert_by_range_foreign fuel (h : Heap) this r n b e :
  StdList.iterators h !! r = Some n →
  StdList.source_ n ≠ this →
  StdList.insert_by_range T fuel this (Some r) b e h
  = StdList.Throw StdList.InvalidArgument h.
Proof.
  intros Hn Hsrc. unfold StdList.insert_by_range.
  unfold StdList.bind at 1. rewrite (get_source_at h r n Hn).
  rewrite bool_decide_eq_false_2 by congruence. reflexivity.
Qed.

Lemma erase_by_range_foreign_begin fuel (h : Heap) this r n e :
  StdList.iterators h !! r = Some n →
  StdList.source_ n ≠ this →
  StdList.erase_by_range T fuel this (Some r) e h
  = StdList.Throw StdList.InvalidArgument h.
Proof.
  intros Hn Hsrc. unfold StdList.erase_by_range.
  unfold StdList.bind at 1. rewrite (get_source_at h r n Hn).
  rewrite bool_decide_eq_false_2 by congruence. reflexivity.
Qed.

Lemma erase_by_range_foreign_end fuel (h : Heap) this b nb r n :
  StdList.iterators h !! b = Some nb →
  StdList.source_ nb = this →
  StdList.iterators h !! r = Some n →
  StdList.source_ n ≠ this →
  StdList.erase_by_range T fuel this (Some b) (Some r) h
  = StdList.Throw StdList.InvalidArgument h.
Proof.
  intros Hb Hown Hn Hsrc. unfold StdList.erase_by_range.
  unfold StdList.bind at 1. rewrite (get_source_at h b nb Hb).
  rewrite bool_decide_eq_true_2 by congruence. cbn [negb].
  unfold StdList.bind at 1. unfold StdList.bind at 1.
  rewrite (get_source_at h b nb Hb).
  unfold StdList.bind at 1. rewrite (get_source_at h r n Hn).
  rewrite bool_decide_eq_false_2 by congruence. reflexivity.
Qed.

(** C1.  An iterator of another container is refused before anything is
    written: [insert(position, ...)] in its three shapes,
    [erase(position)] and [erase(begin, end)] (whether the foreign iterator
    is [begin] or [end]) raise [InvalidArgument], the error the
    specification names InvalidOperand, and the heap after the failed call
    is the heap before it, so the list has the same elements and the same
    [size()]. *)
Theorem C1_foreign_iterator_is_rejected
    (fuel : nat) (h : Heap) (this : StdList.lid)
    (r : StdList.ref) (n : StdList.ListIterator T) :
  StdList.iterators h !! r = Some n →
  StdList.source_ n ≠ this →
  (∀ val, StdList.rejected this h
            (StdList.insert T fuel this (StdList.InsertVal T (Some r) val) h)) ∧
  (∀ size val, StdList.rejected this h
            (StdList.insert T fuel this (StdList.InsertRepeat T (Some r) size val) h)) ∧
  (∀ b e, StdList.rejected this h
            (StdList.insert T fuel this (StdList.InsertRange T (Some r) b e) h)) ∧
  StdList.rejected this h
    (StdList.erase T fuel this (StdList.ErasePosition (Some r)) h) ∧
  (∀ e, StdList.rejected this h
            (StdList.erase T fuel this (StdList.EraseRange (Some r) e) h)) ∧
  (∀ b nb, StdList.iterators h !! b = Some nb → StdList.source_ nb = this →
           StdList.rejected this h
             (StdList.erase T fuel this (StdList.EraseRange (Some b) (Some r)) h)).
Proof.
  intros Hn Hsrc. repeat split.
  - intros val. apply rejected_intro. cbn. unfold StdList.insert_by_val.
    now apply insertByRepeatingVal_foreign with n.
  - intros size val. apply rejected_intro. cbn.
    now apply insertByRepeatingVal_foreign with n.
  - intros b e. apply rejected_intro. cbn.
    now apply insert_by_range_foreign with n.
  - apply rejected_intro. cbn. unfold StdList.erase_by_iterator.
    unfold StdList.bind at 1. rewrite (next_at h r n Hn).
    now apply erase_by_range_foreign_begin with n.
  - intros e. apply rejected_intro. cbn.
    now apply erase_by_range_foreign_begin with n.
  - intros b nb Hb Hown. apply rejected_intro. cbn.
    now apply erase_by_range_foreign_end with nb n.
Qed.

(** C10.  [assign(n, val)] takes no branch and returns with the heap as it
    found it; the fill constructor therefore returns a list whose
    [begin_], [end_] and [size_] were never assigned, and for which no
    node was created. *)
Theorem C10_fill_assign_does_nothing
    (fuel : nat) (n : Z) (val : T) (h : Heap) :
  (∀ this, StdList.assign T null fuel this (StdList.AssignFill T n val) h
           = StdList.Ret tt h) ∧
  ∃ h', StdList.constructor T null fuel (StdList.FromFill T n val) h
          = StdList.Ret (length (StdList.containers h)) h' ∧
        StdList.containers h' !! length (StdList.containers h)
          = Some (StdList.mkList None None None) ∧
        StdList.iterators h' = StdList.iterators h ∧
        StdList.containers h' = StdList.containers h ++ [StdList.mkList None None None].
Proof.
  split; [reflexivity|].
  eexists. split; [reflexivity|]. cbn. split; [|done].
  rewrite lookup_app_r by lia. now rewrite Nat.sub_diag.
Qed.

(** ** Running the operations on a given heap *)

Lemma run_bind {A B} (m : StdList.M T A) (k : A → StdList.M T B) h a h1 :
  m h = StdList.Ret a h1 → StdList.bind m k h = k a h1.
Proof. intros H. unfold StdList.bind. now rewrite H. Qed.

Lemma run_getList (h : Heap) this l :
  StdList.containers h !! this = Some l → StdList.getList T this h = StdList.Ret l h.
Proof. intros H. unfold StdList.getList. now rewrite H. Qed.

Lemma run_begin (h : Heap) this l :
  StdList.containers h !! this = Some l →
  StdList.begin T this h = StdList.Ret (StdList.begin_ l) h.
Proof. intros H. unfold StdList.begin. now rewrite (run_bind _ _ _ _ _ (run_getList h this l H)). Qed.

Lemma run_end (h : Heap) this l :
  StdList.containers h !! this = Some l →
  StdList.end' T this h = StdList.Ret (StdList.end_ l) h.
Proof. intros H. unfold StdList.end'. now rewrite (run_bind _ _ _ _ _ (run_getList h this l H)). Qed.

Lemma run_size (h : Heap) this l :
  StdList.containers h !! this = Some l →
  StdList.size T this h = StdList.Ret (StdList.size_ l) h.
Proof. intros H. unfold StdList.size. now rewrite (run_bind _ _ _ _ _ (run_getList h this l H)). Qed.

Lemma run_putList (h : Heap) this l f :
  StdList.containers h !! this = Some l →
  StdList.putList T this f h
  = StdList.Ret tt (StdList.mkHeap (StdList.iterators h) (<[this := f l]> (StdList.containers h))).
Proof. intros H. unfold StdList.putList. now rewrite (run_bind _ _ _ _ _ (run_getList h this l H)). Qed.

Lemma run_putIt (h : Heap) r n f :
  StdList.iterators h !! r = Some n →
  StdList.putIt T (Some r) f h
  = StdList.Ret tt (StdList.mkHeap (<[r := f n]> (StdList.iterators h)) (StdList.containers h)).
Proof.
  intros H. unfold StdList.putIt, StdList.getIt, StdList.deref, StdList.bind, StdList.ret.
  cbn. now rewrite H.
Qed.

Ltac heap_simpl := cbn [StdList.iterators StdList.containers StdList.begin_ StdList.end_
                         StdList.size_ StdList.prev_ StdList.next_ StdList.value_ StdList.source_].

Ltac length_simpl :=
  repeat first [rewrite length_insert | rewrite length_app]; cbn [length].

Ltac lookup_solver :=
  heap_simpl; length_simpl;
  repeat first
    [ rewrite list_lookup_insert_eq by (length_simpl; lia)
    | rewrite list_lookup_insert_ne by lia
    | rewrite lookup_app_l by (length_simpl; lia)
    | rewrite list_lookup_middle by (length_simpl; lia) ];
  first [eassumption | reflexivity].

Ltac run_step :=
  erewrite run_bind;
  [| first [ apply run_putIt; lookup_solver
           | apply run_putList; lookup_solver
           | apply run_begin; lookup_solver
           | apply run_end; lookup_solver
           | apply run_size; lookup_solver
           | reflexivity ] ];
  heap_simpl.

Lemma link_ok_false (h : Heap) e sentinel r item :
  StdList.iterators h !! e = Some sentinel →
  StdList.next_ sentinel = Some r →
  StdList.iterators h !! r = Some item →
  StdList.prev_ item = None →
  StdList.link_ok T h e = false.
Proof. intros H1 H2 H3 H4. unfold StdList.link_ok. now rewrite H1, H2, H3, H4. Qed.

(** C6.  On every list whose [begin_] and [end_] are nodes of the heap,
    [push_front] returns, and afterwards [end().next] is the new first
    node while the [prev] of that node is [null]: the node was created
    with [prev = null] and nothing sets it.  So [end().next.prev] is not
    [end()], and the chain is not consistent around the cycle. *)
Theorem C6_push_front_leaves_prev_null
    (h : Heap) (this : StdList.lid) (l : StdList.List)
    (rb re : StdList.ref) (nb ne : StdList.ListIterator T) (val : T) :
  StdList.containers h !! this = Some l →
  StdList.begin_ l = Some rb → StdList.end_ l = Some re →
  StdList.iterators h !! rb = Some nb → StdList.iterators h !! re = Some ne →
  ∃ h' l' e sentinel item,
    StdList.push_front T null this val h = StdList.Ret tt h' ∧
    StdList.containers h' !! this = Some l' ∧
    StdList.begin_ l' = Some (length (StdList.iterators h)) ∧
    StdList.end_ l' = Some e ∧
    StdList.iterators h' !! e = Some sentinel ∧
    StdList.next_ sentinel = Some (length (StdList.iterators h)) ∧
    StdList.iterators h' !! length (StdList.iterators h) = Some item ∧
    StdList.value_ item = val ∧
    StdList.prev_ item = None ∧
    StdList.link_ok T h' e = false.
Proof.
  intros Hl Hb He Hnb Hne.
  pose proof (lookup_lt_Some _ _ _ Hnb) as Hrb.
  pose proof (lookup_lt_Some _ _ _ Hne) as Hre.
  pose proof (lookup_lt_Some _ _ _ Hl) as Hthis.
  unfold StdList.push_front.
  rewrite (run_bind _ _ _ _ _ (run_begin h this l Hl)), Hb.
  unfold StdList.setPrev, StdList.setNext, StdList.set_begin, StdList.set_end, StdList.add_size.
  run_step. run_step. run_step.
  case_bool_decide as Hs.
  - erewrite run_bind; [|run_step; run_step; apply run_putIt; lookup_solver].
    heap_simpl. run_step.
    erewrite run_putList by lookup_solver. heap_simpl. length_simpl.
    eexists _, _, (length (StdList.iterators h) + 1)%nat, _, _.
    split; [reflexivity|]. heap_simpl.
    split; [lookup_solver|]. heap_simpl.
    split; [reflexivity|]. split; [reflexivity|].
    split; [lookup_solver|]. split; [reflexivity|].
    split; [lookup_solver|]. split; [reflexivity|]. split; [reflexivity|].
    eapply link_ok_false; [lookup_solver|reflexivity|lookup_solver|reflexivity].
  - assert (Hfinish : ∀ (its : list (StdList.ListIterator T)) sentinel,
              length its = S (length (StdList.iterators h)) →
              its !! re = Some sentinel →
              StdList.next_ sentinel = Some (length (StdList.iterators h)) →
              its !! length (StdList.iterators h)
                = Some (StdList.mkIt this None (Some rb) val) →
              ∃ l' e sentinel item,
                StdList.containers
                  (StdList.mkHeap its
                     (<[this := StdList.mkList (Some (length (StdList.iterators h)))
                                  (Some re) (Z.add 1 <$> StdList.size_ l)]>
                        (<[this := StdList.mkList (Some (length (StdList.iterators h)))
                                     (Some re) (StdList.size_ l)]>
                           (StdList.containers h)))) !! this = Some l' ∧
                StdList.begin_ l' = Some (length (StdList.iterators h)) ∧
                StdList.end_ l' = Some e ∧
                its !! e = Some sentinel ∧
                StdList.next_ sentinel = Some (length (StdList.iterators h)) ∧
                its !! length (StdList.iterators h) = Some item ∧
                StdList.value_ item = val ∧
                StdList.prev_ item = None ∧
                StdList.link_ok T
                  (StdList.mkHeap its
                     (<[this := StdList.mkList (Some (length (StdList.iterators h)))
                                  (Some re) (Z.add 1 <$> StdList.size_ l)]>
                        (<[this := StdList.mkList (Some (length (StdList.iterators h)))
                                     (Some re) (StdList.size_ l)]>
                           (StdList.containers h)))) e = false).
    { intros its sentinel Hlen Hsent Hnext Hitem.
      eexists _, re, sentinel, _. heap_simpl.
      split; [lookup_solver|]. split; [reflexivity|]. split; [reflexivity|].
      split; [exact Hsent|]. split; [exact Hnext|]. split; [exact Hitem|].
      split; [reflexivity|]. split; [reflexivity|].
      eapply link_ok_false; [exact Hsent|exact Hnext|exact Hitem|reflexivity]. }
    destruct (decide (re = rb)) as [->|Hne'].
    + erewrite run_bind; [|run_step; rewrite He; apply run_putIt; lookup_solver].
      heap_simpl. run_step. rewrite He.
      erewrite run_putList by lookup_solver. heap_simpl.
      eexists. edestruct Hfinish as (l' & e & sentinel & item & H'); cycle 4.
      { exists l', e, sentinel, item. split; [reflexivity|]. exact H'. }
      all: try lookup_solver. length_simpl. lia.
    + erewrite run_bind; [|run_step; rewrite He; apply run_putIt; lookup_solver].
      heap_simpl. run_step. rewrite He.
      erewrite run_putList by lookup_solver. heap_simpl.
      eexists. edestruct Hfinish as (l' & e & sentinel & item & H'); cycle 4.
      { exists l', e, sentinel, item. split; [reflexivity|]. exact H'. }
      all: try lookup_solver. length_simpl. lia.
Qed.

End list_facts.

(** A foreign iterator: the first element of the second list of
    [Instances.two_lists], used on the first list. *)
Lemma C1_foreign_iterator_is_rejected_witness :
  StdList.iterators Instances.two_lists !! 3%nat
    = Some (StdList.mkIt 1%nat (Some 2%nat) (Some 2%nat) (Instances.JsNum 2)) ∧
  1%nat ≠ 0%nat ∧
  StdList.rejected 0%nat Instances.two_lists
    (StdList.erase Instances.JsVal 10 0%nat (StdList.ErasePosition (Some 3%nat))
       Instances.two_lists).
Proof.
  split; [reflexivity|]. split; [lia|].
  refine (proj1 (proj2 (proj2 (proj2
    (C1_foreign_iterator_is_rejected Instances.JsVal 10 Instances.two_lists 0%nat 3%nat
       (StdList.mkIt 1%nat (Some 2%nat) (Some 2%nat) (Instances.JsNum 2)) _ _))))).
  - reflexivity.
  - cbn. lia.
Defined.

(** On a list just cleared, [push_back] closes the cycle: the sentinel
    and the new node each satisfy [node.next.prev == node]. *)
Example push_back_links_consistent (val : Instances.JsVal) :
  ∃ h, Instances.run (Instances.push_back_example val) = StdList.Ret (Some 0%nat) h ∧
       StdList.link_ok Instances.JsVal h 0%nat = true ∧
       StdList.link_ok Instances.JsVal h 1%nat = true.
Proof. eexists. split; [vm_compute; reflexivity|]. split; reflexivity. Qed.

(** [erase(begin())] on [1,2,3]: [size()] drops to 2 but [begin()] still
    is the unlinked node, from which all three elements are met. *)
Example erase_first_keeps_begin :
  StdList.result (Instances.run (Instances.erase_first_example [1; 2; 3]))
  = Some (Instances.JsNum <$> [1; 2; 3], Some 2).
Proof. vm_compute; reflexivity. Qed.

(** [push_front] on a list just cleared, evaluated: node 2 is the new
    sentinel, node 1 the new element. *)
Example push_front_on_cleared_list (val : Instances.JsVal) :
  ∃ h sentinel item,
    Instances.run (Instances.push_front_example val) = StdList.Ret (Some 2%nat) h ∧
    StdList.iterators h !! 2%nat = Some sentinel ∧
    StdList.next_ sentinel = Some 1%nat ∧
    StdList.prev_ sentinel = Some 1%nat ∧
    StdList.iterators h !! 1%nat = Some item ∧
    StdList.value_ item = val ∧
    StdList.next_ item = Some 2%nat ∧
    StdList.prev_ item = None ∧
    StdList.link_ok Instances.JsVal h 2%nat = false.
Proof.
  eexists. eexists. eexists. split; [vm_compute; reflexivity|].
  repeat split; reflexivity.
Qed.

(** [push_front(1)] on the heap that [new List()] leaves. *)
Lemma C6_push_front_leaves_prev_null_witness :
  ∃ h' l' e sentinel item,
    StdList.push_front Instances.JsVal Instances.JsNull 0%nat (Instances.JsNum 1)
      Instances.cleared_list = StdList.Ret tt h' ∧
    StdList.containers h' !! 0%nat = Some l' ∧
    StdList.begin_ l' = Some 1%nat ∧
    StdList.end_ l' = Some e ∧
    StdList.iterators h' !! e = Some sentinel ∧
    StdList.next_ sentinel = Some 1%nat ∧
    StdList.iterators h' !! 1%nat = Some item ∧
    StdList.value_ item = Instances.JsNum 1 ∧
    StdList.prev_ item = None ∧
    StdList.link_ok Instances.JsVal h' e = false.
Proof.
  refine (C6_push_front_leaves_prev_null Instances.JsVal Instances.JsNull
            Instances.cleared_list 0%nat
            (StdList.mkList (Some 0%nat) (Some 0%nat) (Some 0)) 0%nat 0%nat
            (StdList.mkIt 0%nat (Some 0%nat) (Some 0%nat) Instances.JsNull)
            (StdList.mkIt 0%nat (Some 0%nat) (Some 0%nat) Instances.JsNull)
            (Instances.JsNum 1) _ _ _ _ _); reflexivity.
Defined.

(** C7.  [unique(binary_pred)] never calls [binary_pred]: its result is
    the same for every predicate.  With the equivalence "same parity" the
    list [1,3,2,4] keeps all four elements although 3 is equivalent to 1
    and 4 to 2; with the default equality the example of the specification
    comes out as stated. *)
Theorem C7_unique_ignores_binary_pred :
  (∀ (T : Type) (std_equals p q : T → T → bool) fuel this h,
     StdList.unique T std_equals fuel this p h
     = StdList.unique T std_equals fuel this q h) ∧
  StdList.result (Instances.run (Instances.unique_example [1; 3; 2; 4] Instances.same_parity))
  = Some (Instances.JsNum <$> [1; 3; 2; 4]) ∧
  StdList.result (Instances.run (Instances.unique_example [1; 2; 2; 3; 3; 3; 4] Instances.js_equals))
  = Some (Instances.JsNum <$> [1; 2; 3; 4]).
Proof.
  split; [reflexivity|]. split; vm_compute; reflexivity.
Qed.

(** C8.  [sort(compare)] never uses [compare]: whatever the global
    [std.sort] does, the result is the same for every comparator.  Asked
    to sort [2,3,1] by "greater", it leaves 1, the least element, at the
    front; and since [assign] links none of the nodes it creates and adds
    to [size_], [begin().next()] is [null] and [size()] is 6. *)
Theorem C8_sort_ignores_compare :
  (∀ (T : Type) (null : T) (std_sort : list T → list T)
     (c1 c2 : T → T → bool) fuel this h,
     StdList.sort T null std_sort fuel this c1 h
     = StdList.sort T null std_sort fuel this c2 h) ∧
  StdList.result (Instances.run (Instances.sort_example [2; 3; 1] Instances.js_greater))
  = Some (Instances.JsNum 1, None, Some 6).
Proof.
  split; [reflexivity|]. vm_compute; reflexivity.
Qed.

(** C5.  [A = [1,3,5]], [B = [2,4,6]], [A.merge(B)]: [erase_by_range]
    does not move [begin_] off the node it unlinks, so every round of
    [merge] reads the same first node of [B]; 2 is copied three times into
    [A], and [B], whose size has reached 0, still chains 4 and 6. *)
Theorem C5_merge_example_result :
  StdList.result (Instances.run (Instances.merge_example [1; 3; 5] [2; 4; 6] Instances.js_less))
  = Some (Instances.JsNum <$> [1; 2; 2; 2; 3; 5],
          Instances.JsNum <$> [4; 6], Some 6, Some 0).
Proof. vm_compute; reflexivity. Qed.

(* ===================================================================== *)
(** * Facts about std.UnorderedMultiMap *)
(* ===================================================================== *)

Section option_folds.

Context {A B : Type}.
Variable f : A → B → option A.
Variable P : A → Prop.

Lemma foldl_bind_None (l : list B) :
  foldl (fun acc x => acc ≫= fun a => f a x) None l = None.
Proof. induction l as [|x l IH]; [reflexivity|exact IH]. Qed.

Lemma foldl_bind_preserves (l : list B) :
  (∀ a x a', P a → f a x = Some a' → P a') →
  ∀ a a', P a →
    foldl (fun acc x => acc ≫= fun a => f a x) (Some a) l = Some a' → P a'.
Proof.
  intros Hstep. induction l as [|x l IH]; intros a a' Ha Hrun.
  - cbn in Hrun. congruence.
  - cbn in Hrun. destruct (f a x) as [a1|] eqn:Hf.
    + eapply IH; [|exact Hrun]. eauto.
    + rewrite foldl_bind_None in Hrun. discriminate.
Qed.

End option_folds.

Section hash_facts.

Variables K T : Type.
Variable std_equals : K → K → bool.
Variable Hash_code : K → Z.
Variable Hash_MIN_SIZE Hash_RATIO : Z.

Local Abbreviation Map := (UnorderedMultiMap.Map K T).
Local Abbreviation enough := (UnorderedMultiMap.enough_buckets K T Hash_MIN_SIZE).
Local Abbreviation constructHashGroup :=
  (UnorderedMultiMap.constructHashGroup K T Hash_MIN_SIZE).
Local Abbreviation handleInsert :=
  (UnorderedMultiMap.handleInsert K T Hash_code Hash_MIN_SIZE Hash_RATIO).
Local Abbreviation insertByPair :=
  (UnorderedMultiMap.insertByPair K T Hash_code Hash_MIN_SIZE Hash_RATIO).

Lemma constructHashGroup_length (size : Z) (m : Map) :
  length (UnorderedMultiMap.hashGroup (constructHashGroup size m))
  = Z.to_nat (Z.max size Hash_MIN_SIZE).
Proof.
  unfold UnorderedMultiMap.constructHashGroup. cbn.
  rewrite length_replicate. case_bool_decide; f_equal; lia.
Qed.

Lemma constructHashGroup_enough (size : Z) (m : Map) :
  enough (constructHashGroup size m).
Proof.
  unfold UnorderedMultiMap.enough_buckets.
  rewrite constructHashGroup_length. lia.
Qed.

Lemma enough_same_buckets (m m' : Map) :
  length (UnorderedMultiMap.hashGroup m') = length (UnorderedMultiMap.hashGroup m) →
  enough m → enough m'.
Proof. unfold UnorderedMultiMap.enough_buckets. intros ->. auto. Qed.

Lemma handleInsert_enough (fuel : nat) :
  ∀ (m : Map) (it : nat) (m' : Map),
    enough m → handleInsert fuel m it = Some m' → enough m'.
Proof.
  induction fuel as [|fuel IH]; intros m it m' Hm Hrun; [discriminate|].
  cbn [UnorderedMultiMap.handleInsert] in Hrun.
  match type of Hrun with
  | context [if ?c then ?a else ?b] =>
      assert (Hm1 : ∀ m1, (if c then a else b) = Some m1 → enough m1)
  end.
  { intros m1. case_bool_decide.
    - apply (foldl_bind_preserves (fun a x => handleInsert fuel a x) enough).
      + intros a x a' Ha Hs. exact (IH a x a' Ha Hs).
      + apply constructHashGroup_enough.
    - congruence. }
  match type of Hrun with
  | context [if ?c then ?a else ?b] => destruct (if c then a else b) as [m1|]
  end; [|discriminate].
  specialize (Hm1 m1 eq_refl). cbn in Hrun.
  destruct (UnorderedMultiMap.first K T m1 it) as [key|]; [|discriminate]. cbn in Hrun.
  destruct (UnorderedMultiMap.hashIndex K T Hash_code m1 key) as [i|]; [|discriminate].
  cbn in Hrun.
  destruct (UnorderedMultiMap.hashGroup m1 !! i) as [bucket|]; [|discriminate].
  cbn in Hrun. injection Hrun as <-.
  eapply enough_same_buckets; [|exact Hm1]. cbn. apply length_insert.
Qed.

(** Why the results on this class are stated for the calls that return:
    while the element count is below half of [MIN_SIZE], the sparsity test
    of [handleInsert] holds again after every rebuild, and the mutual calls
    of [handleInsert] and [reconstructHashGroup] never end, whatever the
    fuel. *)
Lemma handleInsert_never_returns_when_sparse (fuel : nat) :
  ∀ (m : Map) (it : nat),
    UnorderedMultiMap.data m ≠ [] →
    UnorderedMultiMap.size K T m * 2 < Hash_MIN_SIZE →
    UnorderedMultiMap.size K T m * 2
      < Z.of_nat (length (UnorderedMultiMap.hashGroup m)) →
    handleInsert fuel m it = None.
Proof.
  induction fuel as [|fuel IH]; intros m it Hdata Hmin Hsparse; [reflexivity|].
  cbn [UnorderedMultiMap.handleInsert].
  rewrite bool_decide_eq_true_2 by lia.
  destruct (UnorderedMultiMap.data m) as [|d ds] eqn:Hd; [congruence|].
  cbn [foldl mbind option_bind]. rewrite IH.
  - now rewrite foldl_bind_None.
  - cbn. rewrite Hd. discriminate.
  - unfold UnorderedMultiMap.size in *. cbn. exact Hmin.
  - pose proof (constructHashGroup_enough
                  (if bool_decide (-1 = -1)
                   then UnorderedMultiMap.size K T m * Hash_RATIO else -1) m) as Hen.
    unfold UnorderedMultiMap.enough_buckets in Hen.
    unfold UnorderedMultiMap.size in *.
    change (UnorderedMultiMap.data (constructHashGroup _ m)) with (UnorderedMultiMap.data m).
    lia.
Qed.

Lemma reconstructHashGroup_enough (fuel : nat) (size : Z) (m m' : Map) :
  UnorderedMultiMap.reconstructHashGroup K T Hash_code Hash_MIN_SIZE Hash_RATIO
    fuel size m = Some m' →
  enough m'.
Proof.
  unfold UnorderedMultiMap.reconstructHashGroup.
  apply (foldl_bind_preserves (fun a x => handleInsert fuel a x) enough).
  - intros a x a'. apply handleInsert_enough.
  - apply constructHashGroup_enough.
Qed.

Lemma insertByPair_enough (fuel : nat) (m : Map) (kv : K * T) r :
  enough m → insertByPair fuel m kv = Some r → enough (fst r).
Proof.
  intros Hm. unfold UnorderedMultiMap.insertByPair.
  destruct (handleInsert fuel _ _) as [m1|] eqn:Hins; [|discriminate].
  cbn. intros [= <-]. cbn.
  eapply handleInsert_enough; [|exact Hins]. exact Hm.
Qed.

Lemma super_insertByRange_enough (fuel : nat) (range : list (K * T)) (m m' : Map) :
  enough m →
  UnorderedMultiMap.super_insertByRange K T Hash_code Hash_MIN_SIZE Hash_RATIO
    fuel m range = Some m' →
  enough m'.
Proof.
  unfold UnorderedMultiMap.super_insertByRange.
  apply (foldl_bind_preserves (fun a kv => fst <$> insertByPair fuel a kv) enough).
  intros a kv a' Ha.
  destruct (insertByPair fuel a kv) as [r|] eqn:Hins; [|discriminate].
  cbn. intros [= <-]. eapply insertByPair_enough; eauto.
Qed.

Lemma handleErase_enough (m m' : Map) (it : nat) :
  enough m →
  UnorderedMultiMap.handleErase K T std_equals Hash_code m it = Some m' →
  enough m'.
Proof.
  intros Hm. unfold UnorderedMultiMap.handleErase.
  destruct (UnorderedMultiMap.first K T m it) as [key|]; [|discriminate]. cbn.
  destruct (UnorderedMultiMap.hashIndex K T Hash_code m key) as [i|]; [|discriminate].
  cbn. destruct (UnorderedMultiMap.hashGroup m !! i) as [bucket|]; [|discriminate].
  cbn. destruct (UnorderedMultiMap.erase_scan K T std_equals m key bucket);
    [|discriminate].
  cbn. intros [= <-]. eapply enough_same_buckets; [|exact Hm]. cbn. apply length_insert.
Qed.

Lemma perform_enough (fuel : nat) (m m' : Map) (op : UnorderedMultiMap.Operation K T) :
  enough m →
  UnorderedMultiMap.perform K T std_equals Hash_code Hash_MIN_SIZE Hash_RATIO
    fuel m op = Some m' →
  enough m'.
Proof.
  intros Hm. destruct op as [|range|kv|range|it]; cbn.
  - intros [= <-]. apply constructHashGroup_enough.
  - unfold UnorderedMultiMap.assign. apply super_insertByRange_enough.
    eapply enough_same_buckets; [|apply constructHashGroup_enough]. reflexivity.
  - destruct (insertByPair fuel m kv) as [r|] eqn:Hins; [|discriminate].
    cbn. intros [= <-]. eapply insertByPair_enough; eauto.
  - unfold UnorderedMultiMap.insertByRange. case_bool_decide.
    + destruct (UnorderedMultiMap.reconstructHashGroup _ _ _ _ _ _ _ _) as [m1|] eqn:Hre;
        [|discriminate].
      cbn. apply super_insertByRange_enough.
      eapply reconstructHashGroup_enough; exact Hre.
    + cbn. now apply super_insertByRange_enough.
  - unfold UnorderedMultiMap.erase. apply handleErase_enough.
    eapply enough_same_buckets; [|exact Hm]. reflexivity.
Qed.

Lemma constructor_enough (fuel : nat) (args : UnorderedMultiMap.ConstructorArgs K T)
    (m : Map) :
  UnorderedMultiMap.constructor K T Hash_code Hash_MIN_SIZE Hash_RATIO fuel args
    = Some m →
  enough m.
Proof.
  destruct args as [|items|range]; cbn.
  - intros [= <-]. apply constructHashGroup_enough.
  - apply super_insertByRange_enough, constructHashGroup_enough.
  - unfold UnorderedMultiMap.assign. apply super_insertByRange_enough.
    eapply enough_same_buckets; [|apply constructHashGroup_enough]. reflexivity.
Qed.

(** C9.  [constructHashGroup], the only place that builds the bucket
    table, builds [max(size, MIN_SIZE)] buckets; hence a map returned by
    the constructor and by any sequence of [clear], [assign], inserts and
    erases after it has at least [MIN_SIZE] buckets. *)
Theorem C9_bucket_count_at_least_MIN_SIZE
    (fuel : nat) (args : UnorderedMultiMap.ConstructorArgs K T)
    (ops : list (UnorderedMultiMap.Operation K T)) (m0 m : Map) :
  UnorderedMultiMap.constructor K T Hash_code Hash_MIN_SIZE Hash_RATIO fuel args
    = Some m0 →
  UnorderedMultiMap.perform_all K T std_equals Hash_code Hash_MIN_SIZE Hash_RATIO
    fuel m0 ops = Some m →
  Hash_MIN_SIZE <= Z.of_nat (length (UnorderedMultiMap.hashGroup m)) ∧
  (∀ size m1,
     length (UnorderedMultiMap.hashGroup (constructHashGroup size m1))
     = Z.to_nat (Z.max size Hash_MIN_SIZE) ∧
     Hash_MIN_SIZE
     <= Z.of_nat (length (UnorderedMultiMap.hashGroup (constructHashGroup size m1)))).
Proof.
  intros Hnew Hrun. split.
  - revert Hrun. unfold UnorderedMultiMap.perform_all.
    apply (foldl_bind_preserves
             (fun a op => UnorderedMultiMap.perform K T std_equals Hash_code
                            Hash_MIN_SIZE Hash_RATIO fuel a op) enough).
    + intros a op a'. apply perform_enough.
    + eapply constructor_enough; exact Hnew.
  - intros size m1. split; [apply constructHashGroup_length|].
    apply constructHashGroup_enough.
Qed.

(** C2.  [handleErase(it)] removes the first handle of the bucket whose key
    equals the key of [it], whichever element that handle refers to: when
    the bucket starts with the handle [h] of another element with an equal
    key, it is [h] that leaves the bucket and the handle of the erased
    element stays. *)
Theorem C2_handleErase_removes_first_equal_key
    (m : Map) (it h : nat) (rest : list nat) (i : nat) (key key' : K) :
  UnorderedMultiMap.first K T m it = Some key →
  UnorderedMultiMap.hashIndex K T Hash_code m key = Some i →
  UnorderedMultiMap.hashGroup m !! i = Some (h :: rest) →
  UnorderedMultiMap.first K T m h = Some key' →
  std_equals key key' = true →
  UnorderedMultiMap.handleErase K T std_equals Hash_code m it
  = Some (UnorderedMultiMap.mkMap (UnorderedMultiMap.nodes m) (UnorderedMultiMap.data m)
            (<[i := rest]> (UnorderedMultiMap.hashGroup m))) ∧
  <[i := rest]> (UnorderedMultiMap.hashGroup m) !! i = Some rest.
Proof.
  intros Hkey Hidx Hbucket Hkey' Heq. split.
  - unfold UnorderedMultiMap.handleErase.
    rewrite Hkey. cbn. rewrite Hidx. cbn. rewrite Hbucket. cbn.
    rewrite Hkey'. cbn. rewrite Heq. reflexivity.
  - apply list_lookup_insert_eq. eapply lookup_lt_Some. exact Hbucket.
Qed.

End hash_facts.

(** The constructor and three operations, with 2 and 1 for [MIN_SIZE] and
    [RATIO]: the table has two buckets at the end. *)
Lemma C9_bucket_count_at_least_MIN_SIZE_witness :
  UnorderedMultiMap.constructor Z Z (fun k => k) 2 1 10 (UnorderedMultiMap.NoArgs Z Z)
    = Some Instances.hash_empty ∧
  UnorderedMultiMap.perform_all Z Z Z.eqb (fun k => k) 2 1 10 Instances.hash_empty
    [UnorderedMultiMap.DoInsert Z Z (1, 100); UnorderedMultiMap.DoInsert Z Z (1, 200)]
    = Some Instances.hash_two_equal_keys ∧
  2 <= Z.of_nat (length (UnorderedMultiMap.hashGroup Instances.hash_two_equal_keys)).
Proof.
  split; [reflexivity|]. split; [reflexivity|].
  refine (proj1 (C9_bucket_count_at_least_MIN_SIZE Z Z Z.eqb (fun k => k) 2 1 10
            (UnorderedMultiMap.NoArgs Z Z)
            [UnorderedMultiMap.DoInsert Z Z (1, 100); UnorderedMultiMap.DoInsert Z Z (1, 200)]
            Instances.hash_empty Instances.hash_two_equal_keys _ _)); reflexivity.
Defined.

(** Elements 0 and 1 both have the key 1 and share a bucket; erasing
    element 1 takes the handle of element 0 out of the bucket. *)
Lemma C2_handleErase_removes_first_equal_key_witness :
  UnorderedMultiMap.hashGroup Instances.hash_second_unlinked !! 1%nat
  = Some [0%nat; 1%nat] ∧
  UnorderedMultiMap.handleErase Z Z Z.eqb (fun k => k) Instances.hash_second_unlinked 1%nat
  = Some (UnorderedMultiMap.mkMap [(1, 100); (1, 200)] [0%nat] [[]; [1%nat]]).
Proof.
  split; [reflexivity|].
  refine (proj1 (C2_handleErase_removes_first_equal_key Z Z Z.eqb (fun k => k)
            Instances.hash_second_unlinked 1%nat 0%nat [1%nat] 1%nat 1 1 _ _ _ _ _));
    reflexivity.
Defined.

(** The whole of [erase] on that map, and the [find] after it: the index
    answers with the erased node. *)
Example erase_second_of_equal_keys :
  UnorderedMultiMap.erase Z Z Z.eqb (fun k => k) Instances.hash_two_equal_keys 1%nat
  = Some (UnorderedMultiMap.mkMap [(1, 100); (1, 200)] [0%nat] [[]; [1%nat]]) ∧
  UnorderedMultiMap.find Z Z Z.eqb (fun k => k)
    (UnorderedMultiMap.mkMap [(1, 100); (1, 200)] [0%nat] [[]; [1%nat]]) 1
  = Some (UnorderedMultiMap.Pos 1%nat).
Proof. split; reflexivity. Qed.

(* ===================================================================== *)
(** * Facts about the descent and std.TreeMap *)
(* ===================================================================== *)

Section tree_facts.

Variables Key T : Type.
Variable std_less : Key → Key → bool.
Variable std_equals : Key → Key → bool.

(** [std.equals] is equality of keys and [std.less] a strict total order
    on them. *)
Hypothesis equals_spec : ∀ a b, std_equals a b = true ↔ a = b.
Hypothesis less_irrefl : ∀ a, std_less a a = false.
Hypothesis less_trans :
  ∀ a b c, std_less a b = true → std_less b c = true → std_less a c = true.
Hypothesis less_total : ∀ a b, std_less a b = true ∨ a = b ∨ std_less b a = true.

Local Abbreviation Entry := (TreeMap.Entry Key T).
Local Abbreviation Map := (TreeMap.Map Key T).
Local Abbreviation key := (@TreeMap.first Key T).
Local Abbreviation before k := (fun e : Entry => std_less (key e) k = true).
Local Abbreviation after k := (fun e : Entry => std_less k (key e) = true).
Local Abbreviation increasing :=
  (StronglySorted (fun a b : Entry => std_less (key a) (key b) = true)).
Local Abbreviation findByVal :=
  (XTree.findByVal (@TreeMap.first Key T) std_less std_equals).

Lemma less_asym a b : std_less a b = true → std_less b a = false.
Proof.
  intros Hab. destruct (std_less b a) eqn:Hba; [|reflexivity].
  rewrite <- (less_irrefl a). symmetry. now apply less_trans with b.
Qed.

Lemma not_less_not_equal a b :
  std_equals a b = false → std_less a b = false → std_less b a = true.
Proof.
  intros Hne Hnl. destruct (less_total a b) as [H|[H|H]].
  - congruence.
  - apply equals_spec in H. congruence.
  - exact H.
Qed.

Lemma increasing_node (l r : list Entry) (v : Entry) :
  increasing (l ++ v :: r) →
  increasing l ∧ increasing r ∧ Forall (before (key v)) l ∧ Forall (after (key v)) r.
Proof.
  rewrite StronglySorted_app, StronglySorted_cons. intros (Hlr & Hl & Hvr & Hr).
  repeat split; try assumption.
  apply Forall_forall. intros x Hx. apply Hlr; [exact Hx|]. apply elem_of_cons. now left.
Qed.

Lemma Forall_before_trans (l : list Entry) a b :
  Forall (before a) l → std_less a b = true → Forall (before b) l.
Proof. intros H Hab. eapply Forall_impl; [exact H|]. cbn. intros e He. eauto. Qed.

Lemma Forall_after_trans (l : list Entry) a b :
  Forall (after b) l → std_less a b = true → Forall (after a) l.
Proof. intros H Hab. eapply Forall_impl; [exact H|]. cbn. intros e He. eauto. Qed.

(** The descent returns a node that splits the in-order sequence: every
    key to its left goes before [k], every key to its right goes after. *)
Lemma findByVal_split (t : XTree.XTreeNode Entry) (k : Key) :
  increasing (XTree.inorder t) →
  match findByVal t k with
  | None => t = XTree.null
  | Some v => ∃ l1 l2, XTree.inorder t = l1 ++ v :: l2 ∧
                       Forall (before k) l1 ∧ Forall (after k) l2
  end.
Proof.
  induction t as [|l IHl v r IHr]; intros Hs; [reflexivity|].
  cbn [XTree.inorder] in Hs. destruct (increasing_node _ _ _ Hs) as (Hl & Hr & Hlv & Hvr).
  cbn [XTree.findByVal XTree.inorder].
  destruct (std_equals k (key v)) eqn:Heq.
  { apply equals_spec in Heq. subst k.
    exists (XTree.inorder l), (XTree.inorder r). now repeat split. }
  destruct (std_less k (key v)) eqn:Hlt.
  - destruct l as [|ll lv lr].
    + exists [], (XTree.inorder r). split; [reflexivity|]. split; [constructor|].
      eapply Forall_after_trans; eauto.
    + specialize (IHl Hl).
      destruct (findByVal (XTree.node ll lv lr) k) as [w|]; [|discriminate].
      destruct IHl as (l1 & l2 & Hin & H1 & H2).
      exists l1, (l2 ++ v :: XTree.inorder r). split.
      * rewrite Hin. now rewrite <- app_assoc.
      * split; [exact H1|]. apply Forall_app. split; [exact H2|].
        constructor; [exact Hlt|]. eapply Forall_after_trans; eauto.
  - assert (Hgt : std_less (key v) k = true).
    { now apply not_less_not_equal. }
    destruct r as [|rl rv rr].
    + exists (XTree.inorder l), []. split; [reflexivity|]. split; [|constructor].
      eapply Forall_before_trans; eauto.
    + specialize (IHr Hr).
      destruct (findByVal (XTree.node rl rv rr) k) as [w|]; [|discriminate].
      destruct IHr as (l1 & l2 & Hin & H1 & H2).
      exists (XTree.inorder l ++ v :: l1), l2. split.
      * rewrite Hin. now rewrite <- app_assoc.
      * split; [|exact H2]. apply Forall_app. split.
        { eapply Forall_before_trans; eauto. }
        constructor; [exact Hgt|exact H1].
Qed.

Local Abbreviation head_or_end l2 :=
  (match l2 with [] => @TreeMap.End Key T | e :: _ => TreeMap.Pos e end).

Lemma first_such_skip (p : Key → bool) (l1 l2 : list Entry) :
  Forall (fun e => p (key e) = false) l1 →
  TreeMap.first_such Key T p (l1 ++ l2) = TreeMap.first_such Key T p l2.
Proof.
  induction 1 as [|e l1 He _ IH]; [reflexivity|].
  cbn. now rewrite He.
Qed.

Lemma first_such_head (p : Key → bool) (l2 : list Entry) :
  Forall (fun e => p (key e) = true) l2 →
  TreeMap.first_such Key T p l2 = head_or_end l2.
Proof. destruct 1 as [|e l2 He _]; [reflexivity|]. cbn. now rewrite He. Qed.

Lemma next_in_middle (l1 l2 : list Entry) (v : Entry) :
  NoDup (TreeMap.id <$> (l1 ++ v :: l2)) →
  TreeMap.next_in Key T (TreeMap.id v) (l1 ++ v :: l2) = Some (head_or_end l2).
Proof.
  induction l1 as [|a l1 IH]; intros Hnd; cbn.
  - now rewrite bool_decide_eq_true_2.
  - cbn in Hnd. apply NoDup_cons in Hnd as [Ha Hnd].
    rewrite bool_decide_eq_false_2; [now apply IH|].
    intros Heq. apply Ha. rewrite Heq. apply list_elem_of_fmap_2.
    apply elem_of_app. right. apply elem_of_cons. now left.
Qed.

Lemma splice_before_middle (l1 l2 : list Entry) (v new : Entry) :
  NoDup (TreeMap.id <$> (l1 ++ v :: l2)) →
  TreeMap.splice_before Key T (TreeMap.id v) new (l1 ++ v :: l2)
  = Some (l1 ++ new :: v :: l2).
Proof.
  induction l1 as [|a l1 IH]; intros Hnd; cbn.
  - now rewrite bool_decide_eq_true_2.
  - cbn in Hnd. apply NoDup_cons in Hnd as [Ha Hnd].
    rewrite bool_decide_eq_false_2; [now rewrite IH|].
    intros Heq. apply Ha. rewrite Heq. apply list_elem_of_fmap_2.
    apply elem_of_app. right. apply elem_of_cons. now left.
Qed.

Lemma before_not_after k (l : list Entry) :
  Forall (before k) l → Forall (fun e => std_less k (key e) = false) l.
Proof. intros H. eapply Forall_impl; [exact H|]. cbn. intros e. apply less_asym. Qed.

Lemma after_not_before k (l : list Entry) :
  Forall (after k) l → Forall (fun e => std_less (key e) k = false) l.
Proof. intros H. eapply Forall_impl; [exact H|]. cbn. intros e. apply less_asym. Qed.

(** What [tree.find(key)] gives on a coherent map. *)
Lemma tree_find_split (m : Map) (k : Key) :
  TreeMap.coherent Key T std_less m →
  match TreeMap.tree_find Key T std_less std_equals m k with
  | None => TreeMap.data m = []
  | Some v => ∃ l1 l2, TreeMap.data m = l1 ++ v :: l2 ∧
                       Forall (before k) l1 ∧ Forall (after k) l2
  end.
Proof.
  intros (Hin & Hs & _). unfold TreeMap.tree_find.
  rewrite <- Hin in Hs. pose proof (findByVal_split (TreeMap.tree m) k Hs) as H.
  destruct (findByVal (TreeMap.tree m) k) as [v|].
  - now rewrite <- Hin.
  - rewrite <- Hin, H. reflexivity.
Qed.

Lemma lowerBound_correct (m : Map) (k : Key) :
  TreeMap.coherent Key T std_less m →
  TreeMap.lowerBound Key T std_less std_equals m k
  = Some (TreeMap.lowerBound_spec Key T std_less m k).
Proof.
  intros Hm. pose proof (tree_find_split m k Hm) as H.
  destruct Hm as (_ & _ & Hnd & _).
  unfold TreeMap.lowerBound, TreeMap.lowerBound_spec, TreeMap.next.
  destruct (TreeMap.tree_find Key T std_less std_equals m k) as [v|].
  - destruct H as (l1 & l2 & Hd & H1 & H2). rewrite Hd in Hnd |- *.
    rewrite first_such_skip
      by (eapply Forall_impl; [exact H1|]; cbn; intros e ->; reflexivity).
    cbn [TreeMap.first_such].
    destruct (std_less (key v) k) eqn:Hv; cbn [negb].
    + rewrite next_in_middle by exact Hnd. f_equal. symmetry.
      apply first_such_head.
      eapply Forall_impl; [exact (after_not_before k l2 H2)|]. cbn. intros e ->. reflexivity.
    + reflexivity.
  - now rewrite H.
Qed.

Lemma upperBound_correct (m : Map) (k : Key) :
  TreeMap.coherent Key T std_less m →
  TreeMap.upperBound Key T std_less std_equals m k
  = Some (TreeMap.upperBound_spec Key T std_less m k).
Proof.
  intros Hm. pose proof (tree_find_split m k Hm) as H.
  destruct Hm as (_ & _ & Hnd & _).
  unfold TreeMap.upperBound, TreeMap.upperBound_spec, TreeMap.next.
  destruct (TreeMap.tree_find Key T std_less std_equals m k) as [v|].
  - destruct H as (l1 & l2 & Hd & H1 & H2). rewrite Hd in Hnd |- *.
    rewrite first_such_skip by exact (before_not_after k l1 H1).
    cbn [TreeMap.first_such].
    destruct (std_equals (key v) k) eqn:Heq; cbn [negb andb].
    + apply equals_spec in Heq. rewrite <- Heq, less_irrefl.
      rewrite next_in_middle by exact Hnd. f_equal. symmetry.
      apply first_such_head. now rewrite Heq.
    + destruct (std_less (key v) k) eqn:Hv; cbn [negb].
      * rewrite (less_asym _ _ Hv).
        rewrite next_in_middle by exact Hnd. f_equal. symmetry.
        now apply first_such_head.
      * now rewrite (not_less_not_equal _ _ Heq Hv).
  - now rewrite H.
Qed.

Lemma equalRange_correct (m : Map) (k : Key) :
  TreeMap.coherent Key T std_less m →
  TreeMap.equalRange Key T std_less std_equals m k
  = Some (TreeMap.lowerBound_spec Key T std_less m k,
          TreeMap.upperBound_spec Key T std_less m k).
Proof.
  intros Hm. unfold TreeMap.equalRange.
  now rewrite lowerBound_correct, upperBound_correct.
Qed.

(** ** Insertion *)

Local Abbreviation insert_sorted := (TreeMap.insert_sorted Key T std_less).
Local Abbreviation tree_insert := (XTree.insert (@TreeMap.first Key T) std_less).

Lemma insert_sorted_left (new v : Entry) (l r : list Entry) :
  std_less (key new) (key v) = true →
  insert_sorted new (l ++ v :: r) = insert_sorted new l ++ v :: r.
Proof.
  intros Hlt. induction l as [|e l IH]; cbn.
  - now rewrite Hlt.
  - destruct (std_less (key new) (key e)); [reflexivity|]. now rewrite IH.
Qed.

Lemma insert_sorted_right (new : Entry) (l r : list Entry) :
  Forall (fun e => std_less (key new) (key e) = false) l →
  insert_sorted new (l ++ r) = l ++ insert_sorted new r.
Proof.
  induction 1 as [|e l He _ IH]; [reflexivity|].
  cbn. now rewrite He, IH.
Qed.

Lemma insert_sorted_split (new : Entry) (l1 l2 : list Entry) :
  Forall (before (key new)) l1 → Forall (after (key new)) l2 →
  insert_sorted new (l1 ++ l2) = l1 ++ new :: l2.
Proof.
  intros H1 H2. rewrite insert_sorted_right by now apply before_not_after.
  f_equal. destruct H2 as [|e l2 He _]; [reflexivity|]. cbn. now rewrite He.
Qed.

Lemma inorder_insert (t : XTree.XTreeNode Entry) (new : Entry) :
  increasing (XTree.inorder t) →
  XTree.inorder (tree_insert t new) = insert_sorted new (XTree.inorder t).
Proof.
  induction t as [|l IHl v r IHr]; intros Hs; [reflexivity|].
  cbn [XTree.inorder] in Hs. destruct (increasing_node _ _ _ Hs) as (Hl & Hr & Hlv & Hvr).
  cbn [XTree.insert XTree.inorder].
  destruct (std_less (key new) (key v)) eqn:Hlt; cbn [XTree.inorder].
  - rewrite IHl by exact Hl. now rewrite insert_sorted_left.
  - rewrite IHr by exact Hr. rewrite insert_sorted_right.
    + cbn. now rewrite Hlt.
    + eapply Forall_impl; [exact Hlv|]. cbn. intros e He.
      destruct (std_less (key new) (key e)) eqn:Hne; [|reflexivity].
      rewrite <- Hlt. symmetry. now apply less_trans with (key e).
Qed.

(** Putting a node with a fresh identity at its place in the order, in
    the element list and in the tree, keeps the map coherent. *)
Lemma coherent_insert (m : Map) (l1 l2 : list Entry) (k : Key) (v : T) :
  TreeMap.coherent Key T std_less m →
  TreeMap.data m = l1 ++ l2 →
  Forall (before k) l1 → Forall (after k) l2 →
  TreeMap.coherent Key T std_less
    (TreeMap.mkMap (l1 ++ TreeMap.mkEntry (TreeMap.created m) k v :: l2)
       (S (TreeMap.created m))
       (tree_insert (TreeMap.tree m) (TreeMap.mkEntry (TreeMap.created m) k v))).
Proof.
  intros (Hin & Hs & Hnd & Hid) Hd H1 H2.
  set (item := TreeMap.mkEntry (TreeMap.created m) k v).
  rewrite Hd in Hs, Hnd, Hid.
  apply StronglySorted_app in Hs as (H12 & Hs1 & Hs2).
  apply Forall_app in Hid as [Hid1 Hid2].
  unfold TreeMap.coherent. cbn [TreeMap.data TreeMap.tree TreeMap.created].
  split; [|split; [|split]].
  - rewrite inorder_insert by (rewrite Hin, Hd; apply StronglySorted_app; auto).
    rewrite Hin, Hd. now apply insert_sorted_split.
  - apply StronglySorted_app. split; [|split].
    + intros x1 x2 Hx1 Hx2. apply elem_of_cons in Hx2 as [->|Hx2].
      * cbn. now apply (proj1 (Forall_forall _ _) H1).
      * now apply H12.
    + exact Hs1.
    + apply StronglySorted_cons. split; [exact H2|exact Hs2].
  - rewrite fmap_app, fmap_cons. rewrite <- Permutation_middle.
    apply NoDup_cons. split; [|now rewrite <- fmap_app].
    rewrite <- fmap_app. intros Hin'. apply list_elem_of_fmap in Hin' as (e & He & Hin').
    assert ((TreeMap.id e < TreeMap.created m)%nat) as Hlt.
    { apply elem_of_app in Hin' as [Hin'|Hin'].
      - now apply (proj1 (Forall_forall _ _) Hid1).
      - now apply (proj1 (Forall_forall _ _) Hid2). }
    cbn in He. lia.
  - apply Forall_app. split; [|constructor].
    + eapply Forall_impl; [exact Hid1|]. cbn. lia.
    + cbn. lia.
    + eapply Forall_impl; [exact Hid2|]. cbn. lia.
Qed.

Lemma insertByPair_present (m : Map) (k : Key) (v : T) (e : Entry) :
  TreeMap.coherent Key T std_less m →
  e ∈ TreeMap.data m → key e = k →
  TreeMap.insertByPair Key T std_less std_equals m (k, v)
  = Some (m, (TreeMap.Pos e, false)).
Proof.
  intros Hm He Hk. pose proof (tree_find_split m k Hm) as H.
  unfold TreeMap.insertByPair. cbn [fst snd].
  destruct (TreeMap.tree_find Key T std_less std_equals m k) as [w|].
  - destruct H as (l1 & l2 & Hd & H1 & H2).
    assert (e = w) as ->.
    { rewrite Hd in He. apply elem_of_app in He as [He|He].
      - apply (proj1 (Forall_forall _ _) H1) in He. cbn in He.
        rewrite Hk, less_irrefl in He. discriminate.
      - apply elem_of_cons in He as [He|He]; [exact He|].
        apply (proj1 (Forall_forall _ _) H2) in He. cbn in He.
        rewrite Hk, less_irrefl in He. discriminate. }
    now rewrite (proj2 (equals_spec (key w) k) Hk).
  - rewrite H in He. now apply elem_of_nil in He.
Qed.

Lemma insertByPair_absent (m : Map) (k : Key) (v : T) :
  TreeMap.coherent Key T std_less m →
  (∀ e, e ∈ TreeMap.data m → key e ≠ k) →
  ∃ l1 l2,
    TreeMap.data m = l1 ++ l2 ∧
    Forall (before k) l1 ∧ Forall (after k) l2 ∧
    TreeMap.insertByPair Key T std_less std_equals m (k, v)
    = Some (TreeMap.mkMap (l1 ++ TreeMap.mkEntry (TreeMap.created m) k v :: l2)
              (S (TreeMap.created m))
              (tree_insert (TreeMap.tree m) (TreeMap.mkEntry (TreeMap.created m) k v)),
            (TreeMap.Pos (TreeMap.mkEntry (TreeMap.created m) k v), true)).
Proof.
  intros Hm Hfresh. pose proof (tree_find_split m k Hm) as H.
  destruct Hm as (_ & _ & Hnd & _).
  unfold TreeMap.insertByPair, TreeMap.insert, TreeMap.handleInsert, TreeMap.next.
  cbn [fst snd].
  destruct (TreeMap.tree_find Key T std_less std_equals m k) as [w|].
  - destruct H as (l1 & l2 & Hd & H1 & H2).
    assert (std_equals (key w) k = false) as Hne.
    { destruct (std_equals (key w) k) eqn:Heq; [|reflexivity].
      apply equals_spec in Heq. exfalso. apply (Hfresh w); [|exact Heq].
      rewrite Hd. apply elem_of_app. right. apply elem_of_cons. now left. }
    rewrite Hne. rewrite Hd in Hnd |- *.
    destruct (std_less (key w) k) eqn:Hw.
    + exists (l1 ++ [w]), l2. rewrite <- !app_assoc. cbn [app].
      split; [reflexivity|]. split; [|split; [exact H2|]].
      { apply Forall_app. split; [exact H1|]. now constructor. }
      rewrite next_in_middle by exact Hnd. cbn.
      destruct l2 as [|e l2].
      * cbn. now rewrite <- ?app_assoc.
      * replace (l1 ++ w :: e :: l2) with ((l1 ++ [w]) ++ e :: l2)
          by now rewrite <- app_assoc.
        rewrite splice_before_middle.
        { cbn. now rewrite <- ?app_assoc. }
        now rewrite <- app_assoc.
    + exists l1, (w :: l2). split; [reflexivity|]. split; [exact H1|]. split.
      { constructor; [|exact H2]. now apply not_less_not_equal. }
      cbn. now rewrite splice_before_middle.
  - exists [], []. rewrite H. repeat split; constructor.
Qed.

Lemma key_found_or_absent (m : Map) (k : Key) :
  TreeMap.coherent Key T std_less m →
  (∃ e, e ∈ TreeMap.data m ∧ key e = k) ∨ (∀ e, e ∈ TreeMap.data m → key e ≠ k).
Proof.
  intros Hm. pose proof (tree_find_split m k Hm) as H.
  destruct (TreeMap.tree_find Key T std_less std_equals m k) as [w|].
  - destruct H as (l1 & l2 & Hd & H1 & H2).
    destruct (std_equals (key w) k) eqn:Heq.
    + left. exists w. split; [|now apply equals_spec].
      rewrite Hd. apply elem_of_app. right. apply elem_of_cons. now left.
    + right. intros e He Hk. rewrite Hd in He.
      apply elem_of_app in He as [He|He].
      * apply (proj1 (Forall_forall _ _) H1) in He. cbn in He.
        rewrite Hk, less_irrefl in He. discriminate.
      * apply elem_of_cons in He as [->|He].
        { apply equals_spec in Hk. congruence. }
        apply (proj1 (Forall_forall _ _) H2) in He. cbn in He.
        rewrite Hk, less_irrefl in He. discriminate.
  - right. intros e He. rewrite H in He. now apply elem_of_nil in He.
Qed.

(** [insertByPair] always returns on a coherent map, and what it returns
    is coherent again: the maps built by inserting are all coherent. *)
Lemma insertByPair_coherent (m : Map) (kv : Key * T) :
  TreeMap.coherent Key T std_less m →
  ∃ r, TreeMap.insertByPair Key T std_less std_equals m kv = Some r ∧
       TreeMap.coherent Key T std_less (fst r).
Proof.
  intros Hm. destruct kv as [k v].
  destruct (key_found_or_absent m k Hm) as [(e & He & Hk)|Habs].
  - eexists. split; [now apply insertByPair_present with (e := e)|exact Hm].
  - destruct (insertByPair_absent m k v Hm Habs) as (l1 & l2 & Hd & H1 & H2 & Hrun).
    eexists. split; [exact Hrun|]. cbn [fst]. now apply coherent_insert.
Qed.

Lemma constructor_coherent : TreeMap.coherent Key T std_less (TreeMap.constructor Key T).
Proof. repeat split; constructor. Qed.

Lemma insert_all_coherent (kvs : list (Key * T)) (m : Map) :
  TreeMap.coherent Key T std_less m →
  ∃ m', TreeMap.insert_all Key T std_less std_equals m kvs = Some m' ∧
        TreeMap.coherent Key T std_less m'.
Proof.
  unfold TreeMap.insert_all. revert m.
  induction kvs as [|kv kvs IH]; intros m Hm; cbn.
  - eauto.
  - destruct (insertByPair_coherent m kv Hm) as (r & -> & Hr). cbn. now apply IH.
Qed.

End tree_facts.

Lemma Z_equals_spec (a b : Z) : (a =? b) = true ↔ a = b.
Proof. apply Z.eqb_eq. Qed.

Lemma Z_less_trans (a b c : Z) : (a <? b) = true → (b <? c) = true → (a <? c) = true.
Proof. rewrite !Z.ltb_lt. lia. Qed.

Lemma Z_less_total (a b : Z) : (a <? b) = true ∨ a = b ∨ (b <? a) = true.
Proof. rewrite !Z.ltb_lt. lia. Qed.

Lemma tree_5_3_8_1_coherent : TreeMap.coherent Z Z Z.ltb Instances.tree_5_3_8_1.
Proof.
  split; [reflexivity|]. split; [repeat constructor|]. split.
  - apply (bool_decide_unpack _). vm_compute. exact I.
  - repeat constructor; cbn; lia.
Qed.

(** Every map built by inserting into the empty map is of this kind. *)
Lemma insert_all_from_empty_coherent (kvs : list (Z * Z)) :
  ∃ m, TreeMap.insert_all Z Z Z.ltb Z.eqb (TreeMap.constructor Z Z) kvs = Some m ∧
       TreeMap.coherent Z Z Z.ltb m.
Proof.
  eapply insert_all_coherent;
    first [exact Z_equals_spec | exact Z.ltb_irrefl | exact Z_less_trans
          | exact Z_less_total | apply constructor_coherent].
Qed.

(** C3.  On a coherent unique-keyed tree map, under a strict total order
    of the keys: [insertByPair] with a key that an element [e] already
    has returns the map as it is with the position of [e] and [false];
    with a key no element has, it returns [true] with the position of one
    new node, which the element list holds between the keys that go
    before the new key and those that go after it, everything else in
    place, and the new map is coherent. *)
Theorem C3_insertByPair_unique_policy
    (Key T : Type) (std_less std_equals : Key → Key → bool)
    (equals_spec : ∀ a b, std_equals a b = true ↔ a = b)
    (less_irrefl : ∀ a, std_less a a = false)
    (less_trans : ∀ a b c, std_less a b = true → std_less b c = true →
                           std_less a c = true)
    (less_total : ∀ a b, std_less a b = true ∨ a = b ∨ std_less b a = true)
    (m : TreeMap.Map Key T) (k : Key) (v : T) :
  TreeMap.coherent Key T std_less m →
  (∀ e, e ∈ TreeMap.data m → TreeMap.first e = k →
        TreeMap.insertByPair Key T std_less std_equals m (k, v)
        = Some (m, (TreeMap.Pos e, false))) ∧
  ((∀ e, e ∈ TreeMap.data m → TreeMap.first e ≠ k) →
   ∃ l1 l2 m',
     TreeMap.data m = l1 ++ l2 ∧
     Forall (fun e => std_less (TreeMap.first e) k = true) l1 ∧
     Forall (fun e => std_less k (TreeMap.first e) = true) l2 ∧
     TreeMap.insertByPair Key T std_less std_equals m (k, v)
     = Some (m', (TreeMap.Pos (TreeMap.mkEntry (TreeMap.created m) k v), true)) ∧
     TreeMap.data m' = l1 ++ TreeMap.mkEntry (TreeMap.created m) k v :: l2 ∧
     length (TreeMap.data m') = S (length (TreeMap.data m)) ∧
     TreeMap.coherent Key T std_less m').
Proof.
  intros Hm. split.
  - intros e He Hk. now apply insertByPair_present.
  - intros Habs.
    edestruct (insertByPair_absent Key T std_less std_equals)
      with (m := m) (k := k) (v := v)
      as (l1 & l2 & Hd & H1 & H2 & Hrun); [eassumption..|].
    eexists l1, l2, _. split; [exact Hd|]. split; [exact H1|]. split; [exact H2|].
    split; [exact Hrun|]. split; [reflexivity|]. split.
    + cbn. rewrite Hd, !length_app. cbn. lia.
    + now apply coherent_insert.
Qed.

(** The map with keys 1, 3, 5, 8 already has the key 3. *)
Lemma C3_insertByPair_unique_policy_witness :
  TreeMap.coherent Z Z Z.ltb Instances.tree_5_3_8_1 ∧
  TreeMap.insertByPair Z Z Z.ltb Z.eqb Instances.tree_5_3_8_1 (3, 0)
  = Some (Instances.tree_5_3_8_1, (TreeMap.Pos (TreeMap.mkEntry 1%nat 3 30), false)).
Proof.
  split; [exact tree_5_3_8_1_coherent|].
  refine (proj1 (C3_insertByPair_unique_policy Z Z Z.ltb Z.eqb Z_equals_spec
                   Z.ltb_irrefl Z_less_trans Z_less_total Instances.tree_5_3_8_1 3 0
                   tree_5_3_8_1_coherent) (TreeMap.mkEntry 1%nat 3 30) _ _).
  - apply list_elem_of_In. unfold Instances.tree_5_3_8_1. cbn. auto.
  - reflexivity.
Defined.

(** C4.  On a coherent unique-keyed tree map, under a strict total order
    of the keys: [lowerBound(k)] is the first element whose key does not
    go before [k], [upperBound(k)] the first element whose key goes after
    [k], each [end()] when there is none, and [equalRange(k)] is the pair
    of the two.  After inserting 5, 3, 8, 1: [lowerBound(4)] is the element
    with key 5, [upperBound(5)] the one with key 8, and [equalRange(3)]
    runs from the element 3 to the element 5. *)
Theorem C4_lowerBound_upperBound_equalRange
    (Key T : Type) (std_less std_equals : Key → Key → bool)
    (equals_spec : ∀ a b, std_equals a b = true ↔ a = b)
    (less_irrefl : ∀ a, std_less a a = false)
    (less_trans : ∀ a b c, std_less a b = true → std_less b c = true →
                           std_less a c = true)
    (less_total : ∀ a b, std_less a b = true ∨ a = b ∨ std_less b a = true)
    (m : TreeMap.Map Key T) (k : Key) :
  TreeMap.coherent Key T std_less m →
  (TreeMap.lowerBound Key T std_less std_equals m k
   = Some (TreeMap.lowerBound_spec Key T std_less m k) ∧
   TreeMap.upperBound Key T std_less std_equals m k
   = Some (TreeMap.upperBound_spec Key T std_less m k) ∧
   TreeMap.equalRange Key T std_less std_equals m k
   = Some (TreeMap.lowerBound_spec Key T std_less m k,
           TreeMap.upperBound_spec Key T std_less m k)) ∧
  (Instances.tree_insert_all [5; 3; 8; 1] = Some Instances.tree_5_3_8_1 ∧
   TreeMap.lowerBound Z Z Z.ltb Z.eqb Instances.tree_5_3_8_1 4
   = Some (TreeMap.Pos (TreeMap.mkEntry 0%nat 5 50)) ∧
   TreeMap.upperBound Z Z Z.ltb Z.eqb Instances.tree_5_3_8_1 5
   = Some (TreeMap.Pos (TreeMap.mkEntry 2%nat 8 80)) ∧
   TreeMap.equalRange Z Z Z.ltb Z.eqb Instances.tree_5_3_8_1 3
   = Some (TreeMap.Pos (TreeMap.mkEntry 1%nat 3 30),
           TreeMap.Pos (TreeMap.mkEntry 0%nat 5 50))).
Proof.
  intros Hm. split.
  - split; [|split].
    + now apply lowerBound_correct.
    + now apply upperBound_correct.
    + now apply equalRange_correct.
  - repeat split; reflexivity.
Qed.

(** In the map with keys 1, 3, 5, 8 the bounds of 6 both are the element
    with key 8. *)
Lemma C4_lowerBound_upperBound_equalRange_witness :
  TreeMap.coherent Z Z Z.ltb Instances.tree_5_3_8_1 ∧
  TreeMap.lowerBound Z Z Z.ltb Z.eqb Instances.tree_5_3_8_1 6
  = Some (TreeMap.lowerBound_spec Z Z Z.ltb Instances.tree_5_3_8_1 6) ∧
  TreeMap.lowerBound_spec Z Z Z.ltb Instances.tree_5_3_8_1 6
  = TreeMap.Pos (TreeMap.mkEntry 2%nat 8 80).
Proof.
  split; [exact tree_5_3_8_1_coherent|]. split; [|reflexivity].
  exact (proj1 (proj1 (C4_lowerBound_upperBound_equalRange Z Z Z.ltb Z.eqb Z_equals_spec
                  Z.ltb_irrefl Z_less_trans Z_less_total Instances.tree_5_3_8_1 6
                  tree_5_3_8_1_coherent))).
Defined.

(* ===================================================================== *)
(** * More about std.TreeMap and MapIterator *)
(* ===================================================================== *)

Section tree_more.

Variables Key T : Type.
Variable std_less : Key → Key → bool.
Variable std_equals : Key → Key → bool.

Hypothesis equals_spec : ∀ a b, std_equals a b = true ↔ a = b.
Hypothesis less_irrefl : ∀ a, std_less a a = false.
Hypothesis less_trans :
  ∀ a b c, std_less a b = true → std_less b c = true → std_less a c = true.
Hypothesis less_total : ∀ a b, std_less a b = true ∨ a = b ∨ std_less b a = true.

Local Abbreviation Entry := (TreeMap.Entry Key T).
Local Abbreviation Map := (TreeMap.Map Key T).
Local Abbreviation key := (@TreeMap.first Key T).
Local Abbreviation coherent := (TreeMap.coherent Key T std_less).
Local Abbreviation tree_find := (TreeMap.tree_find Key T std_less std_equals).
Local Abbreviation find := (TreeMap.find Key T std_less std_equals).
Local Abbreviation insertByPair := (TreeMap.insertByPair Key T std_less std_equals).

Lemma split_unique_key (l1 l2 : list Entry) (w e : Entry) (k : Key) :
  Forall (fun x => std_less (key x) k = true) l1 →
  Forall (fun x => std_less k (key x) = true) l2 →
  e ∈ l1 ++ w :: l2 → key e = k → e = w.
Proof.
  intros H1 H2 He Hk. apply elem_of_app in He as [He|He].
  - apply (proj1 (Forall_forall _ _) H1) in He. cbn in He.
    rewrite Hk, less_irrefl in He. discriminate.
  - apply elem_of_cons in He as [He|He]; [exact He|].
    apply (proj1 (Forall_forall _ _) H2) in He. cbn in He.
    rewrite Hk, less_irrefl in He. discriminate.
Qed.

Lemma tree_find_present (m : Map) (k : Key) (e : Entry) :
  coherent m → e ∈ TreeMap.data m → key e = k → tree_find m k = Some e.
Proof.
  intros Hm He Hk.
  pose proof (tree_find_split Key T std_less std_equals) as H.
  specialize (H ltac:(assumption) ltac:(assumption) ltac:(assumption) m k Hm).
  destruct (tree_find m k) as [w|].
  - destruct H as (l1 & l2 & Hd & H1 & H2). f_equal. symmetry.
    rewrite Hd in He. eapply split_unique_key; eauto.
  - rewrite H in He. now apply elem_of_nil in He.
Qed.

Lemma tree_find_in_data (m : Map) (k : Key) (w : Entry) :
  coherent m → tree_find m k = Some w → w ∈ TreeMap.data m.
Proof.
  intros Hm Hw.
  pose proof (tree_find_split Key T std_less std_equals) as H.
  specialize (H ltac:(assumption) ltac:(assumption) ltac:(assumption) m k Hm).
  rewrite Hw in H. destruct H as (l1 & l2 & Hd & _). rewrite Hd.
  apply elem_of_app. right. apply elem_of_cons. now left.
Qed.

Lemma find_present (m : Map) (k : Key) (e : Entry) :
  coherent m → e ∈ TreeMap.data m → key e = k → find m k = TreeMap.Pos e.
Proof.
  intros Hm He Hk. unfold TreeMap.find.
  rewrite (tree_find_present m k e Hm He Hk).
  now rewrite (proj2 (equals_spec (key e) k) Hk).
Qed.

Lemma find_absent (m : Map) (k : Key) :
  coherent m → (∀ e, e ∈ TreeMap.data m → key e ≠ k) → find m k = TreeMap.End.
Proof.
  intros Hm Habs. unfold TreeMap.find.
  destruct (tree_find m k) as [w|] eqn:Hw; [|reflexivity].
  destruct (std_equals (key w) k) eqn:Heq; [|reflexivity].
  apply equals_spec in Heq. exfalso.
  eapply Habs; [|exact Heq]. eapply tree_find_in_data; eauto.
Qed.

(** X1.  On a coherent map [find(key)] is the position of the element
    that has the key, and [end()] exactly when no element has it. *)
Theorem X1_find_position_or_end (m : Map) (k : Key) :
  coherent m →
  (∀ e, e ∈ TreeMap.data m → key e = k → find m k = TreeMap.Pos e) ∧
  ((∀ e, e ∈ TreeMap.data m → key e ≠ k) → find m k = TreeMap.End) ∧
  (find m k = TreeMap.End → ∀ e, e ∈ TreeMap.data m → key e ≠ k).
Proof.
  intros Hm. split; [|split].
  - intros e. now apply find_present.
  - now apply find_absent.
  - intros Hend e He Hk. rewrite (find_present m k e Hm He Hk) in Hend. discriminate.
Qed.

(** What [insertByPair] returns on a coherent map, in one statement. *)
Lemma insertByPair_result (m : Map) (k : Key) (v : T) :
  coherent m →
  ∃ m' e b,
    insertByPair m (k, v) = Some (m', (TreeMap.Pos e, b)) ∧
    coherent m' ∧ e ∈ TreeMap.data m' ∧ key e = k ∧
    (b = false → m' = m ∧ e ∈ TreeMap.data m) ∧
    (b = true → TreeMap.second e = v ∧
                (∀ x, x ∈ TreeMap.data m → key x ≠ k) ∧
                ∀ x, x ∈ TreeMap.data m' ↔ x = e ∨ x ∈ TreeMap.data m).
Proof.
  intros Hm.
  destruct (key_found_or_absent Key T std_less std_equals) with (m := m) (k := k)
    as [(e & He & Hk)|Habs]; [assumption..| |].
  - exists m, e, false. split.
    { eapply insertByPair_present; eauto. }
    split; [exact Hm|]. split; [exact He|]. split; [exact Hk|].
    split; [intros _; split; [reflexivity|exact He]|discriminate].
  - edestruct (insertByPair_absent Key T std_less std_equals) with (m := m) (k := k) (v := v)
      as (l1 & l2 & Hd & H1 & H2 & Hrun); [eassumption..|].
    eexists _, _, true. split; [exact Hrun|]. split.
    { eapply coherent_insert; eauto. }
    cbn [TreeMap.data TreeMap.first TreeMap.second]. split.
    { apply elem_of_app. right. apply elem_of_cons. now left. }
    split; [reflexivity|]. split; [discriminate|]. intros _.
    split; [reflexivity|]. split; [exact Habs|].
    intros x. rewrite Hd, !elem_of_app, elem_of_cons. tauto.
Qed.

(** X2.  Insert, then look up: whatever [insertByPair(key, value)]
    returns, [find(key)] on the resulting map is the returned position,
    which is a real element with that key; when the flag is [true] the
    element holds [value]. *)
Theorem X2_find_after_insertByPair (m : Map) (k : Key) (v : T) :
  coherent m →
  ∃ m' e b,
    insertByPair m (k, v) = Some (m', (TreeMap.Pos e, b)) ∧
    find m' k = TreeMap.Pos e ∧ key e = k ∧
    (b = true → TreeMap.second e = v).
Proof.
  intros Hm.
  destruct (insertByPair_result m k v Hm)
    as (m' & e & b & Hrun & Hm' & He & Hk & _ & Htrue).
  exists m', e, b. split; [exact Hrun|]. split; [now apply find_present|].
  split; [exact Hk|]. intros Hb. now destruct (Htrue Hb).
Qed.

(** X3.  Inserting a key a second time changes nothing: the second call
    returns the map of the first call, the position of the first call and
    [false], whatever value it is given; the value stored first stays. *)
Theorem X3_second_insert_changes_nothing (m m1 : Map) (k : Key) (v v' : T)
    (it : TreeMap.MapIterator Key T) (b : bool) :
  coherent m →
  insertByPair m (k, v) = Some (m1, (it, b)) →
  insertByPair m1 (k, v') = Some (m1, (it, false)).
Proof.
  intros Hm Hrun.
  destruct (insertByPair_result m k v Hm)
    as (m' & e & b' & Hrun' & Hm' & He & Hk & _).
  rewrite Hrun in Hrun'. injection Hrun' as -> -> ->.
  eapply insertByPair_present; eauto.
Qed.

(** X4.  [equalRange(key)] on a coherent map: when no element has the
    key, both ends are the same position (an empty interval); when the
    element [e] has it, the interval starts at [e] and ends at the
    position right after [e]. *)
Theorem X4_equalRange_has_at_most_one_element (m : Map) (k : Key) :
  coherent m →
  ((∀ e, e ∈ TreeMap.data m → key e ≠ k) →
   ∃ it, TreeMap.equalRange Key T std_less std_equals m k = Some (it, it)) ∧
  (∀ e, e ∈ TreeMap.data m → key e = k →
   ∃ after, TreeMap.next Key T m (TreeMap.Pos e) = Some after ∧
            TreeMap.equalRange Key T std_less std_equals m k
            = Some (TreeMap.Pos e, after)).
Proof.
  intros Hm. split.
  - intros Habs.
    assert (TreeMap.lowerBound_spec Key T std_less m k
            = TreeMap.upperBound_spec Key T std_less m k) as Heq.
    { unfold TreeMap.lowerBound_spec, TreeMap.upperBound_spec.
      induction (TreeMap.data m) as [|a l IH]; [reflexivity|]. cbn.
      assert (key a ≠ k) as Ha by (apply Habs, elem_of_cons; now left).
      rewrite IH by (intros e He; apply Habs, elem_of_cons; now right).
      destruct (std_less (key a) k) eqn:Hak; cbn.
      - now rewrite (less_asym Key std_less less_irrefl less_trans _ _ Hak).
      - destruct (std_less k (key a)) eqn:Hka; [reflexivity|].
        destruct (less_total (key a) k) as [H|[H|H]]; congruence. }
    eexists. erewrite equalRange_correct by eassumption. now rewrite Heq.
  - intros e He Hk.
    unfold TreeMap.equalRange, TreeMap.lowerBound, TreeMap.upperBound.
    fold (tree_find m k). rewrite (tree_find_present m k e Hm He Hk).
    rewrite Hk, less_irrefl, (proj2 (equals_spec k k) eq_refl). cbn [negb andb].
    destruct Hm as (_ & _ & Hnd & _).
    apply list_elem_of_split in He as (l1 & l2 & Hd).
    unfold TreeMap.next. rewrite Hd in Hnd |- *.
    rewrite next_in_middle by exact Hnd. cbn. eauto.
Qed.

(** One more insertion adds its key to the keys of the map and no other. *)
Lemma insertByPair_keys (m m' : Map) (k : Key) (v : T) r :
  coherent m → insertByPair m (k, v) = Some (m', r) →
  coherent m' ∧
  ∀ k', (∃ e, e ∈ TreeMap.data m' ∧ key e = k')
        ↔ (∃ e, e ∈ TreeMap.data m ∧ key e = k') ∨ k' = k.
Proof.
  intros Hm Hrun.
  destruct (insertByPair_result m k v Hm)
    as (m1 & e & b & Hrun' & Hm1 & He & Hk & Hfalse & Htrue).
  rewrite Hrun in Hrun'. injection Hrun' as -> ->. split; [exact Hm1|].
  intros k'. destruct b.
  - destruct (Htrue eq_refl) as (_ & _ & Hdata). split.
    + intros (x & Hx & Hxk). apply Hdata in Hx as [->|Hx]; [right; congruence|].
      left. eauto.
    + intros [(x & Hx & Hxk)| ->].
      * exists x. split; [apply Hdata; now right|exact Hxk].
      * exists e. split; [exact He|exact Hk].
  - destruct (Hfalse eq_refl) as [-> He']. split; [eauto|].
    intros [H| ->]; [exact H|]. eauto.
Qed.

(** X5.  Inserting a sequence of pairs into a coherent map always
    returns; the result is coherent (its element list is strictly
    increasing in the keys) and its keys are the keys the map had
    together with the keys of the sequence. *)
Theorem X5_insert_all_keys (kvs : list (Key * T)) (m : Map) :
  coherent m →
  ∃ m', TreeMap.insert_all Key T std_less std_equals m kvs = Some m' ∧
        coherent m' ∧
        StronglySorted (fun a b => std_less (key a) (key b) = true) (TreeMap.data m') ∧
        ∀ k, (∃ e, e ∈ TreeMap.data m' ∧ key e = k)
             ↔ (∃ e, e ∈ TreeMap.data m ∧ key e = k) ∨ k ∈ kvs.*1.
Proof.
  unfold TreeMap.insert_all. revert m.
  induction kvs as [|[k v] kvs IH]; intros m Hm.
  - exists m. split; [reflexivity|]. split; [exact Hm|]. split; [apply Hm|].
    intros k. cbn. rewrite elem_of_nil. tauto.
  - destruct (insertByPair_result m k v Hm) as (m1 & e & b & Hrun & _).
    destruct (insertByPair_keys m m1 k v _ Hm Hrun) as [Hm1 Hkeys].
    destruct (IH m1 Hm1) as (m' & Hrun' & Hm' & Hs & Hk').
    exists m'. cbn [foldl mbind option_bind]. rewrite Hrun.
    cbn [fmap option_fmap option_map fst]. split; [exact Hrun'|].
    split; [exact Hm'|]. split; [exact Hs|].
    intros k0. rewrite Hk', Hkeys. cbn. rewrite elem_of_cons. tauto.
Qed.

(** ** MapIterator.advance *)

Lemma next_in_index (l : list Entry) :
  NoDup (TreeMap.id <$> l) →
  ∀ i e, l !! i = Some e →
    TreeMap.next_in Key T (TreeMap.id e) l
    = Some (match l !! S i with Some e' => TreeMap.Pos e' | None => TreeMap.End end).
Proof.
  induction l as [|a l IH]; intros Hnd i e Hi; [discriminate|].
  cbn in Hnd. apply NoDup_cons in Hnd as [Ha Hnd]. cbn [TreeMap.next_in].
  destruct i as [|i]; cbn in Hi.
  - injection Hi as ->. rewrite bool_decide_eq_true_2 by reflexivity.
    now destruct l.
  - rewrite bool_decide_eq_false_2.
    + now rewrite (IH Hnd i e Hi).
    + intros Heq. apply Ha. rewrite Heq. apply list_elem_of_fmap_2.
      eapply list_elem_of_lookup_2. exact Hi.
Qed.

Lemma prev_in_index (l : list Entry) :
  NoDup (TreeMap.id <$> l) →
  ∀ i e before, l !! i = Some e →
    TreeMap.prev_in Key T (TreeMap.id e) before l
    = Some (match i with
            | O => before
            | S j => match l !! j with
                     | Some e' => TreeMap.Pos e'
                     | None => TreeMap.End
                     end
            end).
Proof.
  induction l as [|a l IH]; intros Hnd i e before Hi; [discriminate|].
  cbn in Hnd. apply NoDup_cons in Hnd as [Ha Hnd]. cbn [TreeMap.prev_in].
  destruct i as [|i]; cbn in Hi.
  - injection Hi as ->. now rewrite bool_decide_eq_true_2 by reflexivity.
  - rewrite bool_decide_eq_false_2.
    + rewrite (IH Hnd i e _ Hi). now destruct i.
    + intros Heq. apply Ha. rewrite Heq. apply list_elem_of_fmap_2.
      eapply list_elem_of_lookup_2. exact Hi.
Qed.

Lemma advance_forward (m : Map) :
  NoDup (TreeMap.id <$> TreeMap.data m) →
  ∀ rounds i,
    TreeMap.advance_loop Key T (TreeMap.next Key T m) rounds (TreeMap.at_index Key T m i)
    = Some (TreeMap.at_index Key T m (i + rounds)).
Proof.
  intros Hnd. induction rounds as [|rounds IH]; intros i; cbn.
  - now rewrite Nat.add_0_r.
  - unfold TreeMap.at_index at 1 2.
    destruct (TreeMap.data m !! i) as [e|] eqn:Hi; cbn.
    + rewrite (next_in_index _ Hnd i e Hi). cbn.
      fold (TreeMap.at_index Key T m (S i)). rewrite IH. f_equal. f_equal. lia.
    + unfold TreeMap.at_index. rewrite (proj2 (lookup_ge_None _ _)); [reflexivity|].
      apply lookup_ge_None in Hi. lia.
Qed.

Lemma advance_backward_from_end (m : Map) (rounds : nat) :
  TreeMap.advance_loop Key T (TreeMap.prev Key T m) (S rounds) TreeMap.End
  = Some TreeMap.End.
Proof. reflexivity. Qed.

Lemma advance_backward (m : Map) :
  NoDup (TreeMap.id <$> TreeMap.data m) →
  ∀ rounds i, (i < length (TreeMap.data m))%nat →
    TreeMap.advance_loop Key T (TreeMap.prev Key T m) rounds (TreeMap.at_index Key T m i)
    = Some (if bool_decide (rounds ≤ i)%nat
            then TreeMap.at_index Key T m (i - rounds)
            else TreeMap.End).
Proof.
  intros Hnd. induction rounds as [|rounds IH]; intros i Hlt; cbn.
  - rewrite bool_decide_eq_true_2 by lia. now rewrite Nat.sub_0_r.
  - unfold TreeMap.at_index at 1 2.
    destruct (TreeMap.data m !! i) as [e|] eqn:Hi.
    2:{ apply lookup_ge_None in Hi. lia. }
    cbn. rewrite (prev_in_index _ Hnd i e _ Hi). cbn.
    destruct i as [|i].
    + rewrite bool_decide_eq_false_2 by lia. now destruct rounds.
    + fold (TreeMap.at_index Key T m i). rewrite IH by lia.
      repeat case_bool_decide; try lia; reflexivity.
Qed.

(** X6.  [advance(n)] from the element at place [i] of a map whose nodes
    are distinct: for [n ≥ 0] it is the position [i + n], which is
    [end()] as soon as that runs past the last element; for [n < 0] it is
    the position [i - |n|] while that exists and [end()] otherwise; and
    from [end()], stepping back also yields [end()]. *)
Theorem X6_advance_clamps_to_end (m : Map) (i : nat) (n : Z) :
  NoDup (TreeMap.id <$> TreeMap.data m) →
  (0 <= n →
   TreeMap.advance Key T m (TreeMap.at_index Key T m i) n
   = Some (TreeMap.at_index Key T m (i + Z.to_nat n))) ∧
  (n < 0 → (i < length (TreeMap.data m))%nat → (Z.to_nat (- n) ≤ i)%nat →
   TreeMap.advance Key T m (TreeMap.at_index Key T m i) n
   = Some (TreeMap.at_index Key T m (i - Z.to_nat (- n)))) ∧
  (n < 0 → (i < length (TreeMap.data m))%nat → (i < Z.to_nat (- n))%nat →
   TreeMap.advance Key T m (TreeMap.at_index Key T m i) n = Some TreeMap.End) ∧
  (n < 0 → TreeMap.advance Key T m TreeMap.End n = Some TreeMap.End).
Proof.
  intros Hnd. unfold TreeMap.advance. repeat split.
  - intros Hn. rewrite bool_decide_eq_true_2 by lia. now apply advance_forward.
  - intros Hn Hi Hle. rewrite bool_decide_eq_false_2 by lia.
    replace (n * -1) with (- n) by lia.
    rewrite advance_backward by assumption. now rewrite bool_decide_eq_true_2 by lia.
  - intros Hn Hi Hlt. rewrite bool_decide_eq_false_2 by lia.
    replace (n * -1) with (- n) by lia.
    rewrite advance_backward by assumption. now rewrite bool_decide_eq_false_2 by lia.
  - intros Hn. rewrite bool_decide_eq_false_2 by lia.
    destruct (Z.to_nat (n * -1)) as [|r] eqn:Hr; [lia|]. reflexivity.
Qed.

End tree_more.

Ltac Z_order :=
  first [ exact Z_equals_spec | exact Z.ltb_irrefl | exact Z_less_trans
        | exact Z_less_total | exact tree_5_3_8_1_coherent ].

(** In the map with keys 1, 3, 5, 8: [find(8)] is the element 8 and
    [find(4)] is [end()]. *)
Lemma X1_find_position_or_end_witness :
  TreeMap.coherent Z Z Z.ltb Instances.tree_5_3_8_1 ∧
  TreeMap.find Z Z Z.ltb Z.eqb Instances.tree_5_3_8_1 8
  = TreeMap.Pos (TreeMap.mkEntry 2%nat 8 80).
Proof.
  split; [exact tree_5_3_8_1_coherent|].
  edestruct (X1_find_position_or_end Z Z Z.ltb Z.eqb)
    with (m := Instances.tree_5_3_8_1) (k := 8) as (H & _); [Z_order..|].
  apply H; [|reflexivity].
  apply list_elem_of_In. unfold Instances.tree_5_3_8_1. cbn. auto.
Defined.

Lemma X2_find_after_insertByPair_witness :
  TreeMap.coherent Z Z Z.ltb Instances.tree_5_3_8_1 ∧
  ∃ m' e b,
    TreeMap.insertByPair Z Z Z.ltb Z.eqb Instances.tree_5_3_8_1 (4, 40)
    = Some (m', (TreeMap.Pos e, b)) ∧
    TreeMap.find Z Z Z.ltb Z.eqb m' 4 = TreeMap.Pos e ∧ TreeMap.first e = 4 ∧
    (b = true → TreeMap.second e = 40).
Proof.
  split; [exact tree_5_3_8_1_coherent|].
  eapply (X2_find_after_insertByPair Z Z Z.ltb Z.eqb); Z_order.
Defined.

Lemma X3_second_insert_changes_nothing_witness :
  ∃ m1 it,
    TreeMap.insertByPair Z Z Z.ltb Z.eqb Instances.tree_5_3_8_1 (4, 40)
    = Some (m1, (it, true)) ∧
    TreeMap.insertByPair Z Z Z.ltb Z.eqb m1 (4, 41) = Some (m1, (it, false)).
Proof.
  eexists _, _. split; [vm_compute; reflexivity|].
  eapply (X3_second_insert_changes_nothing Z Z Z.ltb Z.eqb)
    with (m := Instances.tree_5_3_8_1) (v := 40) (b := true);
    first [Z_order | vm_compute; reflexivity].
Defined.

Lemma X4_equalRange_has_at_most_one_element_witness :
  TreeMap.coherent Z Z Z.ltb Instances.tree_5_3_8_1 ∧
  ∃ it, TreeMap.equalRange Z Z Z.ltb Z.eqb Instances.tree_5_3_8_1 4 = Some (it, it).
Proof.
  split; [exact tree_5_3_8_1_coherent|].
  edestruct (X4_equalRange_has_at_most_one_element Z Z Z.ltb Z.eqb)
    with (m := Instances.tree_5_3_8_1) (k := 4) as (H & _); [Z_order..|].
  apply H. intros e He. apply list_elem_of_In in He.
  unfold Instances.tree_5_3_8_1 in He. cbn in He.
  destruct He as [<-|[<-|[<-|[<-|[]]]]]; cbn; lia.
Defined.

Lemma X5_insert_all_keys_witness :
  TreeMap.coherent Z Z Z.ltb (TreeMap.constructor Z Z) ∧
  ∃ m', TreeMap.insert_all Z Z Z.ltb Z.eqb (TreeMap.constructor Z Z) [(2, 0); (1, 0); (2, 5)]
        = Some m' ∧
        TreeMap.coherent Z Z Z.ltb m' ∧
        StronglySorted (fun a b => (TreeMap.first a <? TreeMap.first b) = true)
          (TreeMap.data m') ∧
        ∀ k, (∃ e, e ∈ TreeMap.data m' ∧ TreeMap.first e = k)
             ↔ (∃ e, e ∈ TreeMap.data (TreeMap.constructor Z Z) ∧ TreeMap.first e = k)
               ∨ k ∈ [(2, 0); (1, 0); (2, 5)].*1.
Proof.
  split; [apply constructor_coherent|].
  eapply (X5_insert_all_keys Z Z Z.ltb Z.eqb);
    first [Z_order | apply constructor_coherent].
Defined.

(** From the element at place 1 of the map with keys 1, 3, 5, 8:
    [advance(2)] is the element 8, [advance(5)] and [advance(-2)] are
    [end()]. *)
Lemma X6_advance_clamps_to_end_witness :
  NoDup (TreeMap.id <$> TreeMap.data Instances.tree_5_3_8_1) ∧
  TreeMap.advance Z Z Instances.tree_5_3_8_1
    (TreeMap.at_index Z Z Instances.tree_5_3_8_1 1) 5
  = Some (TreeMap.at_index Z Z Instances.tree_5_3_8_1 (1 + Z.to_nat 5)) ∧
  TreeMap.at_index Z Z Instances.tree_5_3_8_1 (1 + Z.to_nat 5) = TreeMap.End.
Proof.
  pose proof tree_5_3_8_1_coherent as (_ & _ & Hnd & _).
  split; [exact Hnd|]. split; [|reflexivity].
  refine (proj1 (X6_advance_clamps_to_end Z Z Instances.tree_5_3_8_1 1%nat 5 Hnd) _). lia.
Defined.

(* ===================================================================== *)
(** * Facts about AtomicTree.findByVal *)
(* ===================================================================== *)

Section atomic_tree_facts.

Variable T : Type.
Variable std_less : T → T → bool.
Variable std_equals : T → T → bool.

Hypothesis equals_spec : ∀ a b, std_equals a b = true ↔ a = b.
Hypothesis less_irrefl : ∀ a, std_less a a = false.
Hypothesis less_trans :
  ∀ a b c, std_less a b = true → std_less b c = true → std_less a c = true.
Hypothesis less_total : ∀ a b, std_less a b = true ∨ a = b ∨ std_less b a = true.

Local Abbreviation SetIterator := (AtomicTree.SetIterator T).
Local Abbreviation findByVal := (AtomicTree.findByVal T std_less std_equals).
Local Abbreviation ordered := (AtomicTree.ordered T std_less).
Local Abbreviation below val := (fun s : SetIterator => std_less (AtomicTree.value s) val = true).
Local Abbreviation above val := (fun s : SetIterator => std_less val (AtomicTree.value s) = true).

Lemma findByVal_null_iff (root : XTree.XTreeNode SetIterator) (val : T) :
  findByVal root val = None ↔ root = XTree.null.
Proof.
  unfold AtomicTree.findByVal. split; [|intros ->; reflexivity].
  induction root as [|l IHl v r IHr]; [reflexivity|]. cbn.
  destruct (std_equals val (AtomicTree.value v)); [discriminate|].
  destruct (std_less val (AtomicTree.value v)).
  - destruct l; [discriminate|]. intros H. now apply IHl in H.
  - destruct r; [discriminate|]. intros H. now apply IHr in H.
Qed.

Lemma findByVal_in_tree (root : XTree.XTreeNode SetIterator) (val : T) (w : SetIterator) :
  findByVal root val = Some w → w ∈ XTree.inorder root.
Proof.
  unfold AtomicTree.findByVal.
  induction root as [|l IHl v r IHr]; [discriminate|]. cbn.
  rewrite elem_of_app, elem_of_cons.
  destruct (std_equals val (AtomicTree.value v)); [intros [= ->]; auto|].
  destruct (std_less val (AtomicTree.value v)).
  - destruct l; [intros [= ->]; auto|]. intros H. left. now apply IHl.
  - destruct r; [intros [= ->]; auto|]. intros H. right. right. now apply IHr.
Qed.

Lemma ordered_node (l r : XTree.XTreeNode SetIterator) (v : SetIterator) :
  ordered (XTree.node l v r) →
  ordered l ∧ ordered r ∧
  Forall (below (AtomicTree.value v)) (XTree.inorder l) ∧
  Forall (above (AtomicTree.value v)) (XTree.inorder r).
Proof.
  unfold AtomicTree.ordered, AtomicTree.isLess. cbn [XTree.inorder].
  rewrite StronglySorted_app, StronglySorted_cons. intros (Hlr & Hl & Hvr & Hr).
  repeat split; try assumption.
  apply Forall_forall. intros x Hx. apply Hlr; [exact Hx|]. apply elem_of_cons. now left.
Qed.

(** On an ordered tree the descent stops at a node that splits the
    in-order sequence around [val]. *)
Lemma findByVal_splits (root : XTree.XTreeNode SetIterator) (val : T) :
  ordered root → root ≠ XTree.null →
  ∃ w l1 l2, findByVal root val = Some w ∧
             XTree.inorder root = l1 ++ w :: l2 ∧
             Forall (below val) l1 ∧ Forall (above val) l2.
Proof.
  unfold AtomicTree.findByVal.
  induction root as [|l IHl v r IHr]; intros Ho Hne; [congruence|]. clear Hne.
  destruct (ordered_node _ _ _ Ho) as (Hl & Hr & Hlv & Hvr).
  cbn [XTree.findByVal XTree.inorder].
  destruct (std_equals val (AtomicTree.value v)) eqn:Heq.
  { apply equals_spec in Heq. subst val.
    exists v, (XTree.inorder l), (XTree.inorder r). now repeat split. }
  destruct (std_less val (AtomicTree.value v)) eqn:Hlt.
  - assert (Forall (above val) (XTree.inorder r)) as Hr'.
    { eapply Forall_impl; [exact Hvr|]. cbn. intros s Hs. eauto. }
    destruct l as [|ll lv lr].
    + exists v, [], (XTree.inorder r). split; [reflexivity|]. split; [reflexivity|].
      split; [constructor|exact Hr'].
    + destruct (IHl Hl ltac:(discriminate)) as (w & l1 & l2 & Hw & Hin & H1 & H2).
      rewrite Hw. exists w, l1, (l2 ++ v :: XTree.inorder r). split; [reflexivity|].
      split; [rewrite Hin; now rewrite <- app_assoc|]. split; [exact H1|].
      apply Forall_app. split; [exact H2|]. now constructor.
  - assert (std_less (AtomicTree.value v) val = true) as Hgt.
    { destruct (less_total val (AtomicTree.value v)) as [H|[H|H]]; [congruence| |exact H].
      apply equals_spec in H. congruence. }
    assert (Forall (below val) (XTree.inorder l)) as Hl'.
    { eapply Forall_impl; [exact Hlv|]. cbn. intros s Hs. eauto. }
    destruct r as [|rl rv rr].
    + exists v, (XTree.inorder l), []. split; [reflexivity|]. split; [reflexivity|].
      split; [exact Hl'|constructor].
    + destruct (IHr Hr ltac:(discriminate)) as (w & l1 & l2 & Hw & Hin & H1 & H2).
      rewrite Hw. exists w, (XTree.inorder l ++ v :: l1), l2. split; [reflexivity|].
      split; [rewrite Hin; now rewrite <- app_assoc|]. split; [|exact H2].
      apply Forall_app. split; [exact Hl'|]. now constructor.
Qed.

(** X7.  [findByVal(val)] returns [null] only for the empty tree, and
    otherwise a node of the tree.  On a tree ordered by [isLess] it
    returns the node holding [val] when there is one; when there is none
    it returns a neighbour of [val]: everything in order before the node
    is less than [val] and everything after it is greater. *)
Theorem X7_findByVal_match_or_neighbour
    (root : XTree.XTreeNode SetIterator) (val : T) :
  ordered root →
  (findByVal root val = None ↔ root = XTree.null) ∧
  (∀ w, findByVal root val = Some w → w ∈ XTree.inorder root) ∧
  (∀ s, s ∈ XTree.inorder root → AtomicTree.value s = val →
        findByVal root val = Some s) ∧
  (root ≠ XTree.null →
   ∃ w l1 l2, findByVal root val = Some w ∧
              XTree.inorder root = l1 ++ w :: l2 ∧
              Forall (below val) l1 ∧ Forall (above val) l2).
Proof.
  intros Ho. split; [apply findByVal_null_iff|]. split; [apply findByVal_in_tree|].
  split; [|now apply findByVal_splits].
  intros s Hs Hv.
  assert (root ≠ XTree.null) as Hne by (intros ->; now apply elem_of_nil in Hs).
  destruct (findByVal_splits root val Ho Hne) as (w & l1 & l2 & Hw & Hin & H1 & H2).
  rewrite Hw. f_equal. rewrite Hin in Hs.
  apply elem_of_app in Hs as [Hs|Hs].
  - apply (proj1 (Forall_forall _ _) H1) in Hs. cbn in Hs.
    rewrite Hv, less_irrefl in Hs. discriminate.
  - apply elem_of_cons in Hs as [Hs|Hs]; [now symmetry|].
    apply (proj1 (Forall_forall _ _) H2) in Hs. cbn in Hs.
    rewrite Hv, less_irrefl in Hs. discriminate.
Qed.

End atomic_tree_facts.

(** The tree with 3 at the root, 1 to its left and 5 to its right:
    looking for 4 ends at the node 5, its neighbour above. *)
Lemma X7_findByVal_match_or_neighbour_witness :
  AtomicTree.ordered Z Z.ltb Instances.atomic_1_3_5 ∧
  ∃ w l1 l2,
    AtomicTree.findByVal Z Z.ltb Z.eqb Instances.atomic_1_3_5 4 = Some w ∧
    XTree.inorder Instances.atomic_1_3_5 = l1 ++ w :: l2 ∧
    Forall (fun s => (AtomicTree.value s <? 4) = true) l1 ∧
    Forall (fun s => (4 <? AtomicTree.value s) = true) l2.
Proof.
  assert (AtomicTree.ordered Z Z.ltb Instances.atomic_1_3_5) as Ho
    by (unfold AtomicTree.ordered; cbn; repeat constructor).
  split; [exact Ho|].
  edestruct (X7_findByVal_match_or_neighbour Z Z.ltb Z.eqb)
    with (root := Instances.atomic_1_3_5) (val := 4) as (_ & _ & _ & H);
    [first [Z_order | exact Ho]..|].
  apply H. discriminate.
Defined.

(* ===================================================================== *)
(** * More about std.UnorderedMultiMap *)
(* ===================================================================== *)

Section hash_more.

Variables K T : Type.
Variable std_equals : K → K → bool.
Variable Hash_code : K → Z.
Variable Hash_MIN_SIZE Hash_RATIO : Z.

Local Abbreviation Map := (UnorderedMultiMap.Map K T).
Local Abbreviation first := (UnorderedMultiMap.first K T).
Local Abbreviation hashIndex := (UnorderedMultiMap.hashIndex K T Hash_code).
Local Abbreviation find := (UnorderedMultiMap.find K T std_equals Hash_code).
Local Abbreviation valid := (UnorderedMultiMap.handles_valid K T).
Local Abbreviation handleInsert :=
  (UnorderedMultiMap.handleInsert K T Hash_code Hash_MIN_SIZE Hash_RATIO).
Local Abbreviation insertByPair :=
  (UnorderedMultiMap.insertByPair K T Hash_code Hash_MIN_SIZE Hash_RATIO).

Lemma find_scan_sound (m : Map) (key : K) (bucket : list nat) (h : nat) :
  UnorderedMultiMap.find_scan K T std_equals m key bucket
    = Some (UnorderedMultiMap.Pos h) →
  h ∈ bucket ∧ ∃ k, first m h = Some k ∧ std_equals k key = true.
Proof.
  induction bucket as [|a bucket IH]; cbn; [discriminate|].
  destruct (first m a) as [k|] eqn:Hk; cbn; [|discriminate].
  destruct (std_equals k key) eqn:Heq.
  - intros [= <-]. split; [apply elem_of_cons; now left|eauto].
  - intros H. destruct (IH H) as [Hin Hkey]. split; [|exact Hkey].
    apply elem_of_cons. now right.
Qed.

(** X8.  Whatever the state of the table, a position [find(key)] returns
    is a handle kept in the bucket of [key] whose key [std.equals] [key];
    and the bucket index is below the bucket count. *)
Theorem X8_find_returns_an_equal_key (m : Map) (key : K) (h : nat) :
  find m key = Some (UnorderedMultiMap.Pos h) →
  ∃ i bucket k,
    hashIndex m key = Some i ∧ (i < length (UnorderedMultiMap.hashGroup m))%nat ∧
    UnorderedMultiMap.hashGroup m !! i = Some bucket ∧ h ∈ bucket ∧
    first m h = Some k ∧ std_equals k key = true.
Proof.
  unfold UnorderedMultiMap.find.
  destruct (hashIndex m key) as [i|] eqn:Hi; cbn; [|discriminate].
  destruct (UnorderedMultiMap.hashGroup m !! i) as [bucket|] eqn:Hb; cbn; [|discriminate].
  intros Hscan. apply find_scan_sound in Hscan as (Hin & k & Hk & Heq).
  exists i, bucket, k. split; [reflexivity|].
  split; [eapply lookup_lt_Some; exact Hb|]. auto.
Qed.

(** X9.  [hashIndex] is an index of the bucket table whenever it is
    defined, and it is defined, as the hash code modulo the bucket count,
    for every key with a non-negative hash code once there is a bucket. *)
Theorem X9_hashIndex_within_bucket_count (m : Map) (key : K) :
  (∀ i, hashIndex m key = Some i →
        (i < length (UnorderedMultiMap.hashGroup m))%nat) ∧
  (0 <= Hash_code key → UnorderedMultiMap.hashGroup m ≠ [] →
   ∃ i, hashIndex m key = Some i ∧
        Z.of_nat i = Hash_code key mod Z.of_nat (length (UnorderedMultiMap.hashGroup m))).
Proof.
  unfold UnorderedMultiMap.hashIndex. split.
  - intros i. case_bool_decide as Hn; [discriminate|].
    case_bool_decide as Hi; [|discriminate]. intros [= <-].
    pose proof (Z.rem_bound_abs (Hash_code key)
                  (Z.of_nat (length (UnorderedMultiMap.hashGroup m))) Hn). lia.
  - intros Hc Hne.
    assert (0 < Z.of_nat (length (UnorderedMultiMap.hashGroup m))) as Hpos.
    { destruct (UnorderedMultiMap.hashGroup m); [congruence|cbn; lia]. }
    rewrite bool_decide_eq_false_2 by lia.
    rewrite Z.rem_mod_nonneg by lia.
    pose proof (Z.mod_pos_bound (Hash_code key) _ Hpos).
    rewrite bool_decide_eq_true_2 by lia. eexists. split; [reflexivity|lia].
Qed.

Lemma valid_first (m : Map) (h : nat) :
  (h < length (UnorderedMultiMap.nodes m))%nat → ∃ k, first m h = Some k.
Proof.
  intros Hlt. unfold UnorderedMultiMap.first.
  destruct (lookup_lt_is_Some_2 _ _ Hlt) as [kv ->]. cbn. eauto.
Qed.

Lemma find_scan_finds (m : Map) (key : K) (bucket : list nat) (it : nat) :
  Forall (fun id => (id < length (UnorderedMultiMap.nodes m))%nat) bucket →
  it ∈ bucket → first m it = Some key → std_equals key key = true →
  ∃ h, UnorderedMultiMap.find_scan K T std_equals m key bucket
       = Some (UnorderedMultiMap.Pos h).
Proof.
  intros Hv Hin Hk Hrefl. induction bucket as [|a bucket IH]; [now apply elem_of_nil in Hin|].
  apply Forall_cons in Hv as [Ha Hv]. cbn.
  destruct (valid_first m a Ha) as [k Hka]. rewrite Hka. cbn.
  destruct (std_equals k key) eqn:Heq; [eauto|].
  apply IH; [exact Hv|]. apply elem_of_cons in Hin as [->|Hin]; [|exact Hin].
  congruence.
Qed.

(** What [handleInsert] leaves when it returns: the same nodes and
    elements, valid handles, and [it] in the bucket of its key. *)
Lemma handleInsert_registers (fuel : nat) :
  ∀ (m m' : Map) (it : nat),
    valid m → (it < length (UnorderedMultiMap.nodes m))%nat →
    handleInsert fuel m it = Some m' →
    valid m' ∧
    UnorderedMultiMap.nodes m' = UnorderedMultiMap.nodes m ∧
    UnorderedMultiMap.data m' = UnorderedMultiMap.data m ∧
    ∃ key i bucket,
      first m it = Some key ∧ hashIndex m' key = Some i ∧
      UnorderedMultiMap.hashGroup m' !! i = Some bucket ∧ it ∈ bucket.
Proof.
  induction fuel as [|fuel IH]; intros m m' it Hm Hit Hrun; [discriminate|].
  cbn [UnorderedMultiMap.handleInsert] in Hrun.
  match type of Hrun with
  | context [if ?c then ?a else ?b] =>
      assert (Hm1 : ∀ m1, (if c then a else b) = Some m1 →
                valid m1 ∧ UnorderedMultiMap.nodes m1 = UnorderedMultiMap.nodes m ∧
                UnorderedMultiMap.data m1 = UnorderedMultiMap.data m)
  end.
  { intros m1. case_bool_decide; [|intros [= <-]; auto].
    set (m0 := UnorderedMultiMap.constructHashGroup K T Hash_MIN_SIZE _ m).
    assert (valid m0 ∧ UnorderedMultiMap.nodes m0 = UnorderedMultiMap.nodes m ∧
            UnorderedMultiMap.data m0 = UnorderedMultiMap.data m) as H0.
    { split; [|split; reflexivity]. split; [apply Hm|].
      cbn. apply Forall_replicate. constructor. }
    assert (Hfold : ∀ (ds : list nat) (m0 m1 : Map),
              Forall (fun id => (id < length (UnorderedMultiMap.nodes m))%nat) ds →
              valid m0 ∧ UnorderedMultiMap.nodes m0 = UnorderedMultiMap.nodes m ∧
                UnorderedMultiMap.data m0 = UnorderedMultiMap.data m →
              foldl (fun acc it' => acc ≫= fun m' => handleInsert fuel m' it')
                    (Some m0) ds = Some m1 →
              valid m1 ∧ UnorderedMultiMap.nodes m1 = UnorderedMultiMap.nodes m ∧
                UnorderedMultiMap.data m1 = UnorderedMultiMap.data m); [|].
    2:{ apply Hfold; [apply Hm|exact H0]. }
    clear - IH. induction ds as [|d ds IHds]; intros m0 m1 Hdata H0 Hrun.
    - cbn in Hrun. injection Hrun as <-. exact H0.
    - cbn [foldl mbind option_bind] in Hrun.
      apply Forall_cons in Hdata as [Hd Hds].
      destruct (handleInsert fuel m0 d) as [m2|] eqn:H2.
      + destruct H0 as (Hv0 & Hn0 & Hd0).
        destruct (IH m0 m2 d Hv0 ltac:(rewrite Hn0; exact Hd) H2) as (Hv2 & Hn2 & Hd2 & _).
        apply (IHds m2 m1 Hds); [|exact Hrun].
        split; [exact Hv2|]. split; congruence.
      + rewrite foldl_bind_None in Hrun. discriminate. }
  match type of Hrun with
  | context [if ?c then ?a else ?b] => destruct (if c then a else b) as [m1|]
  end; [|discriminate].
  destruct (Hm1 m1 eq_refl) as (Hv1 & Hn1 & Hd1). cbn in Hrun.
  destruct (first m1 it) as [key|] eqn:Hkey; [|discriminate]. cbn in Hrun.
  destruct (hashIndex m1 key) as [i|] eqn:Hi; [|discriminate]. cbn in Hrun.
  destruct (UnorderedMultiMap.hashGroup m1 !! i) as [bucket|] eqn:Hb; [|discriminate].
  cbn in Hrun. injection Hrun as <-. cbn.
  pose proof (lookup_lt_Some _ _ _ Hb) as Hlt.
  split; [|split; [exact Hn1|split; [exact Hd1|]]].
  - destruct Hv1 as [Hvd Hvb]. split; [exact Hvd|]. cbn.
    apply Forall_insert; [exact Hvb|]. apply Forall_app. split.
    + eapply Forall_lookup_1 in Hvb; eauto.
    + constructor; [|constructor]. now rewrite Hn1.
  - exists key, i, (bucket ++ [it]). split.
    { unfold UnorderedMultiMap.first in *. now rewrite <- Hn1. }
    split.
    { unfold UnorderedMultiMap.hashIndex in *. cbn. now rewrite length_insert. }
    split; [now apply list_lookup_insert_eq|].
    apply elem_of_app. right. apply elem_of_cons. now left.
Qed.

(** X10.  Insert, then look up: when [insertByPair(key, value)] returns
    on a map whose handles are valid, [find(key)] on the result is not
    [end()]: it is an element whose key [std.equals] [key]. *)
Theorem X10_find_after_insertByPair
    (fuel : nat) (m m' : Map) (key : K) (v : T) (it : UnorderedMultiMap.MapIterator) :
  std_equals key key = true →
  valid m →
  insertByPair fuel m (key, v) = Some (m', it) →
  valid m' ∧
  ∃ h k, find m' key = Some (UnorderedMultiMap.Pos h) ∧
         first m' h = Some k ∧ std_equals k key = true.
Proof.
  intros Hrefl [Hvd Hvb]. unfold UnorderedMultiMap.insertByPair.
  destruct (handleInsert fuel _ _) as [m1|] eqn:Hins; [|discriminate].
  cbn. intros [= <- <-].
  apply handleInsert_registers in Hins
    as (Hv1 & Hn1 & Hd1 & key' & i & bucket & Hkey & Hi & Hb & Hin).
  - split; [exact Hv1|].
    assert (key' = key) as ->.
    { unfold UnorderedMultiMap.first in Hkey. cbn in Hkey.
      rewrite list_lookup_middle in Hkey by reflexivity. cbn in Hkey. congruence. }
    assert (first m1 (length (UnorderedMultiMap.nodes m)) = Some key) as Hkey1.
    { unfold UnorderedMultiMap.first in *. now rewrite Hn1. }
    destruct (find_scan_finds m1 key bucket (length (UnorderedMultiMap.nodes m)))
      as [h Hscan]; try assumption.
    { destruct Hv1 as [_ Hvb1]. eapply Forall_lookup_1 in Hvb1; eauto. }
    exists h. apply find_scan_sound in Hscan as Hs. destruct Hs as (_ & k & Hk & Heq).
    exists k. split; [|auto].
    unfold UnorderedMultiMap.find. rewrite Hi. cbn. rewrite Hb. cbn. exact Hscan.
  - split; cbn.
    + apply Forall_app. split.
      * eapply Forall_impl; [exact Hvd|]. cbn. intros x Hx. rewrite length_app. lia.
      * constructor; [|constructor]. rewrite length_app. cbn. lia.
    + eapply Forall_impl; [exact Hvb|]. cbn. intros b Hbk.
      eapply Forall_impl; [exact Hbk|]. cbn. intros x Hx. rewrite length_app. lia.
  - cbn. rewrite length_app. cbn. lia.
Qed.

Lemma erase_scan_first_match (m : Map) (key : K) (l1 l2 : list nat) (it : nat) :
  Forall (fun h => ∃ k, first m h = Some k ∧ std_equals key k = false) l1 →
  first m it = Some key → std_equals key key = true →
  UnorderedMultiMap.erase_scan K T std_equals m key (l1 ++ it :: l2) = Some (l1 ++ l2).
Proof.
  intros H1 Hk Hrefl. induction H1 as [|a l1 (k & Hka & Hne) _ IH]; cbn.
  - now rewrite Hk; cbn; rewrite Hrefl.
  - rewrite Hka. cbn. rewrite Hne, IH. reflexivity.
Qed.

(** X11.  When no handle before [it] in its bucket has an equal key (as
    when the keys of the map are all different), [handleErase(it)] takes
    exactly the handle [it] out of the bucket and leaves every other
    bucket and the order of the rest as they were. *)
Theorem X11_handleErase_removes_it_when_keys_differ
    (m : Map) (it i : nat) (key : K) (l1 l2 : list nat) :
  std_equals key key = true →
  first m it = Some key →
  hashIndex m key = Some i →
  UnorderedMultiMap.hashGroup m !! i = Some (l1 ++ it :: l2) →
  Forall (fun h => ∃ k, first m h = Some k ∧ std_equals key k = false) l1 →
  UnorderedMultiMap.handleErase K T std_equals Hash_code m it
  = Some (UnorderedMultiMap.mkMap (UnorderedMultiMap.nodes m) (UnorderedMultiMap.data m)
            (<[i := l1 ++ l2]> (UnorderedMultiMap.hashGroup m))).
Proof.
  intros Hrefl Hk Hi Hb H1. unfold UnorderedMultiMap.handleErase.
  rewrite Hk. cbn. rewrite Hi. cbn. rewrite Hb. cbn.
  now rewrite erase_scan_first_match.
Qed.

(** X12.  While a map that has at least [MIN_SIZE] buckets would, with
    one more element, still hold fewer than half of [MIN_SIZE] elements,
    [insertByPair] gives no result, however deep the mutual calls of
    [handleInsert] and [reconstructHashGroup] are allowed to go: the
    rebuilt table is again too sparse for the test of [handleInsert]. *)
Theorem X12_insertByPair_gives_no_result_while_sparse
    (fuel : nat) (m : Map) (kv : K * T) :
  UnorderedMultiMap.enough_buckets K T Hash_MIN_SIZE m →
  (UnorderedMultiMap.size K T m + 1) * 2 < Hash_MIN_SIZE →
  insertByPair fuel m kv = None.
Proof.
  intros Hen Hsparse. unfold UnorderedMultiMap.insertByPair.
  rewrite (handleInsert_never_returns_when_sparse K T Hash_code Hash_MIN_SIZE Hash_RATIO);
    [reflexivity| | |].
  - cbn. now destruct (UnorderedMultiMap.data m).
  - unfold UnorderedMultiMap.size in *. cbn. rewrite length_app. cbn. lia.
  - unfold UnorderedMultiMap.size, UnorderedMultiMap.enough_buckets in *. cbn.
    rewrite length_app. cbn. lia.
Qed.

End hash_more.

Lemma X8_find_returns_an_equal_key_witness :
  UnorderedMultiMap.find Z Z Z.eqb (fun k => k) Instances.hash_keys_1_3 3
    = Some (UnorderedMultiMap.Pos 1%nat) ∧
  ∃ i bucket k,
    UnorderedMultiMap.hashIndex Z Z (fun k => k) Instances.hash_keys_1_3 3 = Some i ∧
    (i < length (UnorderedMultiMap.hashGroup Instances.hash_keys_1_3))%nat ∧
    UnorderedMultiMap.hashGroup Instances.hash_keys_1_3 !! i = Some bucket ∧
    1%nat ∈ bucket ∧
    UnorderedMultiMap.first Z Z Instances.hash_keys_1_3 1%nat = Some k ∧
    (k =? 3) = true.
Proof.
  split; [reflexivity|].
  apply (X8_find_returns_an_equal_key Z Z Z.eqb (fun k => k)). reflexivity.
Defined.

Lemma X9_hashIndex_within_bucket_count_witness :
  0 <= 3 ∧ UnorderedMultiMap.hashGroup Instances.hash_keys_1_3 ≠ [] ∧
  ∃ i, UnorderedMultiMap.hashIndex Z Z (fun k => k) Instances.hash_keys_1_3 3 = Some i ∧
       Z.of_nat i
       = 3 mod Z.of_nat (length (UnorderedMultiMap.hashGroup Instances.hash_keys_1_3)).
Proof.
  split; [lia|]. split; [discriminate|].
  apply (proj2 (X9_hashIndex_within_bucket_count Z Z (fun k => k)
                  Instances.hash_keys_1_3 3)); [lia|discriminate].
Defined.

(** With 2 and 1 for [MIN_SIZE] and [RATIO], the first insert into the
    empty map returns, and the key is found afterwards. *)
Lemma X10_find_after_insertByPair_witness :
  ∃ m',
    UnorderedMultiMap.insertByPair Z Z (fun k => k) 2 1 10 Instances.hash_empty (1, 100)
    = Some (m', UnorderedMultiMap.Pos 0%nat) ∧
    UnorderedMultiMap.handles_valid Z Z m' ∧
    ∃ h k, UnorderedMultiMap.find Z Z Z.eqb (fun k => k) m' 1
           = Some (UnorderedMultiMap.Pos h) ∧
           UnorderedMultiMap.first Z Z m' h = Some k ∧ (k =? 1) = true.
Proof.
  eexists. split; [vm_compute; reflexivity|].
  eapply (X10_find_after_insertByPair Z Z Z.eqb (fun k => k) 2 1 10
            Instances.hash_empty _ 1 100).
  - reflexivity.
  - split; cbn; repeat constructor.
  - vm_compute. reflexivity.
Defined.

(** Elements 0 and 1 have the keys 1 and 3 and share a bucket: erasing
    element 1 takes its own handle out. *)
Lemma X11_handleErase_removes_it_when_keys_differ_witness :
  UnorderedMultiMap.hashGroup Instances.hash_keys_1_3 !! 1%nat = Some ([0%nat] ++ 1%nat :: []) ∧
  UnorderedMultiMap.handleErase Z Z Z.eqb (fun k => k) Instances.hash_keys_1_3 1%nat
  = Some (UnorderedMultiMap.mkMap [(1, 100); (3, 300)] [0%nat; 1%nat] [[]; [0%nat]]).
Proof.
  split; [reflexivity|].
  refine (X11_handleErase_removes_it_when_keys_differ Z Z Z.eqb (fun k => k)
            Instances.hash_keys_1_3 1%nat 1%nat 3 [0%nat] [] _ _ _ _ _);
    try reflexivity.
  constructor; [|constructor]. exists 1. split; reflexivity.
Defined.

(** With 10 for [MIN_SIZE], the first insert into the empty map gives no
    result within 50 nested calls. *)
Lemma X12_insertByPair_gives_no_result_while_sparse_witness :
  UnorderedMultiMap.enough_buckets Z Z 10 Instances.hash_empty_10 ∧
  (UnorderedMultiMap.size Z Z Instances.hash_empty_10 + 1) * 2 < 10 ∧
  UnorderedMultiMap.insertByPair Z Z (fun k => k) 10 1 50 Instances.hash_empty_10 (1, 100)
  = None.
Proof.
  assert (UnorderedMultiMap.enough_buckets Z Z 10 Instances.hash_empty_10) as Hen
    by (unfold UnorderedMultiMap.enough_buckets; cbn; lia).
  assert ((UnorderedMultiMap.size Z Z Instances.hash_empty_10 + 1) * 2 < 10) as Hsp
    by (unfold UnorderedMultiMap.size; cbn; lia).
  split; [exact Hen|]. split; [exact Hsp|].
  exact (X12_insertByPair_gives_no_result_while_sparse Z Z (fun k => k) 10 1 50
           Instances.hash_empty_10 (1, 100) Hen Hsp).
Defined.

(** * More on List *)

(** The operations of List on well-formed lists: [list_at h this e rs xs]
    says that in the heap [h] the list [this] is the circular chain of the
    sentinel [e] and the nodes [rs] holding [xs]. *)

Section list_more.

Variable T : Type.
Variable null : T.

Local Abbreviation Heap := (StdList.Heap T).
Local Abbreviation seg := (StdList.seg T).
Local Abbreviation list_at := (StdList.list_at T null).

Lemma run_prev (h : Heap) (r : StdList.ref) (n : StdList.ListIterator T) :
  StdList.iterators h !! r = Some n →
  StdList.prev T (Some r) h = StdList.Ret (StdList.prev_ n) h.
Proof.
  intros Hn. unfold StdList.prev, StdList.getIt, StdList.bind, StdList.deref.
  cbn. unfold StdList.ret. now rewrite Hn.
Qed.

Lemma run_value (h : Heap) (r : StdList.ref) (n : StdList.ListIterator T) :
  StdList.iterators h !! r = Some n →
  StdList.value T (Some r) h = StdList.Ret (StdList.value_ n) h.
Proof.
  intros Hn. unfold StdList.value, StdList.getIt, StdList.bind, StdList.deref.
  cbn. unfold StdList.ret. now rewrite Hn.
Qed.

Lemma run_equals (h : Heap) (r : StdList.ref) (obj : option StdList.ref) :
  StdList.equals T (Some r) obj h = StdList.Ret (bool_decide (Some r = obj)) h.
Proof. reflexivity. Qed.

Lemma run_empty (h : Heap) this l :
  StdList.containers h !! this = Some l →
  StdList.empty T this h = StdList.Ret (bool_decide (StdList.size_ l = Some 0)) h.
Proof.
  intros H. unfold StdList.empty.
  now rewrite (run_bind T _ _ _ _ _ (run_size T h this l H)).
Qed.

Lemma bind_assoc {A B C} (m : StdList.M T A) (k1 : A → StdList.M T B)
    (k2 : B → StdList.M T C) h :
  StdList.bind (StdList.bind m k1) k2 h
  = StdList.bind m (λ x, StdList.bind (k1 x) k2) h.
Proof. unfold StdList.bind. now destruct (m h). Qed.

(** ** Segments *)

Lemma seg_length (h : Heap) this p rs xs q :
  seg h this p rs xs q → length rs = length xs.
Proof.
  revert p xs. induction rs as [|r rs IH]; intros p [|x xs]; cbn; try tauto.
  intros [_ H]. f_equal. eauto.
Qed.

Lemma seg_lookup (h : Heap) this p rs xs q r :
  seg h this p rs xs q → r ∈ rs →
  ∃ n, StdList.iterators h !! r = Some n ∧ StdList.source_ n = this.
Proof.
  revert p xs. induction rs as [|a rs IH]; intros p xs Hs Hr;
    [now apply elem_of_nil in Hr|].
  destruct xs as [|x xs]; [destruct Hs|]. destruct Hs as [Ha Hs].
  apply elem_of_cons in Hr as [->|Hr]; [eauto|]. eauto.
Qed.

Lemma seg_lt (h : Heap) this p rs xs q r :
  seg h this p rs xs q → r ∈ rs → (r < length (StdList.iterators h))%nat.
Proof.
  intros Hs Hr. destruct (seg_lookup _ _ _ _ _ _ _ Hs Hr) as (n & Hn & _).
  eapply lookup_lt_Some; eauto.
Qed.

Lemma seg_frame (h h' : Heap) this p rs xs q :
  seg h this p rs xs q →
  (∀ r, r ∈ rs → StdList.iterators h' !! r = StdList.iterators h !! r) →
  seg h' this p rs xs q.
Proof.
  revert p xs. induction rs as [|a rs IH]; intros p [|x xs]; cbn; try tauto.
  intros [Ha Hs] Hf. split.
  - rewrite Hf; [exact Ha|]. apply elem_of_cons. now left.
  - apply IH; [exact Hs|]. intros r Hr. apply Hf. apply elem_of_cons. now right.
Qed.

Lemma last_cons_default (r p : StdList.ref) (rs : list StdList.ref) :
  default p (last (r :: rs)) = default r (last rs).
Proof. rewrite last_cons. now destruct (last rs). Qed.

Lemma seg_snoc (h h' : Heap) this p rs xs q n0 v :
  seg h this p rs xs q → NoDup rs →
  (∀ r, r ∈ rs → r ≠ default p (last rs) →
        StdList.iterators h' !! r = StdList.iterators h !! r) →
  (∀ n, default p (last rs) ∈ rs →
        StdList.iterators h !! default p (last rs) = Some n →
        StdList.iterators h' !! default p (last rs)
        = Some (StdList.mkIt (StdList.source_ n) (StdList.prev_ n) (Some n0)
                  (StdList.value_ n))) →
  StdList.iterators h' !! n0
    = Some (StdList.mkIt this (Some (default p (last rs))) (Some q) v) →
  seg h' this p (rs ++ [n0]) (xs ++ [v]) q.
Proof.
  revert p xs. induction rs as [|r rs IH]; intros p [|x xs]; cbn [StdList.seg]; try tauto.
  - intros _ _ _ _ Hn0. cbn. split; [exact Hn0|exact I].
  - intros [Hr Hs] Hnd Hframe Hlast Hn0.
    apply NoDup_cons in Hnd as [Hr' Hnd].
    rewrite last_cons_default in Hframe, Hlast, Hn0.
    cbn [app StdList.seg]. destruct rs as [|r2 rs].
    + cbn in *. destruct xs; [|tauto]. split; [|split; [exact Hn0|exact I]].
      rewrite (Hlast _ ltac:(apply elem_of_cons; now left) Hr). reflexivity.
    + split.
      * rewrite Hframe; [exact Hr|apply elem_of_cons; now left|].
        intros Heq. apply Hr'. rewrite Heq.
        destruct (last (r2 :: rs)) as [y|] eqn:Hy; cbn.
        -- eapply last_Some_elem_of. exact Hy.
        -- apply last_None in Hy. discriminate.
      * apply IH; try assumption.
        -- intros r' Hr1 Hne. apply Hframe; [apply elem_of_cons; now right|exact Hne].
        -- intros n Hin. apply Hlast. apply elem_of_cons. now right.
Qed.


Ltac heap_simpl :=
  cbn [StdList.iterators StdList.containers StdList.begin_ StdList.end_
       StdList.size_ StdList.prev_ StdList.next_ StdList.value_ StdList.source_
       default from_option id].

Ltac length_simpl :=
  repeat first [rewrite length_insert | rewrite length_app]; cbn [length].

Ltac lookup_rw :=
  heap_simpl; length_simpl;
  repeat first
    [ rewrite list_lookup_insert_eq by (length_simpl; lia)
    | rewrite list_lookup_insert_ne by (first [lia | congruence])
    | rewrite lookup_app_l by (length_simpl; lia)
    | rewrite list_lookup_middle by (length_simpl; lia) ].

Ltac lookup_solver := lookup_rw; first [eassumption | reflexivity].

Ltac run_step :=
  erewrite run_bind;
  [| first [ apply run_putIt; lookup_solver
           | apply run_putList; lookup_solver
           | apply run_begin; lookup_solver
           | apply run_end; lookup_solver
           | apply run_size; lookup_solver
           | apply run_empty; lookup_solver
           | apply run_prev; lookup_solver
           | apply next_at; lookup_solver
           | apply run_value; lookup_solver
           | apply run_equals
           | apply get_source_at; lookup_solver
           | reflexivity ] ];
  heap_simpl.

Lemma clear_list_at (h : Heap) this l :
  StdList.containers h !! this = Some l →
  ∃ h', StdList.clear T null this h = StdList.Ret tt h' ∧
        list_at h' this (length (StdList.iterators h)) [] [] ∧
        length (StdList.iterators h') = S (length (StdList.iterators h)) ∧
        (∀ r, (r < length (StdList.iterators h))%nat →
              StdList.iterators h' !! r = StdList.iterators h !! r) ∧
        (∀ j, j ≠ this → StdList.containers h' !! j = StdList.containers h !! j) ∧
        length (StdList.containers h') = length (StdList.containers h).
Proof.
  intros Hl. pose proof (lookup_lt_Some _ _ _ Hl) as Hthis.
  unfold StdList.clear, StdList.setPrev, StdList.setNext, StdList.set_begin,
    StdList.set_end, StdList.set_size.
  run_step. run_step. run_step. run_step. run_step.
  erewrite run_putList by lookup_solver. heap_simpl.
  eexists. split; [reflexivity|]. split; [|split; [|split; [|split]]].
  - split; [lookup_solver|]. split; [lookup_solver|]. split; [exact I|].
    apply NoDup_singleton.
  - heap_simpl. length_simpl. lia.
  - intros r Hr. heap_simpl. now lookup_solver.
  - intros j Hj. heap_simpl. now rewrite !list_lookup_insert_ne by congruence.
  - heap_simpl. now length_simpl.
Qed.


Lemma list_at_lt (h : Heap) this e rs xs r :
  list_at h this e rs xs → r ∈ e :: rs → (r < length (StdList.iterators h))%nat.
Proof.
  intros (_ & He & Hs & _) Hr. apply elem_of_cons in Hr as [->|Hr].
  - eapply lookup_lt_Some; eauto.
  - eapply seg_lt; eauto.
Qed.

Lemma NoDup_snoc_fresh (h : Heap) this e rs xs :
  list_at h this e rs xs → NoDup (e :: rs ++ [length (StdList.iterators h)]).
Proof.
  intros Hl. pose proof Hl as (_ & _ & _ & Hnd).
  change (e :: rs ++ [length (StdList.iterators h)])
    with ((e :: rs) ++ [length (StdList.iterators h)]).
  apply NoDup_app. split; [exact Hnd|]. split; [|apply NoDup_singleton].
  intros r Hr Hin. apply list_elem_of_singleton in Hin.
  pose proof (list_at_lt _ _ _ _ _ _ Hl Hr). lia.
Qed.

Lemma push_back_list_at (h : Heap) this e rs xs v :
  list_at h this e rs xs →
  ∃ h', StdList.push_back T this v h = StdList.Ret tt h' ∧
        list_at h' this e (rs ++ [length (StdList.iterators h)]) (xs ++ [v]) ∧
        length (StdList.iterators h') = S (length (StdList.iterators h)) ∧
        (∀ r, (r < length (StdList.iterators h))%nat → r ∉ e :: rs →
              StdList.iterators h' !! r = StdList.iterators h !! r) ∧
        (∀ j, j ≠ this → StdList.containers h' !! j = StdList.containers h !! j) ∧
        length (StdList.containers h') = length (StdList.containers h).
Proof.
  intros Hl. pose proof (NoDup_snoc_fresh _ _ _ _ _ Hl) as Hnd'.
  pose proof Hl as (Hc & He & Hs & Hnd).
  pose proof (lookup_lt_Some _ _ _ Hc) as Hthis.
  pose proof (lookup_lt_Some _ _ _ He) as Hlt.
  pose proof (seg_length _ _ _ _ _ _ Hs) as Hlen.
  unfold StdList.push_back, StdList.setPrev, StdList.setNext, StdList.set_begin,
    StdList.add_size.
  destruct (last rs) as [l|] eqn:Hlast.
  - (* a last real node [l] *)
    assert (l ∈ rs) as Hin by (eapply last_Some_elem_of; eauto).
    destruct (seg_lookup _ _ _ _ _ _ _ Hs Hin) as (nl & Hnl & _).
    pose proof (lookup_lt_Some _ _ _ Hnl) as Hllt.
    assert (l ≠ e) as Hle.
    { intros ->. apply NoDup_cons in Hnd as [Hne _]. contradiction. }
    assert (rs ≠ []) as Hrs by (intros ->; discriminate).
    cbn [default from_option id] in He.
    run_step. run_step. run_step. run_step. run_step. run_step. run_step.
    rewrite bool_decide_eq_false_2.
    2:{ intros [= H0]. destruct rs; [congruence|]. destruct xs; cbn in *; lia. }
    run_step. erewrite run_putList by lookup_solver. heap_simpl.
    eexists. split; [reflexivity|]. split; [|split; [|split; [|split]]].
    + split; [|split; [|split]].
      * lookup_rw. destruct rs; [congruence|].
        cbn. do 3 f_equal. lia.
      * heap_simpl. rewrite last_snoc. cbn [default from_option id].
        rewrite list_lookup_insert_eq by (length_simpl; lia).
        destruct rs; [congruence|]. reflexivity.
      * eapply seg_snoc; [exact Hs|now apply NoDup_cons in Hnd| | |].
        -- intros r Hr Hne. rewrite Hlast in Hne. cbn in Hne. heap_simpl.
           assert (r ≠ e).
           { intros ->. apply NoDup_cons in Hnd as [Hne' _]. contradiction. }
           pose proof (seg_lt _ _ _ _ _ _ _ Hs Hr).
           now lookup_solver.
        -- rewrite Hlast. cbn [default from_option id]. intros n _ Hn. heap_simpl.
           rewrite Hnl in Hn. injection Hn as <-. now lookup_solver.
        -- rewrite Hlast. cbn [default from_option id]. heap_simpl. now lookup_solver.
      * exact Hnd'.
    + heap_simpl. length_simpl. lia.
    + intros r Hr Hnotin. heap_simpl.
      assert (r ≠ e) by (intros ->; apply Hnotin, elem_of_cons; now left).
      assert (r ≠ l) by (intros ->; apply Hnotin, elem_of_cons; now right).
      now lookup_solver.
    + intros j Hj. heap_simpl. now rewrite !list_lookup_insert_ne by congruence.
    + heap_simpl. length_simpl. lia.
  - (* the list is empty *)
    apply last_None in Hlast. subst rs. destruct xs; [|discriminate].
    cbn [default from_option id head last] in *.
    run_step. run_step. run_step. run_step. run_step. run_step. run_step.
    rewrite bool_decide_eq_true_2 by reflexivity.
    rewrite bind_assoc. run_step. run_step. erewrite run_putList by lookup_solver. heap_simpl.
    eexists. split; [reflexivity|]. split; [|split; [|split; [|split]]].
    + split; [|split; [|split]].
      * heap_simpl. now lookup_solver.
      * heap_simpl. now lookup_solver.
      * cbn. split; [|exact I]. now lookup_solver.
      * exact Hnd'.
    + heap_simpl. length_simpl. lia.
    + intros r Hr Hnotin. heap_simpl.
      assert (r ≠ e) by (intros ->; apply Hnotin, elem_of_cons; now left).
      now lookup_solver.
    + intros j Hj. heap_simpl. now rewrite !list_lookup_insert_ne by congruence.
    + heap_simpl. length_simpl. lia.
Qed.

(** ** Walking a list *)

Lemma walk_seg (h : Heap) this p rs xs q fuel :
  seg h this p rs xs q → q ∉ rs → (length rs < fuel)%nat →
  StdList.vector_of_range T fuel (Some (default q (head rs))) (Some q) h
  = StdList.Ret xs h.
Proof.
  revert p xs fuel. induction rs as [|r rs IH]; intros p xs fuel Hs Hq Hf.
  - destruct xs; [|destruct Hs]. destruct fuel as [|fuel]; [cbn in Hf; lia|].
    cbn [StdList.vector_of_range head default from_option id].
    erewrite run_bind by apply run_equals.
    rewrite bool_decide_eq_true_2 by reflexivity. reflexivity.
  - destruct xs as [|x xs]; [destruct Hs|]. destruct Hs as [Hr Hs].
    destruct fuel as [|fuel]; [cbn in Hf; lia|].
    cbn [StdList.vector_of_range head default from_option id].
    erewrite run_bind by apply run_equals.
    rewrite bool_decide_eq_false_2.
    2:{ intros [= ->]. apply Hq. apply elem_of_cons. now left. }
    erewrite run_bind by (apply run_value; exact Hr).
    erewrite run_bind by (apply next_at; exact Hr). heap_simpl.
    erewrite run_bind.
    2:{ apply (IH r xs fuel Hs).
        - intros Hin. apply Hq, elem_of_cons. now right.
        - cbn in Hf. lia. }
    reflexivity.
Qed.

Lemma elements_list_at (h : Heap) this e rs xs fuel :
  list_at h this e rs xs → (length xs < fuel)%nat →
  StdList.elements T fuel this h = StdList.Ret xs h.
Proof.
  intros (Hc & He & Hs & Hnd) Hf. unfold StdList.elements.
  run_step. run_step.
  apply walk_seg with (this := this) (p := e);
    [exact Hs|now apply NoDup_cons in Hnd|].
  rewrite (seg_length _ _ _ _ _ _ Hs). exact Hf.
Qed.

Lemma size_list_at (h : Heap) this e rs xs :
  list_at h this e rs xs →
  StdList.size T this h = StdList.Ret (Some (Z.of_nat (length xs))) h.
Proof. intros (Hc & _). now rewrite (run_size _ _ _ _ Hc). Qed.

(** ** Other lists of the heap *)

Lemma list_at_source (h : Heap) this e rs xs r :
  list_at h this e rs xs → r ∈ e :: rs →
  ∃ n, StdList.iterators h !! r = Some n ∧ StdList.source_ n = this.
Proof.
  intros (_ & He & Hs & _) Hr. apply elem_of_cons in Hr as [->|Hr].
  - eexists. split; [exact He|reflexivity].
  - eapply seg_lookup; eauto.
Qed.

Lemma list_at_frame (h h' : Heap) b eb rsb ys :
  list_at h b eb rsb ys →
  StdList.containers h' !! b = StdList.containers h !! b →
  (∀ r, r ∈ eb :: rsb → StdList.iterators h' !! r = StdList.iterators h !! r) →
  list_at h' b eb rsb ys.
Proof.
  intros (Hc & He & Hs & Hnd) Hcs Hit. split; [|split; [|split]].
  - now rewrite Hcs.
  - rewrite Hit; [exact He|]. apply elem_of_cons. now left.
  - eapply seg_frame; [exact Hs|]. intros r Hr. apply Hit, elem_of_cons. now right.
  - exact Hnd.
Qed.

Lemma frame_other (h h' : Heap) this e rs xs :
  list_at h this e rs xs →
  (∀ r, (r < length (StdList.iterators h))%nat → r ∉ e :: rs →
        StdList.iterators h' !! r = StdList.iterators h !! r) →
  (∀ j, j ≠ this → StdList.containers h' !! j = StdList.containers h !! j) →
  ∀ b ys, b ≠ this → StdList.is_list T null h b ys → StdList.is_list T null h' b ys.
Proof.
  intros Hl Hit Hcs b ys Hb (eb & rsb & Hlb). exists eb, rsb.
  eapply list_at_frame; [exact Hlb|now apply Hcs|].
  intros r Hr. apply Hit.
  - eapply list_at_lt; eauto.
  - intros Hin.
    destruct (list_at_source _ _ _ _ _ _ Hl Hin) as (n & Hn & Hsrc).
    destruct (list_at_source _ _ _ _ _ _ Hlb Hr) as (n' & Hn' & Hsrc').
    congruence.
Qed.

(** ** push *)

Lemma push_list_at (items : list T) : ∀ (h : Heap) this e rs xs,
  list_at h this e rs xs →
  ∃ h' rs', StdList.push T this items h
            = StdList.Ret (Some (Z.of_nat (length (xs ++ items)))) h' ∧
        list_at h' this e (rs ++ rs') (xs ++ items) ∧
        (length (StdList.iterators h) ≤ length (StdList.iterators h'))%nat ∧
        (∀ r, (r < length (StdList.iterators h))%nat → r ∉ e :: rs →
              StdList.iterators h' !! r = StdList.iterators h !! r) ∧
        (∀ j, j ≠ this → StdList.containers h' !! j = StdList.containers h !! j) ∧
        length (StdList.containers h') = length (StdList.containers h).
Proof.
  induction items as [|v items IH]; intros h this e rs xs Hl.
  - exists h, []. rewrite !app_nil_r. cbn [StdList.push].
    split; [now apply size_list_at with (e := e) (rs := rs)|].
    split; [exact Hl|]. split; [lia|]. split; [reflexivity|]. split; reflexivity.
  - destruct (push_back_list_at h this e rs xs v Hl)
      as (h1 & Hrun & Hl1 & Hlen1 & Hit1 & Hcs1 & Hcl1).
    destruct (IH h1 this e _ _ Hl1) as (h' & rs' & Hrun' & Hl' & Hlen' & Hit' & Hcs' & Hcl').
    exists h', (length (StdList.iterators h) :: rs').
    cbn [StdList.push]. erewrite run_bind by exact Hrun.
    rewrite <- (app_assoc xs) in Hrun'.
    rewrite <- (app_assoc rs), <- (app_assoc xs) in Hl'. cbn [app] in Hrun', Hl'.
    split; [exact Hrun'|]. split; [exact Hl'|]. split; [lia|].
    split; [|split].
    + intros r Hr Hnot. rewrite Hit'; [now apply Hit1|lia|].
      intros Hin. apply Hnot. apply elem_of_cons in Hin as [->|Hin];
        [apply elem_of_cons; now left|].
      apply elem_of_app in Hin as [Hin|Hin]; [apply elem_of_cons; now right|].
      apply list_elem_of_singleton in Hin. lia.
    + intros j Hj. rewrite Hcs' by exact Hj. now apply Hcs1.
    + congruence.
Qed.

(** ** front and back *)

Lemma seg_last_value (h : Heap) this p rs xs q l :
  seg h this p rs xs q → last rs = Some l →
  ∃ n, StdList.iterators h !! l = Some n ∧ last xs = Some (StdList.value_ n).
Proof.
  revert p xs. induction rs as [|r rs IH]; intros p xs Hs Hlast; [discriminate|].
  destruct xs as [|x xs]; [destruct Hs|]. destruct Hs as [Hr Hs].
  pose proof (seg_length _ _ _ _ _ _ Hs) as Hlen.
  destruct rs as [|r' rs].
  - destruct xs; [|discriminate]. injection Hlast as <-.
    eexists. split; [exact Hr|reflexivity].
  - destruct xs as [|x' xs]; [discriminate|].
    change (last (r' :: rs) = Some l) in Hlast.
    change (last (x :: x' :: xs)) with (last (x' :: xs)). eapply IH; eauto.
Qed.

Lemma front_list_at (h : Heap) this e rs xs :
  list_at h this e rs xs →
  StdList.front T this h = StdList.Ret (default null (head xs)) h.
Proof.
  intros (Hc & He & Hs & Hnd). unfold StdList.front. run_step.
  destruct rs as [|r rs]; destruct xs as [|x xs]; try (now destruct Hs);
    cbn [head default from_option id].
  - now rewrite (run_value _ _ _ He).
  - destruct Hs as [Hr Hs]. now rewrite (run_value _ _ _ Hr).
Qed.

Lemma back_list_at (h : Heap) this e rs xs :
  list_at h this e rs xs →
  StdList.back T this h = StdList.Ret (default null (last xs)) h.
Proof.
  intros (Hc & He & Hs & Hnd). unfold StdList.back. run_step. run_step.
  destruct (last rs) as [l|] eqn:Hlast.
  - destruct (seg_last_value _ _ _ _ _ _ _ Hs Hlast) as (n & Hn & ->).
    cbn [default from_option id]. now rewrite (run_value _ _ _ Hn).
  - apply last_None in Hlast. subst rs. destruct xs; [|destruct Hs].
    cbn [last default from_option id]. now rewrite (run_value _ _ _ He).
Qed.

(** ** swap *)

Lemma swap_list_run (h : Heap) a b la lb :
  a ≠ b →
  StdList.containers h !! a = Some la → StdList.containers h !! b = Some lb →
  StdList.swap_list T a b h
  = StdList.Ret tt (StdList.mkHeap (StdList.iterators h)
                      (<[b := la]> (<[a := lb]> (StdList.containers h)))).
Proof.
  intros Hab Ha Hb. unfold StdList.swap_list.
  erewrite run_bind by (apply run_getList; exact Ha).
  erewrite run_bind by (apply run_getList; exact Hb).
  erewrite run_bind by (apply run_putList; exact Ha). heap_simpl.
  erewrite run_putList
    by (heap_simpl; rewrite list_lookup_insert_ne by congruence; exact Hb).
  heap_simpl. now destruct la, lb.
Qed.

(** ** assign from a range *)

Lemma assign_loop_tail (this : StdList.lid) (range : list T) :
  ∀ k fuel (h : Heap) pos l,
  (0 < pos)%nat → (pos + k = length range)%nat → (k < fuel)%nat →
  StdList.containers h !! this = Some l →
  StdList.assign_loop T null fuel this range pos None h
  = StdList.Ret tt
      (StdList.mkHeap
         (StdList.iterators h ++ (StdList.mkIt this None None <$> drop pos range)
            ++ [StdList.mkIt this None None null])
         (<[this := StdList.mkList (StdList.begin_ l)
                      (Some (length (StdList.iterators h) + k)%nat)
                      (Z.add (Z.of_nat k) <$> StdList.size_ l)]>
            (StdList.containers h))).
Proof.
  induction k as [|k IH]; intros fuel h pos l Hpos Hk Hf Hc;
    pose proof (lookup_lt_Some _ _ _ Hc) as Hthis;
    (destruct fuel as [|fuel]; [lia|]); cbn [StdList.assign_loop].
  - rewrite !(bool_decide_eq_true_2 (pos = length range)) by lia.
    rewrite bool_decide_eq_false_2 by lia.
    run_step. run_step. unfold StdList.set_end.
    erewrite run_putList by lookup_solver. heap_simpl.
    rewrite drop_ge by lia. cbn [fmap list_fmap app].
    rewrite Nat.add_0_r. do 3 f_equal.
    destruct l as [b e [s|]]; reflexivity.
  - destruct (lookup_lt_is_Some_2 range pos) as [x Hx]; [lia|].
    rewrite !(bool_decide_eq_false_2 (pos = length range)) by lia.
    rewrite bool_decide_eq_false_2 by lia. rewrite Hx.
    cbn [default from_option id].
    run_step. run_step. unfold StdList.add_size. run_step.
    erewrite IH; [|lia|lia|lia|lookup_solver].
    heap_simpl. rewrite (drop_S _ _ _ Hx). cbn [fmap list_fmap].
    rewrite <- app_assoc. cbn [app]. f_equal.
    rewrite list_insert_insert_eq. f_equal. f_equal.
    rewrite length_app. cbn [length].
    destruct l as [b e [s|]];
      cbn [StdList.begin_ StdList.size_ fmap option_fmap option_map];
      f_equal; f_equal; lia.
Qed.

Lemma assign_range_run (h : Heap) this l x rest fuel :
  StdList.containers h !! this = Some l → (S (length rest) < fuel)%nat →
  StdList.assign T null fuel this (StdList.AssignRange T (x :: rest)) h
  = StdList.Ret tt
      (StdList.mkHeap
         (StdList.iterators h ++ (StdList.mkIt this None None <$> x :: rest)
            ++ [StdList.mkIt this None None null])
         (<[this := StdList.mkList (Some (length (StdList.iterators h)))
                      (Some (length (StdList.iterators h) + S (length rest))%nat)
                      (Z.add (Z.of_nat (S (length rest))) <$> StdList.size_ l)]>
            (StdList.containers h))).
Proof.
  intros Hc Hf. pose proof (lookup_lt_Some _ _ _ Hc) as Hthis.
  destruct fuel as [|fuel]; [lia|].
  cbn [StdList.assign StdList.assign_loop].
  rewrite !(bool_decide_eq_false_2 (0%nat = length (x :: rest))) by (cbn; lia).
  rewrite bool_decide_eq_true_2 by reflexivity.
  cbn [lookup list_lookup default from_option id].
  run_step. run_step. unfold StdList.set_begin, StdList.add_size.
  run_step. run_step.
  erewrite (assign_loop_tail this (x :: rest) (length rest));
    [|lia|cbn; lia|lia|lookup_solver].
  heap_simpl. cbn [drop fmap list_fmap]. rewrite drop_0.
  rewrite <- app_assoc. cbn [app]. f_equal.
  rewrite !list_insert_insert_eq. f_equal. f_equal.
  rewrite length_app. cbn [length].
  destruct l as [b e [s|]];
    cbn [StdList.begin_ StdList.size_ fmap option_fmap option_map];
    f_equal; f_equal; lia.
Qed.

(** ** Splitting and relinking segments *)

Lemma head_app_default {A} (d : A) (l1 l2 : list A) :
  default d (head (l1 ++ l2)) = default (default d (head l2)) (head l1).
Proof. now destruct l1. Qed.

Lemma last_app_default {A} (d : A) (l1 l2 : list A) :
  default d (last (l1 ++ l2)) = default (default d (last l1)) (last l2).
Proof. rewrite last_app. now destruct (last l2). Qed.

Lemma seg_app (h : Heap) this p rs1 rs2 xs1 xs2 q :
  length rs1 = length xs1 →
  seg h this p (rs1 ++ rs2) (xs1 ++ xs2) q ↔
  seg h this p rs1 xs1 (default q (head rs2)) ∧
  seg h this (default p (last rs1)) rs2 xs2 q.
Proof.
  revert p xs1. induction rs1 as [|r rs1 IH]; intros p [|x xs1] Hlen;
    try discriminate.
  - cbn. tauto.
  - injection Hlen as Hlen. cbn [app StdList.seg].
    rewrite (IH r xs1 Hlen), last_cons_default, head_app_default. tauto.
Qed.

Lemma seg_last_node (h : Heap) this p rs xs q l :
  seg h this p rs xs q → last rs = Some l →
  ∃ n, StdList.iterators h !! l = Some n ∧ StdList.source_ n = this ∧
       StdList.next_ n = Some q.
Proof.
  revert p xs. induction rs as [|r rs IH]; intros p xs Hs Hlast; [discriminate|].
  destruct xs as [|x xs]; [destruct Hs|]. destruct Hs as [Hr Hs].
  destruct rs as [|r' rs].
  - injection Hlast as <-. eexists. split; [exact Hr|]. split; reflexivity.
  - change (last (r' :: rs) = Some l) in Hlast. eapply IH; eauto.
Qed.

Lemma seg_retarget_next (h h' : Heap) this p rs xs q q' :
  seg h this p rs xs q → NoDup rs →
  (∀ r, r ∈ rs → last rs ≠ Some r →
        StdList.iterators h' !! r = StdList.iterators h !! r) →
  (∀ l n, last rs = Some l → StdList.iterators h !! l = Some n →
        StdList.iterators h' !! l
        = Some (StdList.mkIt (StdList.source_ n) (StdList.prev_ n) (Some q')
                  (StdList.value_ n))) →
  seg h' this p rs xs q'.
Proof.
  revert p xs. induction rs as [|r rs IH]; intros p [|x xs]; cbn [StdList.seg];
    try tauto.
  intros [Hr Hs] Hnd Hframe Hlast. apply NoDup_cons in Hnd as [Hr' Hnd].
  destruct rs as [|r2 rs].
  - destruct xs; [|destruct Hs]. split; [|exact I].
    rewrite (Hlast r _ eq_refl Hr). reflexivity.
  - split.
    + rewrite Hframe; [exact Hr|apply elem_of_cons; now left|].
      change (last (r :: r2 :: rs)) with (last (r2 :: rs)).
      intros Heq. apply Hr'. eapply last_Some_elem_of. exact Heq.
    + apply IH; [exact Hs|exact Hnd| |].
      * intros r' Hin Hne. apply Hframe; [apply elem_of_cons; now right|exact Hne].
      * intros l n Hl. apply Hlast. exact Hl.
Qed.

Lemma seg_retarget_prev (h h' : Heap) this p p' rs xs q :
  seg h this p rs xs q → NoDup rs →
  (∀ r, r ∈ rs → head rs ≠ Some r →
        StdList.iterators h' !! r = StdList.iterators h !! r) →
  (∀ f n, head rs = Some f → StdList.iterators h !! f = Some n →
        StdList.iterators h' !! f
        = Some (StdList.mkIt (StdList.source_ n) (Some p') (StdList.next_ n)
                  (StdList.value_ n))) →
  seg h' this p' rs xs q.
Proof.
  destruct rs as [|r rs]; destruct xs as [|x xs]; cbn [StdList.seg]; try tauto.
  intros [Hr Hs] Hnd Hframe Hhead. apply NoDup_cons in Hnd as [Hr' Hnd]. split.
  - rewrite (Hhead r _ eq_refl Hr). reflexivity.
  - eapply seg_frame; [exact Hs|]. intros r' Hin. apply Hframe.
    + apply elem_of_cons. now right.
    + cbn. intros [= ->]. contradiction.
Qed.

(** ** insert of one value *)

Lemma run_set_begin_if (c : bool) (h : Heap) this l v :
  StdList.containers h !! this = Some l →
  (if c then StdList.set_begin T this v else StdList.ret tt) h
  = StdList.Ret tt
      (StdList.mkHeap (StdList.iterators h)
         (<[this := StdList.mkList (if c then v else StdList.begin_ l)
                      (StdList.end_ l) (StdList.size_ l)]> (StdList.containers h))).
Proof.
  intros Hc. destruct c.
  - unfold StdList.set_begin. now rewrite (run_putList _ _ _ _ _ Hc).
  - unfold StdList.ret. destruct h as [its cs], l as [b e s]. cbn in *.
    now rewrite list_insert_id.
Qed.

Lemma insert_by_val_run (h : Heap) this l prv pos nprv npos v :
  StdList.containers h !! this = Some l → StdList.size_ l ≠ Some 0 →
  prv ≠ pos →
  StdList.iterators h !! prv = Some nprv →
  StdList.iterators h !! pos = Some npos →
  StdList.source_ npos = this → StdList.prev_ npos = Some prv →
  StdList.insert_by_val T this (Some pos) v h
  = StdList.Ret (Some (length (StdList.iterators h)))
      (StdList.mkHeap
         (<[pos := StdList.mkIt (StdList.source_ npos)
                     (Some (length (StdList.iterators h)))
                     (StdList.next_ npos) (StdList.value_ npos)]>
            (<[length (StdList.iterators h) :=
                 StdList.mkIt this (Some prv) (Some pos) v]>
               (<[prv := StdList.mkIt (StdList.source_ nprv) (StdList.prev_ nprv)
                           (Some (length (StdList.iterators h)))
                           (StdList.value_ nprv)]>
                  (StdList.iterators h ++ [StdList.mkIt this (Some prv) None v]))))
         (<[this := StdList.mkList
                      (if bool_decide (Some prv = StdList.end_ l)
                       then Some (length (StdList.iterators h))
                       else StdList.begin_ l)
                      (StdList.end_ l) (Z.add 1 <$> StdList.size_ l)]>
            (StdList.containers h))).
Proof.
  intros Hc Hsz Hne Hprv Hpos Hsrc Hprev.
  pose proof (lookup_lt_Some _ _ _ Hc) as Hthis.
  pose proof (lookup_lt_Some _ _ _ Hprv) as Hprvlt.
  pose proof (lookup_lt_Some _ _ _ Hpos) as Hposlt.
  unfold StdList.insert_by_val, StdList.insertByRepeatingVal.
  run_step. rewrite bool_decide_eq_true_2 by congruence. cbn [negb].
  run_step. rewrite Hprev.
  change (Z.to_nat 1) with 1%nat. cbn [StdList.repeating_loop].
  rewrite bind_assoc. run_step. rewrite bind_assoc.
  unfold StdList.setNext, StdList.setPrev, StdList.add_size.
  run_step. run_step. cbn [fst snd].
  rewrite (bool_decide_eq_true_2 (0 = 0)) by reflexivity.
  run_step. rewrite bool_decide_eq_false_2 by exact Hsz.
  rewrite bind_assoc. run_step. rewrite bind_assoc. run_step. run_step.
  erewrite run_bind by (apply run_set_begin_if; lookup_solver). heap_simpl.
  run_step. run_step. run_step.
  unfold StdList.ret. rewrite list_insert_insert_eq. heap_simpl.
  reflexivity.
Qed.

Lemma insert_by_val_run_empty (h : Heap) this l e ne v :
  StdList.containers h !! this = Some l → StdList.size_ l = Some 0 →
  StdList.iterators h !! e = Some ne →
  StdList.source_ ne = this → StdList.prev_ ne = Some e →
  StdList.insert_by_val T this (Some e) v h
  = StdList.Ret (Some (length (StdList.iterators h)))
      (StdList.mkHeap
         (<[e := StdList.mkIt (StdList.source_ ne)
                   (Some (length (StdList.iterators h)))
                   (Some (length (StdList.iterators h))) (StdList.value_ ne)]>
            (<[length (StdList.iterators h) :=
                 StdList.mkIt this (Some e) (Some e) v]>
               (<[e := StdList.mkIt (StdList.source_ ne) (Some e)
                         (Some (length (StdList.iterators h)))
                         (StdList.value_ ne)]>
                  (StdList.iterators h ++ [StdList.mkIt this (Some e) None v]))))
         (<[this := StdList.mkList (Some (length (StdList.iterators h)))
                      (StdList.end_ l) (Z.add 1 <$> StdList.size_ l)]>
            (StdList.containers h))).
Proof.
  intros Hc Hsz He Hsrc Hprev.
  pose proof (lookup_lt_Some _ _ _ Hc) as Hthis.
  pose proof (lookup_lt_Some _ _ _ He) as Helt.
  unfold StdList.insert_by_val, StdList.insertByRepeatingVal.
  run_step. rewrite bool_decide_eq_true_2 by congruence. cbn [negb].
  run_step. rewrite Hprev.
  change (Z.to_nat 1) with 1%nat. cbn [StdList.repeating_loop].
  rewrite bind_assoc. run_step. rewrite bind_assoc.
  unfold StdList.setNext, StdList.setPrev, StdList.add_size.
  run_step. run_step. cbn [fst snd].
  rewrite (bool_decide_eq_true_2 (0 = 0)) by reflexivity.
  run_step. rewrite bool_decide_eq_true_2 by exact Hsz.
  run_step.
  erewrite run_bind by (apply (run_set_begin_if true); lookup_solver). heap_simpl.
  run_step. run_step. run_step.
  unfold StdList.ret. rewrite list_insert_insert_eq. heap_simpl.
  rewrite Hprev. reflexivity.
Qed.

Lemma default_last_elem (d : StdList.ref) (l : list StdList.ref) :
  l ≠ [] → default d (last l) ∈ l.
Proof.
  intros Hl. destruct (last l) as [x|] eqn:Hx.
  - eapply last_Some_elem_of. exact Hx.
  - apply last_None in Hx. contradiction.
Qed.

Lemma default_head_elem (d : StdList.ref) (l : list StdList.ref) :
  l ≠ [] → default d (head l) ∈ l.
Proof. destruct l; [contradiction|]. intros _. apply elem_of_cons. now left. Qed.

Lemma insert_by_val_list_at (h : Heap) this e rs1 rs2 xs1 xs2 v :
  length rs1 = length xs1 →
  list_at h this e (rs1 ++ rs2) (xs1 ++ xs2) →
  ∃ h', StdList.insert_by_val T this (Some (default e (head rs2))) v h
        = StdList.Ret (Some (length (StdList.iterators h))) h' ∧
        list_at h' this e (rs1 ++ length (StdList.iterators h) :: rs2)
          (xs1 ++ v :: xs2) ∧
        (∀ r, (r < length (StdList.iterators h))%nat → r ∉ e :: rs1 ++ rs2 →
              StdList.iterators h' !! r = StdList.iterators h !! r) ∧
        (∀ j, j ≠ this → StdList.containers h' !! j = StdList.containers h !! j).
Proof.
  intros Hlen Hl. pose proof Hl as (Hc & He & Hs & Hnd).
  pose proof (lookup_lt_Some _ _ _ Hc) as Hthis.
  pose proof (lookup_lt_Some _ _ _ He) as Helt.
  pose proof (seg_length _ _ _ _ _ _ Hs) as Hlens.
  assert (∀ r, r ∈ e :: rs1 ++ rs2 → (r < length (StdList.iterators h))%nat) as Hlt.
  { intros r Hr. eapply list_at_lt; eauto. }
  apply (seg_app _ _ _ _ _ _ _ _ Hlen) in Hs as [Hs1 Hs2].
  apply NoDup_cons in Hnd as [Hend Hnd].
  apply NoDup_app in Hnd as (Hnd1 & Hdisj & Hnd2).
  assert (e ∉ rs1) as He1 by (intros ?; apply Hend, elem_of_app; now left).
  assert (e ∉ rs2) as He2 by (intros ?; apply Hend, elem_of_app; now right).
  set (n0 := length (StdList.iterators h)) in *.
  destruct (decide (rs1 = [] ∧ rs2 = [])) as [[-> ->]|Hnonempty].
  - (* the list is empty *)
    destruct xs1; [|discriminate]. destruct xs2; [|discriminate].
    cbn [app head last default from_option id length] in *.
    erewrite insert_by_val_run_empty; [|exact Hc|reflexivity|exact He|reflexivity..].
    fold n0. heap_simpl.
    eexists. split; [reflexivity|]. split; [|split].
    + split; [|split; [|split]].
      * now lookup_solver.
      * heap_simpl. now rewrite list_lookup_insert_eq by (length_simpl; lia).
      * cbn. split; [|exact I]. now lookup_solver.
      * apply NoDup_cons. split; [|apply NoDup_singleton].
        intros Hin. apply list_elem_of_singleton in Hin. lia.
    + intros r Hr Hnot. heap_simpl.
      assert (r ≠ e) by (intros ->; apply Hnot, elem_of_cons; now left).
      now lookup_solver.
    + intros j Hj. heap_simpl. now rewrite list_lookup_insert_ne by congruence.
  - (* the list has an element *)
    remember (default e (last rs1)) as prv eqn:Hprvdef in *.
    remember (default e (head rs2)) as pos eqn:Hposdef in *.
    assert (rs1 ≠ [] → prv ∈ rs1) as Hprv1
      by (rewrite Hprvdef; apply default_last_elem).
    assert (rs2 ≠ [] → pos ∈ rs2) as Hpos2
      by (rewrite Hposdef; apply default_head_elem).
    assert (rs1 = [] → prv = e) as Hprv0
      by (intros H1; rewrite Hprvdef, H1; reflexivity).
    assert (rs2 = [] → pos = e) as Hpos0
      by (intros H2; rewrite Hposdef, H2; reflexivity).
    assert (prv ≠ pos) as Hne.
    { intros Heq. destruct (decide (rs1 = [])) as [H1|H1];
        destruct (decide (rs2 = [])) as [H2|H2].
      - tauto.
      - apply He2. rewrite <- (Hprv0 H1), Heq. auto.
      - apply He1. rewrite <- (Hpos0 H2), <- Heq. auto.
      - apply (Hdisj prv); [auto|]. rewrite Heq. auto. }
    assert (∃ nprv, StdList.iterators h !! prv = Some nprv ∧
                    StdList.source_ nprv = this ∧ StdList.next_ nprv = Some pos)
      as (nprv & Hprv & Hprvsrc & Hprvnext).
    { destruct (last rs1) as [l|] eqn:Hlast.
      - destruct (seg_last_node _ _ _ _ _ _ _ Hs1 Hlast) as (n & Hn & Hsrc & Hnext).
        exists n. rewrite Hprvdef, ?Hlast. auto.
      - apply last_None in Hlast. rewrite (Hprv0 Hlast). subst rs1.
        eexists. split; [exact He|]. split; [reflexivity|].
        cbn. now rewrite Hposdef. }
    assert (∃ npos, StdList.iterators h !! pos = Some npos ∧
                    StdList.source_ npos = this ∧ StdList.prev_ npos = Some prv ∧
                    (rs2 ≠ [] → StdList.value_ npos = default null (head xs2) ∧
                       StdList.next_ npos = Some (default e (head (tail rs2)))))
      as (npos & Hpos & Hpossrc & Hposprev & Hposrest).
    { destruct rs2 as [|r rs2].
      - rewrite (Hpos0 eq_refl). eexists. split; [exact He|]. rewrite app_nil_r.
        split; [reflexivity|]. split; [now rewrite Hprvdef|]. intros [].
        reflexivity.
      - destruct xs2 as [|x xs2]; [destruct Hs2|]. destruct Hs2 as [Hr Hs2].
        rewrite Hposdef. eexists. split; [exact Hr|]. repeat split. }
    pose proof (lookup_lt_Some _ _ _ Hprv) as Hprvlt.
    pose proof (lookup_lt_Some _ _ _ Hpos) as Hposlt.
    erewrite insert_by_val_run; [|exact Hc| |exact Hne|exact Hprv|exact Hpos|
                                 exact Hpossrc|exact Hposprev].
    2:{ cbn. intros [= H0]. apply Hnonempty.
        assert (length rs1 = 0%nat ∧ length rs2 = 0%nat) as [H1 H2].
        { rewrite length_app in H0, Hlens. rewrite length_app in Hlens. lia. }
        split; now apply length_zero_iff_nil. }
    fold n0. heap_simpl.
    set (its' := <[pos := _]> (<[n0 := _]> (<[prv := _]> _))).
    assert (∀ r, (r < n0)%nat → r ≠ prv → r ≠ pos →
                 its' !! r = StdList.iterators h !! r) as L1.
    { intros r Hr H1 H2. unfold its'. fold n0 in Hprvlt, Hposlt. now lookup_solver. }
    assert (its' !! prv = Some (StdList.mkIt (StdList.source_ nprv)
              (StdList.prev_ nprv) (Some n0) (StdList.value_ nprv))) as L2.
    { unfold its'. fold n0 in Hprvlt, Hposlt. now lookup_solver. }
    assert (its' !! pos = Some (StdList.mkIt (StdList.source_ npos) (Some n0)
              (StdList.next_ npos) (StdList.value_ npos))) as L3.
    { unfold its'. fold n0 in Hprvlt, Hposlt. now lookup_solver. }
    assert (its' !! n0 = Some (StdList.mkIt this (Some prv) (Some pos) v)) as L4.
    { unfold its'. fold n0 in Hprvlt, Hposlt. now lookup_solver. }
    clearbody its'.
    eexists. split; [reflexivity|]. split; [|split].
    + split; [|split; [|split]]; heap_simpl.
      * rewrite list_lookup_insert_eq by lia. do 2 f_equal.
        -- destruct rs1 as [|r1 rs1].
           ++ rewrite bool_decide_eq_true_2 by (now rewrite Hprv0). reflexivity.
           ++ rewrite bool_decide_eq_false_2; [reflexivity|].
              intros [= Heq]. apply He1. rewrite <- Heq. now apply Hprv1.
        -- cbn. rewrite !length_app. cbn. f_equal. lia.
      * destruct (decide (rs1 = [])) as [H1|H1];
          destruct (decide (rs2 = [])) as [H2|H2]; [tauto| | |].
        -- rewrite (Hprv0 H1) in L2, Hprv. rewrite L2. rewrite He in Hprv.
           injection Hprv as <-. heap_simpl. rewrite H1.
           destruct rs2 as [|r2 rs2]; [contradiction|]. reflexivity.
        -- rewrite (Hpos0 H2) in L3, Hpos. rewrite L3. rewrite He in Hpos.
           injection Hpos as <-. heap_simpl. rewrite H2, app_nil_r.
           rewrite last_snoc. destruct rs1 as [|r1 rs1]; [contradiction|].
           reflexivity.
        -- rewrite L1.
           ++ rewrite last_app_default, head_app_default in He |- *.
              destruct rs1 as [|r1 rs1]; [contradiction|].
              destruct rs2 as [|r2 rs2]; [contradiction|]. exact He.
           ++ exact Helt.
           ++ intros Heq. apply He1. rewrite Heq. auto.
           ++ intros Heq. apply He2. rewrite Heq. auto.
      * apply (seg_app _ _ _ _ _ _ _ _ Hlen). rewrite <- Hprvdef. split.
        -- cbn [head default from_option id].
           eapply seg_retarget_next; [exact Hs1|exact Hnd1| |].
           ++ intros r Hr Hlast. pose proof (Hlt r) as Hrlt. apply L1.
              ** apply Hrlt. apply elem_of_cons. right. apply elem_of_app. now left.
              ** intros Heq. apply Hlast. rewrite Heq, Hprvdef.
                 destruct (last rs1) eqn:Hl1; [reflexivity|].
                 apply last_None in Hl1. rewrite Hl1 in Hr.
                 now apply elem_of_nil in Hr.
              ** intros ->. destruct (decide (rs2 = [])) as [H2|H2].
                 --- apply He1. now rewrite <- (Hpos0 H2).
                 --- apply (Hdisj pos); auto.
           ++ intros l n Hlast Hn. rewrite Hlast in Hprvdef.
              cbn [default from_option id] in Hprvdef. subst l.
              rewrite Hprv in Hn. injection Hn as <-. exact L2.
        -- cbn [StdList.seg]. split.
           ++ heap_simpl. rewrite Hposdef in L4. exact L4.
           ++ eapply seg_retarget_prev; [exact Hs2|exact Hnd2| |].
              ** intros r Hr Hhead. pose proof (Hlt r) as Hrlt. apply L1.
                 --- apply Hrlt. apply elem_of_cons. right. apply elem_of_app.
                     now right.
                 --- intros ->. destruct (decide (rs1 = [])) as [H1|H1].
                     +++ apply He2. now rewrite <- (Hprv0 H1).
                     +++ apply (Hdisj prv); auto.
                 --- intros Heq. apply Hhead. rewrite Heq, Hposdef.
                     destruct rs2; [now apply elem_of_nil in Hr|reflexivity].
              ** intros f n Hhead Hn. rewrite Hhead in Hposdef.
                 cbn [default from_option id] in Hposdef. subst f.
                 rewrite Hpos in Hn. injection Hn as <-. exact L3.
      * rewrite <- Permutation_middle. apply NoDup_cons. split.
        -- intros Hin. apply elem_of_cons in Hin as [->|Hin]; [lia|].
           now apply Hend.
        -- apply NoDup_cons. split.
           ++ intros Hin. pose proof (Hlt n0) as Hn0.
              assert (n0 < n0)%nat; [|lia].
              apply Hn0. apply elem_of_cons. now right.
           ++ apply NoDup_app. auto.
    + intros r Hr Hnot. heap_simpl. apply L1; [exact Hr| |].
      * intros ->. apply Hnot. destruct (decide (rs1 = [])) as [H1|H1].
        -- rewrite (Hprv0 H1). apply elem_of_cons. now left.
        -- apply elem_of_cons. right. apply elem_of_app. left. auto.
      * intros ->. apply Hnot. destruct (decide (rs2 = [])) as [H2|H2].
        -- rewrite (Hpos0 H2). apply elem_of_cons. now left.
        -- apply elem_of_cons. right. apply elem_of_app. right. auto.
    + intros j Hj. heap_simpl. now rewrite list_lookup_insert_ne by congruence.
Qed.

(** ** erase of one element *)

Lemma erase_by_iterator_run (h : Heap) this l r prv nx nr nprv nnx fuel :
  StdList.containers h !! this = Some l →
  StdList.iterators h !! r = Some nr → StdList.source_ nr = this →
  StdList.prev_ nr = Some prv → StdList.next_ nr = Some nx →
  StdList.iterators h !! prv = Some nprv →
  StdList.iterators h !! nx = Some nnx → StdList.source_ nnx = this →
  r ≠ nx → prv ≠ nx → (2 ≤ fuel)%nat →
  StdList.erase_by_iterator T fuel this (Some r) h
  = StdList.Ret (Some nx)
      (StdList.mkHeap
         (<[nx := StdList.mkIt (StdList.source_ nnx) (Some prv)
                    (StdList.next_ nnx) (StdList.value_ nnx)]>
            (<[prv := StdList.mkIt (StdList.source_ nprv) (StdList.prev_ nprv)
                        (Some nx) (StdList.value_ nprv)]> (StdList.iterators h)))
         (<[this := StdList.mkList
                      (if bool_decide (Z.add (-1) <$> StdList.size_ l = Some 0)
                       then Some nx else StdList.begin_ l)
                      (StdList.end_ l) (Z.add (-1) <$> StdList.size_ l)]>
            (StdList.containers h))).
Proof.
  intros Hc Hr Hsrc Hprev Hnext Hprv Hnx Hnxsrc Hrnx Hpn Hf.
  pose proof (lookup_lt_Some _ _ _ Hc) as Hthis.
  pose proof (lookup_lt_Some _ _ _ Hprv) as Hprvlt.
  pose proof (lookup_lt_Some _ _ _ Hnx) as Hnxlt.
  destruct fuel as [|[|fuel]]; [lia|lia|].
  unfold StdList.erase_by_iterator, StdList.erase_by_range.
  run_step. rewrite Hnext.
  run_step. rewrite bool_decide_eq_true_2 by congruence. cbn [negb].
  rewrite bind_assoc. run_step. rewrite bind_assoc. run_step.
  rewrite bool_decide_eq_true_2 by congruence. cbn [negb].
  run_step. run_step. rewrite Hprev.
  cbn [StdList.count_loop].
  rewrite bind_assoc. run_step.
  rewrite bool_decide_eq_false_2 by congruence.
  rewrite bind_assoc. run_step. rewrite Hnext.
  rewrite bind_assoc. run_step.
  rewrite bool_decide_eq_true_2 by reflexivity. run_step.
  unfold StdList.setNext, StdList.setPrev, StdList.add_size.
  run_step. run_step. run_step. run_step.
  erewrite run_bind by (apply run_set_begin_if; lookup_solver). heap_simpl.
  unfold StdList.ret. rewrite list_insert_insert_eq. reflexivity.
Qed.

Lemma erase_by_iterator_run_single (h : Heap) this l r e nr ne fuel :
  StdList.containers h !! this = Some l →
  StdList.iterators h !! r = Some nr → StdList.source_ nr = this →
  StdList.prev_ nr = Some e → StdList.next_ nr = Some e →
  StdList.iterators h !! e = Some ne → StdList.source_ ne = this →
  r ≠ e → (2 ≤ fuel)%nat →
  StdList.erase_by_iterator T fuel this (Some r) h
  = StdList.Ret (Some e)
      (StdList.mkHeap
         (<[e := StdList.mkIt (StdList.source_ ne) (Some e) (Some e)
                   (StdList.value_ ne)]> (StdList.iterators h))
         (<[this := StdList.mkList
                      (if bool_decide (Z.add (-1) <$> StdList.size_ l = Some 0)
                       then Some e else StdList.begin_ l)
                      (StdList.end_ l) (Z.add (-1) <$> StdList.size_ l)]>
            (StdList.containers h))).
Proof.
  intros Hc Hr Hsrc Hprev Hnext He Hesrc Hre Hf.
  pose proof (lookup_lt_Some _ _ _ Hc) as Hthis.
  pose proof (lookup_lt_Some _ _ _ He) as Helt.
  destruct fuel as [|[|fuel]]; [lia|lia|].
  unfold StdList.erase_by_iterator, StdList.erase_by_range.
  run_step. rewrite Hnext.
  run_step. rewrite bool_decide_eq_true_2 by congruence. cbn [negb].
  rewrite bind_assoc. run_step. rewrite bind_assoc. run_step.
  rewrite bool_decide_eq_true_2 by congruence. cbn [negb].
  run_step. run_step. rewrite Hprev.
  cbn [StdList.count_loop].
  rewrite bind_assoc. run_step.
  rewrite bool_decide_eq_false_2 by congruence.
  rewrite bind_assoc. run_step. rewrite Hnext.
  rewrite bind_assoc. run_step.
  rewrite bool_decide_eq_true_2 by reflexivity. run_step.
  unfold StdList.setNext, StdList.setPrev, StdList.add_size.
  run_step. run_step. run_step. run_step.
  erewrite run_bind by (apply run_set_begin_if; lookup_solver). heap_simpl.
  unfold StdList.ret. rewrite !list_insert_insert_eq. reflexivity.
Qed.

Lemma erase_list_at (h : Heap) this e rs1 r rs2 xs1 x xs2 fuel :
  length rs1 = length xs1 → (2 ≤ fuel)%nat →
  list_at h this e (rs1 ++ r :: rs2) (xs1 ++ x :: xs2) →
  ∃ h', StdList.erase_by_iterator T fuel this (Some r) h
        = StdList.Ret (Some (default e (head rs2))) h' ∧
        StdList.containers h' !! this
        = Some (StdList.mkList
                  (if bool_decide (rs1 ++ rs2 = []) then Some e
                   else Some (default e (head (rs1 ++ r :: rs2))))
                  (Some e) (Some (Z.of_nat (length (xs1 ++ xs2))))) ∧
        StdList.iterators h' !! e
        = Some (StdList.mkIt this (Some (default e (last (rs1 ++ rs2))))
                  (Some (default e (head (rs1 ++ rs2)))) null) ∧
        seg h' this e (rs1 ++ rs2) (xs1 ++ xs2) e ∧
        StdList.iterators h' !! r = StdList.iterators h !! r ∧
        length (StdList.iterators h') = length (StdList.iterators h) ∧
        (∀ r', r' ∉ e :: rs1 ++ rs2 →
               StdList.iterators h' !! r' = StdList.iterators h !! r') ∧
        (∀ j, j ≠ this → StdList.containers h' !! j = StdList.containers h !! j).
Proof.
  intros Hlen Hf Hl. pose proof Hl as (Hc & He & Hs & Hnd).
  pose proof (lookup_lt_Some _ _ _ Hc) as Hthis.
  pose proof (lookup_lt_Some _ _ _ He) as Helt.
  pose proof (seg_length _ _ _ _ _ _ Hs) as Hlens.
  apply (seg_app _ _ _ _ _ _ _ _ Hlen) in Hs as [Hs1 Hs2].
  destruct Hs2 as [Hr Hs2]. cbn [head default from_option id] in Hs1.
  apply NoDup_cons in Hnd as [Hend Hnd].
  apply NoDup_app in Hnd as (Hnd1 & Hdisj & Hnd2).
  apply NoDup_cons in Hnd2 as [Hr2 Hnd2].
  assert (e ∉ rs1) as He1 by (intros ?; apply Hend, elem_of_app; now left).
  assert (e ≠ r) as Her.
  { intros ->. apply Hend, elem_of_app. right. apply elem_of_cons. now left. }
  assert (e ∉ rs2) as He2.
  { intros ?. apply Hend, elem_of_app. right. apply elem_of_cons. now right. }
  assert (r ∉ rs1) as Hr1.
  { intros Hin. apply (Hdisj r Hin). apply elem_of_cons. now left. }
  assert (∀ y, y ∈ rs1 → y ∉ rs2) as Hdisj'.
  { intros y H1 H2. apply (Hdisj y H1). apply elem_of_cons. now right. }
  remember (default e (last rs1)) as prv eqn:Hprvdef in *.
  remember (default e (head rs2)) as nx eqn:Hnxdef in *.
  assert (rs1 ≠ [] → prv ∈ rs1) as Hprv1
    by (rewrite Hprvdef; apply default_last_elem).
  assert (rs2 ≠ [] → nx ∈ rs2) as Hnx2
    by (rewrite Hnxdef; apply default_head_elem).
  assert (rs1 = [] → prv = e) as Hprv0
    by (intros H1; rewrite Hprvdef, H1; reflexivity).
  assert (rs2 = [] → nx = e) as Hnx0
    by (intros H2; rewrite Hnxdef, H2; reflexivity).
  assert (r ≠ nx) as Hrnx.
  { intros Heq. destruct (decide (rs2 = [])) as [H2|H2].
    - apply Her. now rewrite Heq, (Hnx0 H2).
    - apply Hr2. rewrite Heq. auto. }
  assert (r ≠ prv) as Hrprv.
  { intros Heq. destruct (decide (rs1 = [])) as [H1|H1].
    - apply Her. now rewrite Heq, (Hprv0 H1).
    - apply Hr1. rewrite Heq. auto. }
  assert (∃ nprv, StdList.iterators h !! prv = Some nprv ∧
                  StdList.source_ nprv = this ∧ StdList.next_ nprv = Some r)
    as (nprv & Hprv & Hprvsrc & Hprvnext).
  { destruct (last rs1) as [l0|] eqn:Hlast.
    - destruct (seg_last_node _ _ _ _ _ _ _ Hs1 Hlast) as (n & Hn & Hsrc & Hnext).
      exists n. rewrite Hprvdef, ?Hlast. auto.
    - apply last_None in Hlast. rewrite (Hprv0 Hlast). subst rs1.
      eexists. split; [exact He|]. split; reflexivity. }
  assert (∃ nnx, StdList.iterators h !! nx = Some nnx ∧
                 StdList.source_ nnx = this ∧ StdList.prev_ nnx = Some r)
    as (nnx & Hnx & Hnxsrc & Hnxprev).
  { destruct rs2 as [|r2 rs2].
    - rewrite (Hnx0 eq_refl). eexists. split; [exact He|].
      split; [reflexivity|]. cbn [StdList.prev_]. now rewrite last_snoc.
    - destruct xs2 as [|x2 xs2]; [destruct Hs2|]. destruct Hs2 as [Hr2' Hs2].
      rewrite Hnxdef. eexists. split; [exact Hr2'|]. split; reflexivity. }
  assert (length (xs1 ++ x :: xs2) = S (length (xs1 ++ xs2))) as Hlenx.
  { rewrite !length_app. cbn. lia. }
  rewrite Hlenx in Hc.
  assert (Z.add (-1) <$> Some (Z.of_nat (S (length (xs1 ++ xs2))))
          = Some (Z.of_nat (length (xs1 ++ xs2)))) as Hsize.
  { cbn [fmap option_fmap option_map]. f_equal. lia. }
  assert (bool_decide (Some (Z.of_nat (length (xs1 ++ xs2))) = Some 0)
          = bool_decide (rs1 ++ rs2 = [])) as Hempty.
  { assert (length (rs1 ++ rs2) = length (xs1 ++ xs2)) as Hl2.
    { rewrite !length_app in *. cbn in Hlens. lia. }
    apply bool_decide_ext. split.
    - intros [= H0]. apply length_zero_iff_nil. lia.
    - intros H0. rewrite <- Hl2, H0. reflexivity. }
  destruct (decide (prv = nx)) as [Heq|Hpn].
  - (* [r] is the only element *)
    assert (rs1 = []) as H1.
    { destruct (decide (rs1 = [])) as [|H1]; [assumption|exfalso].
      destruct (decide (rs2 = [])) as [H2|H2].
      - apply He1. rewrite <- (Hnx0 H2), <- Heq. auto.
      - apply (Hdisj' prv); [auto|]. rewrite Heq. auto. }
    assert (rs2 = []) as H2.
    { destruct (decide (rs2 = [])) as [|H2]; [assumption|exfalso].
      apply He2. rewrite <- (Hprv0 H1), Heq. auto. }
    subst rs1 rs2. rewrite (Hprv0 eq_refl) in *. rewrite (Hnx0 eq_refl) in *.
    erewrite erase_by_iterator_run_single;
      [|exact Hc|exact Hr|reflexivity..|exact Hnx|exact Hnxsrc|congruence|exact Hf].
    heap_simpl. rewrite Hsize, Hempty.
    eexists. split; [reflexivity|]. heap_simpl.
    destruct xs1; [|discriminate]. destruct xs2; [|discriminate].
    cbn [app] in *.
    rewrite bool_decide_eq_true_2 by reflexivity.
    split; [now rewrite list_lookup_insert_eq by lia|].
    split.
    { rewrite list_lookup_insert_eq by lia. rewrite He in Hnx.
      injection Hnx as <-. reflexivity. }
    split; [exact I|].
    split; [now rewrite list_lookup_insert_ne by congruence|].
    split; [now rewrite length_insert|].
    split.
    + intros r' Hnot. rewrite list_lookup_insert_ne; [reflexivity|].
      intros <-. apply Hnot, elem_of_cons. now left.
    + intros j Hj. now rewrite list_lookup_insert_ne by congruence.
  - (* another element remains *)
    erewrite erase_by_iterator_run;
      [|exact Hc|exact Hr|reflexivity..|exact Hprv|exact Hnx|exact Hnxsrc|
       exact Hrnx|exact Hpn|exact Hf].
    heap_simpl. rewrite Hsize, Hempty.
    set (its' := <[nx := _]> (<[prv := _]> _)).
    pose proof (lookup_lt_Some _ _ _ Hprv) as Hprvlt.
    pose proof (lookup_lt_Some _ _ _ Hnx) as Hnxlt.
    assert (∀ r', r' ≠ prv → r' ≠ nx →
                  its' !! r' = StdList.iterators h !! r') as L1.
    { intros r' H1 H2. unfold its'.
      now rewrite !list_lookup_insert_ne by congruence. }
    assert (its' !! prv = Some (StdList.mkIt (StdList.source_ nprv)
              (StdList.prev_ nprv) (Some nx) (StdList.value_ nprv))) as L2.
    { unfold its'. rewrite list_lookup_insert_ne by congruence.
      now rewrite list_lookup_insert_eq by lia. }
    assert (its' !! nx = Some (StdList.mkIt (StdList.source_ nnx) (Some prv)
              (StdList.next_ nnx) (StdList.value_ nnx))) as L3.
    { unfold its'. rewrite list_lookup_insert_eq; [reflexivity|].
      now rewrite length_insert. }
    assert (length its' = length (StdList.iterators h)) as Hlen'.
    { unfold its'. now rewrite !length_insert. }
    clearbody its'.
    assert (rs1 ++ rs2 ≠ []) as Hrest.
    { intros H0. apply app_eq_nil in H0 as [H1 H2]. apply Hpn.
      now rewrite (Hprv0 H1), (Hnx0 H2). }
    eexists. split; [reflexivity|]. heap_simpl.
    rewrite !(bool_decide_eq_false_2 _ Hrest).
    split; [now rewrite list_lookup_insert_eq by lia|].
    split; [|split; [|split; [|split; [|split]]]].
    + destruct (decide (rs1 = [])) as [H1|H1];
        destruct (decide (rs2 = [])) as [H2|H2].
      * exfalso. apply Hrest. now rewrite H1, H2.
      * rewrite (Hprv0 H1) in L2, Hprv. rewrite L2. rewrite He in Hprv.
        injection Hprv as <-. heap_simpl. rewrite H1. cbn [app].
        rewrite Hnxdef. destruct rs2 as [|r2 rs2]; [contradiction|]. reflexivity.
      * rewrite (Hnx0 H2) in L3, Hnx. rewrite L3. rewrite He in Hnx.
        injection Hnx as <-. heap_simpl. rewrite H2, app_nil_r, Hprvdef.
        destruct rs1 as [|r1 rs1]; [contradiction|]. reflexivity.
      * rewrite L1.
        -- rewrite last_app_default, head_app_default in He |- *.
           destruct rs1 as [|r1 rs1]; [contradiction|].
           destruct rs2 as [|r2 rs2]; [contradiction|]. exact He.
        -- intros Heq. apply He1. rewrite Heq. auto.
        -- intros Heq. apply He2. rewrite Heq. auto.
    + apply (seg_app _ _ _ _ _ _ _ _ Hlen). rewrite <- Hprvdef, <- Hnxdef. split.
      * eapply seg_retarget_next; [exact Hs1|exact Hnd1| |].
        -- intros r' Hr' Hlast. apply L1.
           ++ intros Heq. apply Hlast. rewrite Heq, Hprvdef.
              destruct (last rs1) eqn:Hl1; [reflexivity|].
              apply last_None in Hl1. rewrite Hl1 in Hr'.
              now apply elem_of_nil in Hr'.
           ++ intros ->. destruct (decide (rs2 = [])) as [H2|H2].
              ** apply He1. now rewrite <- (Hnx0 H2).
              ** apply (Hdisj' nx); auto.
        -- intros l0 n Hlast Hn. rewrite Hlast in Hprvdef.
           cbn [default from_option id] in Hprvdef. subst l0.
           rewrite Hprv in Hn. injection Hn as <-. exact L2.
      * eapply seg_retarget_prev; [exact Hs2|exact Hnd2| |].
        -- intros r' Hr' Hhead. apply L1.
           ++ intros ->. destruct (decide (rs1 = [])) as [H1|H1].
              ** apply He2. now rewrite <- (Hprv0 H1).
              ** apply (Hdisj' prv); auto.
           ++ intros Heq. apply Hhead. rewrite Heq, Hnxdef.
              destruct rs2; [now apply elem_of_nil in Hr'|reflexivity].
        -- intros f n Hhead Hn. rewrite Hhead in Hnxdef.
           cbn [default from_option id] in Hnxdef. subst f.
           rewrite Hnx in Hn. injection Hn as <-. exact L3.
    + apply L1; congruence.
    + exact Hlen'.
    + intros r' Hnot. apply L1.
      * intros ->. apply Hnot. destruct (decide (rs1 = [])) as [H1|H1].
        -- rewrite (Hprv0 H1). apply elem_of_cons. now left.
        -- apply elem_of_cons. right. apply elem_of_app. left. auto.
      * intros ->. apply Hnot. destruct (decide (rs2 = [])) as [H2|H2].
        -- rewrite (Hnx0 H2). apply elem_of_cons. now left.
        -- apply elem_of_cons. right. apply elem_of_app. right. auto.
    + intros j Hj. now rewrite list_lookup_insert_ne by congruence.
Qed.

(** ** The operations on well-formed lists *)

Lemma head_drop_lookup {A} (l : list A) (i : nat) : head (drop i l) = l !! i.
Proof. revert i. induction l as [|a l IH]; intros [|i]; cbn; auto. Qed.

(** X13.  [clear()] on any list object, whatever state it is in, returns
    and leaves it a well-formed empty list: a fresh sentinel linked to
    itself, [begin_ = end_] and [size_ = 0].  Every other well-formed
    list of the heap keeps its elements. *)
Theorem X13_clear_gives_an_empty_list (h : Heap) this l :
  StdList.containers h !! this = Some l →
  ∃ h', StdList.clear T null this h = StdList.Ret tt h' ∧
        StdList.is_list T null h' this [] ∧
        ∀ b ys, b ≠ this → StdList.is_list T null h b ys →
                StdList.is_list T null h' b ys.
Proof.
  intros Hc.
  destruct (clear_list_at h this l Hc) as (h' & Hrun & Hl & Hlen & Hit & Hcs & _).
  exists h'. split; [exact Hrun|]. split; [eexists _, _; exact Hl|].
  intros b ys Hb (eb & rsb & Hlb). exists eb, rsb.
  eapply list_at_frame; [exact Hlb|now apply Hcs|].
  intros r Hr. apply Hit. eapply list_at_lt; eauto.
Qed.

(** X14.  [push(...items)] on a well-formed list appends the items in
    order (one [push_back] each), returns the new size and leaves the
    list well-formed; the other lists of the heap are untouched. *)
Theorem X14_push_appends (h : Heap) this xs items :
  StdList.is_list T null h this xs →
  ∃ h', StdList.push T this items h
        = StdList.Ret (Some (Z.of_nat (length xs + length items))) h' ∧
        StdList.is_list T null h' this (xs ++ items) ∧
        ∀ b ys, b ≠ this → StdList.is_list T null h b ys →
                StdList.is_list T null h' b ys.
Proof.
  intros (e & rs & Hl).
  destruct (push_list_at items h this e rs xs Hl)
    as (h' & rs' & Hrun & Hl' & _ & Hit & Hcs & _).
  exists h'. rewrite length_app in Hrun. split; [exact Hrun|].
  split; [eexists _, _; exact Hl'|].
  eapply frame_other; eauto.
Qed.

(** X15.  [new List(items)] always returns: the new object is a
    well-formed list holding exactly [items], and the lists that existed
    before keep their elements. *)
Theorem X15_array_constructor (h : Heap) fuel items :
  ∃ h', StdList.constructor T null fuel (StdList.FromArray T items) h
        = StdList.Ret (length (StdList.containers h)) h' ∧
        StdList.is_list T null h' (length (StdList.containers h)) items ∧
        ∀ b ys, StdList.is_list T null h b ys → StdList.is_list T null h' b ys.
Proof.
  set (this := length (StdList.containers h)).
  set (h0 := StdList.mkHeap (StdList.iterators h)
               (StdList.containers h ++ [StdList.mkList None None None])).
  assert (StdList.containers h0 !! this = Some (StdList.mkList None None None)) as Hc0.
  { unfold h0, this. cbn. now apply list_lookup_middle. }
  destruct (clear_list_at h0 this _ Hc0) as (h1 & Hclear & Hl1 & Hlen1 & Hit1 & Hcs1 & Hcl1).
  destruct (push_list_at items h1 this _ [] [] Hl1)
    as (h' & rs' & Hpush & Hl' & Hlen' & Hit' & Hcs' & Hcl').
  exists h'. split; [|split].
  - unfold StdList.constructor.
    erewrite run_bind by (unfold StdList.newList; reflexivity).
    fold this. fold h0. rewrite bind_assoc. erewrite run_bind by exact Hclear.
    rewrite bind_assoc. erewrite run_bind by exact Hpush. reflexivity.
  - exists (length (StdList.iterators h0)), ([] ++ rs'). exact Hl'.
  - intros b ys (eb & rsb & Hlb). exists eb, rsb.
    pose proof Hlb as (Hcb & _).
    pose proof (lookup_lt_Some _ _ _ Hcb) as Hblt. fold this in Hblt.
    assert (∀ r, r ∈ eb :: rsb → (r < length (StdList.iterators h))%nat) as Hrs.
    { intros r Hr. eapply list_at_lt; eauto. }
    eapply list_at_frame; [exact Hlb| |].
    + rewrite Hcs', Hcs1 by lia. unfold h0. cbn. now apply lookup_app_l.
    + intros r Hr. pose proof (Hrs r Hr) as Hlt.
      rewrite Hit'; [now apply Hit1| |].
      * rewrite Hlen1. unfold h0. cbn. lia.
      * intros Hin. apply elem_of_cons in Hin as [->|Hin];
          [unfold h0 in Hlt; cbn in Hlt; lia|now apply elem_of_nil in Hin].
Qed.

(** X16.  On a well-formed list the walk from [begin()] to [end()] meets
    exactly its elements, [size()] is their number, [empty()] tells
    whether there is none, and [front()] and [back()] are the first and
    the last element.  On an empty list [front()] and [back()] raise
    nothing: they return the [null] stored in the sentinel. *)
Theorem X16_accessors_read_the_list (h : Heap) this xs :
  StdList.is_list T null h this xs →
  (∀ fuel, (length xs < fuel)%nat →
           StdList.elements T fuel this h = StdList.Ret xs h) ∧
  StdList.size T this h = StdList.Ret (Some (Z.of_nat (length xs))) h ∧
  StdList.empty T this h = StdList.Ret (bool_decide (xs = [])) h ∧
  StdList.front T this h = StdList.Ret (default null (head xs)) h ∧
  StdList.back T this h = StdList.Ret (default null (last xs)) h.
Proof.
  intros (e & rs & Hl). split; [|split; [|split; [|split]]].
  - intros fuel Hf. eapply elements_list_at; eauto.
  - eapply size_list_at; eauto.
  - pose proof Hl as (Hc & _). rewrite (run_empty _ _ _ Hc). heap_simpl.
    f_equal. apply bool_decide_ext. split.
    + intros [= H0]. destruct xs; [reflexivity|cbn in H0; lia].
    + now intros ->.
  - eapply front_list_at; eauto.
  - eapply back_list_at; eauto.
Qed.

(** X17.  [insert(position, val)] on a well-formed list, with [position]
    the node at index [i] (or [end()] for [i = size()]): the value is
    placed at index [i], the returned iterator is the new node, the list
    stays well-formed (in particular [begin_] moves when [i = 0]) and the
    other lists are untouched. *)
Theorem X17_insert_puts_the_value_before_position
    (h : Heap) fuel this e rs xs (i : nat) v :
  StdList.list_at T null h this e rs xs → (i ≤ length rs)%nat →
  ∃ h' r, StdList.insert T fuel this
            (StdList.InsertVal T (Some (default e (rs !! i))) v) h
          = StdList.Ret (Some r) h' ∧
          StdList.list_at T null h' this e
            (take i rs ++ r :: drop i rs) (take i xs ++ v :: drop i xs) ∧
          ∀ b ys, b ≠ this → StdList.is_list T null h b ys →
                  StdList.is_list T null h' b ys.
Proof.
  intros Hl Hi. pose proof Hl as (_ & _ & Hs & _).
  pose proof (seg_length _ _ _ _ _ _ Hs) as Hlen.
  assert (length (take i rs) = length (take i xs)) as Hlen'.
  { rewrite !length_take. lia. }
  pose proof Hl as Hl0.
  rewrite <- (take_drop i rs), <- (take_drop i xs) in Hl.
  destruct (insert_by_val_list_at h this e _ _ _ _ v Hlen' Hl)
    as (h' & Hrun & Hl' & Hit & Hcs).
  rewrite head_drop_lookup in Hrun.
  exists h', (length (StdList.iterators h)). split; [exact Hrun|].
  split; [exact Hl'|].
  eapply frame_other; [exact Hl0| |exact Hcs].
  intros r Hr Hnot. apply Hit; [exact Hr|]. now rewrite take_drop.
Qed.

(** X18.  [erase(position)] at an index [i > 0] of a well-formed list
    removes exactly that element, returns the position after it and
    leaves the list well-formed; the other lists are untouched. *)
Theorem X18_erase_removes_a_later_element
    (h : Heap) fuel this e rs xs (i : nat) r :
  StdList.list_at T null h this e rs xs → rs !! i = Some r →
  (0 < i)%nat → (2 ≤ fuel)%nat →
  ∃ h', StdList.erase T fuel this (StdList.ErasePosition (Some r)) h
        = StdList.Ret (Some (default e (rs !! S i))) h' ∧
        StdList.list_at T null h' this e (delete i rs) (delete i xs) ∧
        ∀ b ys, b ≠ this → StdList.is_list T null h b ys →
                StdList.is_list T null h' b ys.
Proof.
  intros Hl Hr Hi Hf. pose proof Hl as (_ & _ & Hs & Hnd).
  pose proof (seg_length _ _ _ _ _ _ Hs) as Hlen.
  pose proof (lookup_lt_Some _ _ _ Hr) as Hilt.
  destruct (lookup_lt_is_Some_2 xs i) as [x Hx]; [lia|].
  assert (length (take i rs) = length (take i xs)) as Hlen'.
  { rewrite !length_take. lia. }
  pose proof Hl as Hl0.
  rewrite <- (take_drop_middle rs i r Hr), <- (take_drop_middle xs i x Hx) in Hl.
  destruct (erase_list_at h this e _ _ _ _ _ _ fuel Hlen' Hf Hl)
    as (h' & Hrun & Hc' & He' & Hs' & _ & _ & Hit & Hcs).
  rewrite head_drop_lookup in Hrun.
  assert (take i rs ≠ []) as Hne.
  { destruct rs; [discriminate|]. destruct i; [lia|]. discriminate. }
  exists h'. split; [exact Hrun|]. split.
  - rewrite !delete_take_drop. split; [|split; [|split]].
    + rewrite Hc'. rewrite bool_decide_eq_false_2.
      * rewrite !head_app_default.
        destruct (take i rs); [contradiction|]. reflexivity.
      * intros H0. apply app_eq_nil in H0 as [H0 _]. contradiction.
    + exact He'.
    + exact Hs'.
    + rewrite <- (take_drop_middle rs i r Hr) in Hnd.
      apply NoDup_cons in Hnd as [Hend Hnd]. apply NoDup_cons. split.
      * intros Hin. apply Hend. apply elem_of_app in Hin as [Hin|Hin];
          apply elem_of_app; [now left|right].
        apply elem_of_cons. now right.
      * apply NoDup_app in Hnd as (H1 & H2 & H3).
        apply NoDup_cons in H3 as [_ H3]. apply NoDup_app.
        split; [exact H1|]. split; [|exact H3].
        intros y Hy Hy'. apply (H2 y Hy). apply elem_of_cons. now right.
  - eapply frame_other; [exact Hl0| |exact Hcs].
    intros r' _ Hnot. apply Hit. intros Hin. apply Hnot.
    rewrite <- (take_drop_middle rs i r Hr).
    apply elem_of_cons in Hin as [->|Hin]; [apply elem_of_cons; now left|].
    apply elem_of_cons. right.
    apply elem_of_app in Hin as [Hin|Hin]; apply elem_of_app; [now left|right].
    apply elem_of_cons. now right.
Qed.

(** X19.  [pop_back()] on a non-empty well-formed list removes the last
    element and leaves a well-formed list, also when that element was the
    only one. *)
Theorem X19_pop_back_removes_the_last_element (h : Heap) fuel this xs x :
  StdList.is_list T null h this (xs ++ [x]) → (2 ≤ fuel)%nat →
  ∃ h', StdList.pop_back T fuel this h = StdList.Ret tt h' ∧
        StdList.is_list T null h' this xs ∧
        ∀ b ys, b ≠ this → StdList.is_list T null h b ys →
                StdList.is_list T null h' b ys.
Proof.
  intros (e & rs & Hl) Hf. pose proof Hl as (Hc & He & Hs & Hnd).
  pose proof (seg_length _ _ _ _ _ _ Hs) as Hlen.
  assert (rs ≠ []) as Hrs.
  { intros ->. rewrite length_app in Hlen. cbn in Hlen. lia. }
  destruct (exists_last Hrs) as (rs1 & r & ->).
  assert (length rs1 = length xs) as Hlen1.
  { rewrite !length_app in Hlen. cbn in Hlen. lia. }
  destruct (erase_list_at h this e rs1 r [] xs x [] fuel Hlen1 Hf Hl)
    as (h' & Hrun & Hc' & He' & Hs' & _ & _ & Hit & Hcs).
  exists h'. split; [|split].
  - unfold StdList.pop_back. run_step. run_step.
    rewrite last_snoc. cbn [default from_option id StdList.erase].
    erewrite run_bind by exact Hrun. reflexivity.
  - exists e, rs1. rewrite !app_nil_r in *. split; [|split; [|split]].
    + rewrite Hc'. destruct rs1 as [|r1 rs1].
      * now rewrite bool_decide_eq_true_2 by reflexivity.
      * now rewrite bool_decide_eq_false_2 by discriminate.
    + exact He'.
    + exact Hs'.
    + apply NoDup_cons in Hnd as [Hend Hnd]. apply NoDup_cons. split.
      * intros Hin. apply Hend, elem_of_app. now left.
      * now apply NoDup_app in Hnd as (H1 & _ & _).
  - eapply frame_other; [exact Hl| |exact Hcs].
    intros r' _ Hnot. apply Hit. intros Hin. apply Hnot.
    rewrite app_nil_r in Hin.
    apply elem_of_cons in Hin as [->|Hin]; [apply elem_of_cons; now left|].
    apply elem_of_cons. right. apply elem_of_app. now left.
Qed.

(** X20.  [pop_front()] on a well-formed list of two or more elements:
    [size()] drops by one, yet [begin_] still points at the unlinked
    node, so [front()] returns the removed value and the walk from
    [begin()] still meets every old element. *)
Theorem X20_pop_front_leaves_begin_on_the_removed_node
    (h : Heap) fuel this x x2 xs :
  StdList.is_list T null h this (x :: x2 :: xs) → (2 ≤ fuel)%nat →
  ∃ h', StdList.pop_front T fuel this h = StdList.Ret tt h' ∧
        StdList.size T this h' = StdList.Ret (Some (Z.of_nat (length (x2 :: xs)))) h' ∧
        StdList.front T this h' = StdList.Ret x h' ∧
        ∀ fuel', (length (x :: x2 :: xs) < fuel')%nat →
                 StdList.elements T fuel' this h' = StdList.Ret (x :: x2 :: xs) h'.
Proof.
  intros (e & rs & Hl) Hf. pose proof Hl as (Hc & He & Hs & Hnd).
  destruct rs as [|r [|r2 rs]]; try (cbn in Hs; tauto).
  pose proof Hs as [Hr _].
  destruct (erase_list_at h this e [] r (r2 :: rs) [] x (x2 :: xs) fuel eq_refl Hf Hl)
    as (h' & Hrun & Hc' & He' & Hs' & Hr' & _ & _ & _).
  rewrite bool_decide_eq_false_2 in Hc' by discriminate.
  cbn [app head default from_option id] in *. rewrite Hr in Hr'.
  apply NoDup_cons in Hnd as [Hend Hnd]. apply NoDup_cons in Hnd as [Hr2 Hnd].
  exists h'. split; [|split; [|split]].
  - unfold StdList.pop_front. run_step. cbn [StdList.erase].
    erewrite run_bind by exact Hrun. reflexivity.
  - now rewrite (run_size _ _ _ _ Hc').
  - unfold StdList.front. run_step. now rewrite (run_value _ _ _ Hr').
  - intros fuel' Hf'. unfold StdList.elements. run_step. run_step.
    destruct fuel' as [|fuel']; [cbn in Hf'; lia|].
    cbn [StdList.vector_of_range]. run_step.
    rewrite bool_decide_eq_false_2.
    2:{ intros [= ->]. apply Hend. apply elem_of_cons. now left. }
    run_step. run_step.
    erewrite run_bind.
    2:{ apply (walk_seg h' this e (r2 :: rs) (x2 :: xs) e fuel' Hs').
        - intros Hin. apply Hend. apply elem_of_cons. now right.
        - pose proof (seg_length _ _ _ _ _ _ Hs'). cbn in *. lia. }
    reflexivity.
Qed.

(** X21.  [insert(position, n, val)] with [n <= 0] on a non-empty
    well-formed list: no node is built, [first] stays [null], and
    [first.prev()] raises a TypeError; the heap is unchanged. *)
Theorem X21_insert_of_no_element_raises_TypeError
    (h : Heap) fuel this e rs xs p size val :
  StdList.list_at T null h this e rs xs → xs ≠ [] → p ∈ e :: rs → size ≤ 0 →
  StdList.insert T fuel this (StdList.InsertRepeat T (Some p) size val) h
  = StdList.Throw StdList.TypeError h.
Proof.
  intros Hl Hxs Hp Hsize. pose proof Hl as (Hc & _).
  destruct (list_at_source _ _ _ _ _ _ Hl Hp) as (n & Hn & Hsrc).
  cbn [StdList.insert]. unfold StdList.insertByRepeatingVal.
  erewrite run_bind by (apply get_source_at; exact Hn).
  rewrite bool_decide_eq_true_2 by congruence. cbn [negb].
  erewrite run_bind by (apply run_prev; exact Hn).
  replace (Z.to_nat size) with 0%nat by lia. cbn [StdList.repeating_loop].
  erewrite run_bind by reflexivity. cbn [fst snd].
  erewrite run_bind by (apply run_empty; exact Hc). heap_simpl.
  rewrite bool_decide_eq_false_2; [reflexivity|].
  intros [= H0]. destruct xs; [congruence|cbn in H0; lia].
Qed.

(** X22.  [swap] of two distinct well-formed lists exchanges elements
    and sizes, but the nodes keep the [source] they were built with:
    afterwards [insert] and [erase] at the list's own [begin()] are
    refused with [InvalidArgument]. *)
Theorem X22_swap_exchanges_contents_but_not_ownership
    (h : Heap) a b xs ys :
  a ≠ b → StdList.is_list T null h a xs → StdList.is_list T null h b ys →
  ∃ h' p, StdList.swap_list T a b h = StdList.Ret tt h' ∧
    (∀ fuel, (length ys < fuel)%nat →
             StdList.elements T fuel a h' = StdList.Ret ys h') ∧
    (∀ fuel, (length xs < fuel)%nat →
             StdList.elements T fuel b h' = StdList.Ret xs h') ∧
    StdList.size T a h' = StdList.Ret (Some (Z.of_nat (length ys))) h' ∧
    StdList.size T b h' = StdList.Ret (Some (Z.of_nat (length xs))) h' ∧
    StdList.begin T a h' = StdList.Ret (Some p) h' ∧
    (∀ fuel v, StdList.insert T fuel a (StdList.InsertVal T (Some p) v) h'
               = StdList.Throw StdList.InvalidArgument h') ∧
    (∀ fuel, StdList.erase T fuel a (StdList.ErasePosition (Some p)) h'
             = StdList.Throw StdList.InvalidArgument h').
Proof.
  intros Hab (ea & rsa & Hla) (eb & rsb & Hlb).
  pose proof Hla as (Hca & Hea & Hsa & Hnda).
  pose proof Hlb as (Hcb & Heb & Hsb & Hndb).
  pose proof (lookup_lt_Some _ _ _ Hca) as Halt.
  pose proof (lookup_lt_Some _ _ _ Hcb) as Hblt.
  rewrite (swap_list_run _ _ _ _ _ Hab Hca Hcb).
  eexists _, (default eb (head rsb)). split; [reflexivity|].
  set (h' := StdList.mkHeap _ _).
  assert (StdList.containers h' !! a
          = Some (StdList.mkList (Some (default eb (head rsb))) (Some eb)
                    (Some (Z.of_nat (length ys))))) as Hca'.
  { unfold h'. heap_simpl. rewrite list_lookup_insert_ne by congruence.
    now rewrite list_lookup_insert_eq by lia. }
  assert (StdList.containers h' !! b
          = Some (StdList.mkList (Some (default ea (head rsa))) (Some ea)
                    (Some (Z.of_nat (length xs))))) as Hcb'.
  { unfold h'. heap_simpl. now rewrite list_lookup_insert_eq by (length_simpl; lia). }
  assert (∃ n, StdList.iterators h' !! default eb (head rsb) = Some n ∧
               StdList.source_ n ≠ a) as (n & Hn & Hsrc).
  { destruct (list_at_source h b eb rsb ys (default eb (head rsb)) Hlb)
      as (n & Hn & Hsrc).
    - destruct rsb; [apply elem_of_cons; now left|].
      apply elem_of_cons. right. apply elem_of_cons. now left.
    - exists n. split; [exact Hn|congruence]. }
  split; [|split; [|split; [|split; [|split; [|split]]]]].
  - intros fuel Hf. unfold StdList.elements. run_step. run_step.
    apply walk_seg with (this := b) (p := eb);
      [eapply seg_frame; [exact Hsb|reflexivity]| |].
    + now apply NoDup_cons in Hndb.
    + now rewrite (seg_length _ _ _ _ _ _ Hsb).
  - intros fuel Hf. unfold StdList.elements. run_step. run_step.
    apply walk_seg with (this := a) (p := ea);
      [eapply seg_frame; [exact Hsa|reflexivity]| |].
    + now apply NoDup_cons in Hnda.
    + now rewrite (seg_length _ _ _ _ _ _ Hsa).
  - now rewrite (run_size _ _ _ _ Hca').
  - now rewrite (run_size _ _ _ _ Hcb').
  - now rewrite (run_begin _ _ _ _ Hca').
  - intros fuel v. cbn [StdList.insert]. unfold StdList.insert_by_val.
    now apply insertByRepeatingVal_foreign with n.
  - intros fuel. cbn [StdList.erase]. unfold StdList.erase_by_iterator.
    erewrite run_bind by (apply next_at; exact Hn).
    now apply erase_by_range_foreign_begin with n.
Qed.

Lemma unlinked_walk (h' : Heap) this b e' s x :
  StdList.containers h' !! this = Some (StdList.mkList (Some b) (Some e') s) →
  StdList.iterators h' !! b = Some (StdList.mkIt this None None x) → b ≠ e' →
  StdList.size T this h' = StdList.Ret s h' ∧
  StdList.front T this h' = StdList.Ret x h' ∧
  ∀ fuel', (2 ≤ fuel')%nat →
           StdList.elements T fuel' this h' = StdList.Throw StdList.TypeError h'.
Proof.
  intros Hc' Hb Hne. split; [|split].
  - now rewrite (run_size _ _ _ _ Hc').
  - unfold StdList.front. run_step. exact (run_value _ _ _ Hb).
  - intros fuel' Hf'. destruct fuel' as [|[|fuel']]; [lia|lia|].
    unfold StdList.elements. run_step. run_step.
    cbn [StdList.vector_of_range]. run_step.
    rewrite bool_decide_eq_false_2 by congruence.
    run_step. run_step. reflexivity.
Qed.

Lemma assign_range_heap (h : Heap) fuel this l x rest :
  StdList.containers h !! this = Some l → (length (x :: rest) < fuel)%nat →
  ∃ h' b e',
    StdList.assign T null fuel this (StdList.AssignRange T (x :: rest)) h
    = StdList.Ret tt h' ∧
    StdList.containers h' !! this
    = Some (StdList.mkList (Some b) (Some e')
              (Z.add (Z.of_nat (length (x :: rest))) <$> StdList.size_ l)) ∧
    StdList.iterators h' !! b = Some (StdList.mkIt this None None x) ∧ b ≠ e'.
Proof.
  intros Hc Hf. pose proof (lookup_lt_Some _ _ _ Hc) as Hthis.
  rewrite (assign_range_run h this l x rest fuel Hc Hf).
  eexists _, (length (StdList.iterators h)),
    (length (StdList.iterators h) + S (length rest))%nat.
  split; [reflexivity|]. heap_simpl. split; [|split; [|lia]].
  - now rewrite list_lookup_insert_eq by lia.
  - cbn [fmap list_fmap app]. now apply list_lookup_middle.
Qed.

(** X23.  [assign(begin, end)] over a non-empty range returns, but
    [prev] is never advanced, so no node is linked to the next one:
    [front()] is the first value, the walk from [begin()] raises a
    TypeError at the second step, and [size_] has grown by the length of
    the range instead of being set to it. *)
Theorem X23_assign_from_a_range_leaves_the_nodes_unlinked
    (h : Heap) fuel this l x rest :
  StdList.containers h !! this = Some l → (length (x :: rest) < fuel)%nat →
  ∃ h', StdList.assign T null fuel this (StdList.AssignRange T (x :: rest)) h
        = StdList.Ret tt h' ∧
        StdList.size T this h'
        = StdList.Ret (Z.add (Z.of_nat (length (x :: rest))) <$> StdList.size_ l) h' ∧
        StdList.front T this h' = StdList.Ret x h' ∧
        ∀ fuel', (2 ≤ fuel')%nat →
                 StdList.elements T fuel' this h'
                 = StdList.Throw StdList.TypeError h'.
Proof.
  intros Hc Hf.
  destruct (assign_range_heap h fuel this l x rest Hc Hf)
    as (h' & b & e' & Hrun & Hc' & Hb & Hne).
  exists h'. split; [exact Hrun|].
  exact (unlinked_walk h' this b e' _ x Hc' Hb Hne).
Qed.

(** ** unique, remove_if and remove *)

Variable std_equals : T → T → bool.

Lemma erase_list_at_wf (h : Heap) this e rs1 r rs2 xs1 x xs2 fuel :
  length rs1 = length xs1 → (2 ≤ fuel)%nat → rs1 ≠ [] ∨ rs2 = [] →
  list_at h this e (rs1 ++ r :: rs2) (xs1 ++ x :: xs2) →
  ∃ h', StdList.erase_by_iterator T fuel this (Some r) h
        = StdList.Ret (Some (default e (head rs2))) h' ∧
        list_at h' this e (rs1 ++ rs2) (xs1 ++ xs2) ∧
        (∀ r', r' ∉ e :: rs1 ++ r :: rs2 →
               StdList.iterators h' !! r' = StdList.iterators h !! r') ∧
        (∀ j, j ≠ this → StdList.containers h' !! j = StdList.containers h !! j).
Proof.
  intros Hlen Hf Hcase Hl. pose proof Hl as (_ & _ & _ & Hnd).
  destruct (erase_list_at h this e rs1 r rs2 xs1 x xs2 fuel Hlen Hf Hl)
    as (h' & Hrun & Hc' & He' & Hs' & _ & _ & Hit & Hcs).
  exists h'. split; [exact Hrun|]. split; [|split; [|exact Hcs]].
  - split; [|split; [|split]].
    + rewrite Hc'. destruct rs1 as [|r1 rs1].
      * destruct Hcase as [?| ->]; [contradiction|].
        now rewrite bool_decide_eq_true_2 by reflexivity.
      * now rewrite bool_decide_eq_false_2 by discriminate.
    + exact He'.
    + exact Hs'.
    + rewrite <- Permutation_middle in Hnd.
      apply NoDup_cons in Hnd as [Hend Hnd]. apply NoDup_cons in Hnd as [_ Hnd].
      apply NoDup_cons. split; [|exact Hnd].
      intros Hin. apply Hend. apply elem_of_cons. now right.
  - intros r' Hnot. apply Hit. intros Hin. apply Hnot.
    apply elem_of_cons in Hin as [->|Hin]; [apply elem_of_cons; now left|].
    apply elem_of_cons. right.
    apply elem_of_app in Hin as [Hin|Hin]; apply elem_of_app; [now left|right].
    apply elem_of_cons. now right.
Qed.

Lemma list_at_split_node (h : Heap) this e rs1 r rs2 xs1 xs2 :
  length rs1 = length xs1 →
  list_at h this e (rs1 ++ r :: rs2) (xs1 ++ xs2) →
  ∃ x xs2', xs2 = x :: xs2' ∧ r ≠ e ∧
    StdList.iterators h !! r
    = Some (StdList.mkIt this (Some (default e (last rs1)))
              (Some (default e (head rs2))) x) ∧
    seg h this e rs1 xs1 r.
Proof.
  intros Hlen (Hc & He & Hs & Hnd).
  apply (seg_app _ _ _ _ _ _ _ _ Hlen) in Hs as [Hs1 Hs2].
  destruct xs2 as [|x xs2']; [destruct Hs2|]. destruct Hs2 as [Hr _].
  exists x, xs2'. split; [reflexivity|]. split; [|split; [exact Hr|exact Hs1]].
  intros ->. apply NoDup_cons in Hnd as [Hend _]. apply Hend.
  apply elem_of_app. right. apply elem_of_cons. now left.
Qed.

Lemma unique_loop_list_at (rs2 : list StdList.ref) :
  ∀ (h : Heap) this e rs1 xs1 xs2 pv fuel,
  list_at h this e (rs1 ++ rs2) (xs1 ++ xs2) → length rs1 = length xs1 →
  last xs1 = Some pv → (length rs2 + 2 ≤ fuel)%nat →
  ∃ h' rs', StdList.unique_loop T std_equals fuel this
              (Some (default e (head rs2))) h = StdList.Ret tt h' ∧
        list_at h' this e (rs1 ++ rs')
          (xs1 ++ StdList.unique_from T std_equals pv xs2) ∧
        (∀ r', r' ∉ e :: rs1 ++ rs2 →
               StdList.iterators h' !! r' = StdList.iterators h !! r') ∧
        (∀ j, j ≠ this → StdList.containers h' !! j = StdList.containers h !! j).
Proof.
  induction rs2 as [|r rs2 IH]; intros h this e rs1 xs1 xs2 pv fuel Hl Hlen Hpv Hf;
    (destruct fuel as [|fuel]; [lia|]); pose proof Hl as (Hc & He & Hs & Hnd).
  - pose proof (seg_length _ _ _ _ _ _ Hs) as Hlens.
    assert (xs2 = []) as ->.
    { apply length_zero_iff_nil. rewrite !length_app in Hlens. cbn in Hlens. lia. }
    exists h, []. cbn [StdList.unique_loop head default from_option id].
    run_step. run_step. rewrite bool_decide_eq_true_2 by reflexivity.
    split; [reflexivity|]. split; [exact Hl|]. split; reflexivity.
  - destruct (list_at_split_node h this e rs1 r rs2 xs1 xs2 Hlen Hl)
      as (x & xs2' & -> & Hre & Hr & Hs1).
    assert (∃ l n, last rs1 = Some l ∧ StdList.iterators h !! l = Some n ∧
                   StdList.value_ n = pv) as (l & n & Hlast & Hn & Hval).
    { destruct (last rs1) as [l|] eqn:Hlast.
      - destruct (seg_last_value _ _ _ _ _ _ _ Hs1 Hlast) as (n & Hn & Hv).
        exists l, n. split; [reflexivity|]. split; [exact Hn|]. congruence.
      - apply last_None in Hlast. subst rs1. destruct xs1; discriminate. }
    rewrite Hlast in Hr. cbn [default from_option id] in Hr.
    cbn [StdList.unique_loop head default from_option id].
    run_step. run_step. rewrite bool_decide_eq_false_2 by congruence.
    run_step. run_step. run_step. rewrite Hval.
    cbn [StdList.unique_from].
    destruct (std_equals x pv) eqn:Heq.
    + destruct (erase_list_at_wf h this e rs1 r rs2 xs1 x xs2' fuel Hlen)
        as (h1 & Hrun & Hl1 & Hit1 & Hcs1); [cbn in Hf; lia| |exact Hl|].
      { left. intros ->. discriminate. }
      cbn [StdList.erase]. erewrite run_bind by exact Hrun.
      destruct (IH h1 this e rs1 xs1 xs2' pv fuel Hl1 Hlen Hpv)
        as (h' & rs' & Hrun' & Hl' & Hit' & Hcs'); [cbn in Hf; lia|].
      exists h', rs'. split; [exact Hrun'|]. split; [exact Hl'|]. split.
      * intros r' Hnot. rewrite Hit'; [now apply Hit1|].
        intros Hin. apply Hnot.
        apply elem_of_cons in Hin as [->|Hin]; [apply elem_of_cons; now left|].
        apply elem_of_cons. right.
        apply elem_of_app in Hin as [Hin|Hin]; apply elem_of_app; [now left|right].
        apply elem_of_cons. now right.
      * intros j Hj. rewrite Hcs' by exact Hj. now apply Hcs1.
    + run_step.
      destruct (IH h this e (rs1 ++ [r]) (xs1 ++ [x]) xs2' x fuel)
        as (h' & rs' & Hrun' & Hl' & Hit' & Hcs').
      * now rewrite <- !app_assoc.
      * rewrite !length_app. cbn. lia.
      * apply last_snoc.
      * cbn in Hf. lia.
      * exists h', (r :: rs'). split; [exact Hrun'|].
        rewrite <- (app_assoc rs1), <- (app_assoc xs1) in Hl'.
        rewrite <- (app_assoc rs1) in Hit'. cbn [app] in Hl', Hit'.
        split; [exact Hl'|]. split; [exact Hit'|exact Hcs'].
Qed.

Lemma remove_if_loop_list_at (pred : T → bool) (rs2 : list StdList.ref) :
  ∀ (h : Heap) this e rs1 xs1 xs2 fuel,
  list_at h this e (rs1 ++ rs2) (xs1 ++ xs2) → length rs1 = length xs1 →
  rs1 ≠ [] → (length rs2 + 2 ≤ fuel)%nat →
  ∃ h' rs', StdList.remove_if_loop T fuel this pred
              (Some (default e (head rs2))) h = StdList.Ret tt h' ∧
        list_at h' this e (rs1 ++ rs')
          (xs1 ++ List.filter (λ x, negb (pred x)) xs2) ∧
        (∀ r', r' ∉ e :: rs1 ++ rs2 →
               StdList.iterators h' !! r' = StdList.iterators h !! r') ∧
        (∀ j, j ≠ this → StdList.containers h' !! j = StdList.containers h !! j).
Proof.
  induction rs2 as [|r rs2 IH]; intros h this e rs1 xs1 xs2 fuel Hl Hlen Hrs1 Hf;
    (destruct fuel as [|fuel]; [lia|]); pose proof Hl as (Hc & He & Hs & Hnd).
  - pose proof (seg_length _ _ _ _ _ _ Hs) as Hlens.
    assert (xs2 = []) as ->.
    { apply length_zero_iff_nil. rewrite !length_app in Hlens. cbn in Hlens. lia. }
    exists h, []. cbn [StdList.remove_if_loop head default from_option id].
    run_step. run_step. rewrite bool_decide_eq_true_2 by reflexivity.
    split; [reflexivity|]. split; [exact Hl|]. split; reflexivity.
  - destruct (list_at_split_node h this e rs1 r rs2 xs1 xs2 Hlen Hl)
      as (x & xs2' & -> & Hre & Hr & Hs1).
    cbn [StdList.remove_if_loop head default from_option id].
    run_step. run_step. rewrite bool_decide_eq_false_2 by congruence.
    run_step. cbn [List.filter].
    destruct (pred x) eqn:Heq; cbn [negb].
    + destruct (erase_list_at_wf h this e rs1 r rs2 xs1 x xs2' fuel Hlen)
        as (h1 & Hrun & Hl1 & Hit1 & Hcs1); [cbn in Hf; lia|now left|exact Hl|].
      cbn [StdList.erase]. erewrite run_bind by exact Hrun.
      destruct (IH h1 this e rs1 xs1 xs2' fuel Hl1 Hlen Hrs1)
        as (h' & rs' & Hrun' & Hl' & Hit' & Hcs'); [cbn in Hf; lia|].
      exists h', rs'. split; [exact Hrun'|]. split; [exact Hl'|]. split.
      * intros r' Hnot. rewrite Hit'; [now apply Hit1|].
        intros Hin. apply Hnot.
        apply elem_of_cons in Hin as [->|Hin]; [apply elem_of_cons; now left|].
        apply elem_of_cons. right.
        apply elem_of_app in Hin as [Hin|Hin]; apply elem_of_app; [now left|right].
        apply elem_of_cons. now right.
      * intros j Hj. rewrite Hcs' by exact Hj. now apply Hcs1.
    + run_step.
      destruct (IH h this e (rs1 ++ [r]) (xs1 ++ [x]) xs2' fuel)
        as (h' & rs' & Hrun' & Hl' & Hit' & Hcs').
      * now rewrite <- !app_assoc.
      * rewrite !length_app. cbn. lia.
      * intros H0. apply app_eq_nil in H0 as [_ H0]. discriminate.
      * cbn in Hf. lia.
      * exists h', (r :: rs'). split; [exact Hrun'|].
        rewrite <- (app_assoc rs1), <- (app_assoc xs1) in Hl'.
        rewrite <- (app_assoc rs1) in Hit'. cbn [app] in Hl', Hit'.
        split; [exact Hl'|]. split; [exact Hit'|exact Hcs'].
Qed.

(** X24.  [unique(binary_pred)] on a well-formed list returns, keeps the
    list well-formed and leaves the first element of every run of
    neighbours that [std.equals] relates, whatever [binary_pred] is; the
    other lists are untouched. *)
Theorem X24_unique_keeps_one_of_each_run
    (h : Heap) fuel this (binary_pred : T → T → bool) xs :
  StdList.is_list T null h this xs → (length xs + 2 ≤ fuel)%nat →
  ∃ h', StdList.unique T std_equals fuel this binary_pred h = StdList.Ret tt h' ∧
        StdList.is_list T null h' this (StdList.unique_result T std_equals xs) ∧
        ∀ b ys, b ≠ this → StdList.is_list T null h b ys →
                StdList.is_list T null h' b ys.
Proof.
  intros (e & rs & Hl) Hf. pose proof Hl as (Hc & He & Hs & Hnd).
  unfold StdList.unique. run_step.
  destruct rs as [|r rs]; destruct xs as [|x xs]; try (cbn in Hs; tauto).
  - cbn [head default from_option id] in *. run_step.
    destruct fuel as [|fuel]; [cbn in Hf; lia|]. cbn [StdList.unique_loop].
    run_step. run_step. rewrite bool_decide_eq_true_2 by reflexivity.
    exists h. split; [reflexivity|]. split; [exists e, []; exact Hl|]. auto.
  - pose proof Hs as [Hr _]. cbn [head default from_option id] in *. run_step.
    destruct (unique_loop_list_at rs h this e [r] [x] xs x fuel Hl eq_refl eq_refl)
      as (h' & rs' & Hrun & Hl' & Hit & Hcs).
    { pose proof (seg_length _ _ _ _ _ _ Hs) as Hlen. cbn in Hf, Hlen. lia. }
    exists h'. split; [exact Hrun|]. split; [eexists _, _; exact Hl'|].
    eapply frame_other; [exact Hl| |exact Hcs]. intros r' _ Hnot. now apply Hit.
Qed.

Lemma remove_if_is_list (h : Heap) fuel this xs (pred : T → bool) :
  StdList.is_list T null h this xs → (length xs + 2 ≤ fuel)%nat →
  (∀ x, head xs = Some x → pred x = false) →
  ∃ h', StdList.remove_if T fuel this pred h = StdList.Ret tt h' ∧
        StdList.is_list T null h' this (List.filter (λ x, negb (pred x)) xs) ∧
        ∀ b ys, b ≠ this → StdList.is_list T null h b ys →
                StdList.is_list T null h' b ys.
Proof.
  intros (e & rs & Hl) Hf Hhead.
  pose proof Hl as (Hc & He & Hs & Hnd).
  unfold StdList.remove_if. run_step.
  destruct fuel as [|fuel]; [cbn in Hf; lia|]. cbn [StdList.remove_if_loop].
  destruct rs as [|r rs]; destruct xs as [|x xs]; try (cbn in Hs; tauto).
  - cbn [head default from_option id] in *.
    run_step. run_step. rewrite bool_decide_eq_true_2 by reflexivity.
    exists h. split; [reflexivity|]. split; [exists e, []; exact Hl|]. auto.
  - pose proof Hs as [Hr _]. cbn [head default from_option id] in *.
    assert (r ≠ e) as Hre.
    { intros ->. apply NoDup_cons in Hnd as [Hend _]. apply Hend.
      apply elem_of_cons. now left. }
    run_step. run_step. rewrite bool_decide_eq_false_2 by congruence.
    run_step. rewrite (Hhead x eq_refl). run_step.
    destruct (remove_if_loop_list_at pred rs h this e [r] [x] xs fuel Hl eq_refl)
      as (h' & rs' & Hrun & Hl' & Hit & Hcs); [discriminate| |].
    { pose proof (seg_length _ _ _ _ _ _ Hs) as Hlen. cbn in Hf, Hlen. lia. }
    exists h'. split; [exact Hrun|]. cbn [List.filter].
    rewrite (Hhead x eq_refl). cbn [negb].
    split; [eexists _, _; exact Hl'|].
    eapply frame_other; [exact Hl| |exact Hcs]. intros r' _ Hnot. now apply Hit.
Qed.

(** X25.  On a well-formed list whose first element does not match,
    [remove_if(pred)] and [remove(val)] return, delete exactly the
    matching elements, keep the order of the others and leave the list
    well-formed. *)
Theorem X25_remove_and_remove_if_delete_the_matching_elements
    (h : Heap) fuel this xs (pred : T → bool) (val : T) :
  StdList.is_list T null h this xs → (length xs + 2 ≤ fuel)%nat →
  (∀ x, head xs = Some x → pred x = false) →
  (∀ x, head xs = Some x → std_equals x val = false) →
  (∃ h', StdList.remove_if T fuel this pred h = StdList.Ret tt h' ∧
         StdList.is_list T null h' this (List.filter (λ x, negb (pred x)) xs) ∧
         ∀ b ys, b ≠ this → StdList.is_list T null h b ys →
                 StdList.is_list T null h' b ys) ∧
  (∃ h', StdList.remove T std_equals fuel this val h = StdList.Ret tt h' ∧
         StdList.is_list T null h' this
           (List.filter (λ x, negb (std_equals x val)) xs) ∧
         ∀ b ys, b ≠ this → StdList.is_list T null h b ys →
                 StdList.is_list T null h' b ys).
Proof.
  intros Hlist Hf Hpred Hval. split.
  - now apply remove_if_is_list.
  - exact (remove_if_is_list h fuel this xs (λ v, std_equals v val) Hlist Hf Hval).
Qed.

(** ** erase of the end position *)

Lemma bind_out_of_fuel {A B} (m : StdList.M T A) (k : A → StdList.M T B) h :
  m h = StdList.OutOfFuel → StdList.bind m k h = StdList.OutOfFuel.
Proof. intros H. unfold StdList.bind. now rewrite H. Qed.

Lemma walk_never_ends (h : Heap) (rs : list StdList.ref) e :
  e ∉ rs →
  (∀ r, r ∈ rs → ∃ n r', StdList.iterators h !! r = Some n ∧
                         StdList.next_ n = Some r' ∧ r' ∈ rs) →
  ∀ fuel r, r ∈ rs →
    StdList.vector_of_range T fuel (Some r) (Some e) h = StdList.OutOfFuel.
Proof.
  intros He Hclosed. induction fuel as [|fuel IH]; intros r Hr; [reflexivity|].
  destruct (Hclosed r Hr) as (n & r' & Hn & Hnext & Hr').
  cbn [StdList.vector_of_range]. run_step.
  rewrite bool_decide_eq_false_2 by (intros [= ->]; contradiction).
  run_step. run_step. rewrite Hnext.
  apply bind_out_of_fuel. now apply IH.
Qed.

Lemma seg_next (h : Heap) this p rs xs q r :
  seg h this p rs xs q → r ∈ rs →
  ∃ n, StdList.iterators h !! r = Some n ∧ StdList.source_ n = this ∧
       (StdList.next_ n = Some q ∧ last rs = Some r ∨
        ∃ r', StdList.next_ n = Some r' ∧ r' ∈ rs).
Proof.
  revert p xs. induction rs as [|r0 rs IH]; intros p xs Hs Hr;
    [now apply elem_of_nil in Hr|].
  destruct xs as [|x xs]; [destruct Hs|]. destruct Hs as [Hr0 Hs].
  apply elem_of_cons in Hr as [->|Hr].
  - eexists. split; [exact Hr0|]. split; [reflexivity|].
    destruct rs as [|r1 rs]; [left; split; reflexivity|].
    right. exists r1. split; [reflexivity|].
    apply elem_of_cons. right. apply elem_of_cons. now left.
  - destruct (IH _ _ Hs Hr) as (n & Hn & Hsrc & Hcase).
    exists n. split; [exact Hn|]. split; [exact Hsrc|].
    destruct Hcase as [[Hnext Hlast]|(r' & Hnext & Hr')].
    + left. split; [exact Hnext|]. rewrite last_cons, Hlast. reflexivity.
    + right. exists r'. split; [exact Hnext|]. apply elem_of_cons. now right.
Qed.

(** X26.  [erase(end())] on a non-empty well-formed list is accepted: it
    returns [begin()], takes one off [size_] and links the last node to
    the first, which cuts the sentinel out of the chain; from then on the
    walk from [begin()] never reaches [end()]. *)
Theorem X26_erase_of_end_cuts_the_sentinel_out
    (h : Heap) fuel this e rs xs :
  StdList.list_at T null h this e rs xs → xs ≠ [] → (2 ≤ fuel)%nat →
  ∃ h', StdList.erase T fuel this (StdList.ErasePosition (Some e)) h
        = StdList.Ret (Some (default e (head rs))) h' ∧
        StdList.size T this h'
        = StdList.Ret (Some (Z.of_nat (length xs) - 1)) h' ∧
        ∀ fuel', StdList.elements T fuel' this h' = StdList.OutOfFuel.
Proof.
  intros Hl Hxs Hf. pose proof Hl as (Hc & He & Hs & Hnd).
  pose proof (lookup_lt_Some _ _ _ Hc) as Hthis.
  pose proof (seg_length _ _ _ _ _ _ Hs) as Hlen.
  destruct rs as [|r1 rs]; [destruct xs; [contradiction|discriminate]|].
  cbn [head default from_option id] in *.
  apply NoDup_cons in Hnd as [Hend Hnd].
  assert (e ≠ r1) as Her1.
  { intros ->. apply Hend. apply elem_of_cons. now left. }
  assert (r1 ∈ r1 :: rs) as Hr1in by (apply elem_of_cons; now left).
  destruct (seg_next _ _ _ _ _ _ _ Hs Hr1in) as (n1 & Hn1 & Hsrc1 & Hcase1).
  assert (∃ rl, last (r1 :: rs) = Some rl) as (rl & Hlast).
  { destruct (last (r1 :: rs)) eqn:Hq; [eauto|]. apply last_None in Hq. discriminate. }
  rewrite Hlast in He. cbn [default from_option id] in He.
  assert (rl ∈ r1 :: rs) as Hrlin by (eapply last_Some_elem_of; eauto).
  destruct (seg_last_node _ _ _ _ _ _ _ Hs Hlast) as (nl & Hnl & Hsrcl & Hnextl).
  pose proof (lookup_lt_Some _ _ _ Hn1) as Hr1lt.
  pose proof (lookup_lt_Some _ _ _ Hnl) as Hrllt.
  cbn [StdList.erase].
  assert (Z.add (-1) <$> Some (Z.of_nat (length xs))
          = Some (Z.of_nat (length xs) - 1)) as Hsize.
  { cbn [fmap option_fmap option_map]. f_equal. lia. }
  destruct (decide (rl = r1)) as [->|Hne].
  - (* one element *)
    erewrite erase_by_iterator_run_single;
      [|exact Hc|exact He|reflexivity..|exact Hn1|exact Hsrc1|exact Her1|exact Hf].
    heap_simpl. rewrite Hsize.
    eexists. split; [reflexivity|].
    set (h' := StdList.mkHeap _ _).
    assert (StdList.containers h' !! this
            = Some (StdList.mkList (Some r1) (Some e)
                      (Some (Z.of_nat (length xs) - 1)))) as Hc'.
    { unfold h'. heap_simpl. rewrite list_lookup_insert_eq by lia.
      now destruct (bool_decide _). }
    split; [now rewrite (run_size _ _ _ _ Hc')|].
    intros fuel'. unfold StdList.elements. run_step. run_step.
    apply walk_never_ends with (rs := [r1]).
    + intros Hin. apply list_elem_of_singleton in Hin. congruence.
    + intros r Hr. apply list_elem_of_singleton in Hr as ->.
      eexists _, r1. unfold h'. heap_simpl.
      rewrite list_lookup_insert_eq by lia.
      split; [reflexivity|]. split; [reflexivity|]. apply list_elem_of_singleton.
      reflexivity.
    + apply list_elem_of_singleton. reflexivity.
  - (* two or more *)
    erewrite erase_by_iterator_run;
      [|exact Hc|exact He|reflexivity..|exact Hnl|exact Hn1|exact Hsrc1|
       exact Her1|exact Hne|exact Hf].
    heap_simpl. rewrite Hsize.
    eexists. split; [reflexivity|].
    set (h' := StdList.mkHeap _ _).
    assert (StdList.containers h' !! this
            = Some (StdList.mkList (Some r1) (Some e)
                      (Some (Z.of_nat (length xs) - 1)))) as Hc'.
    { unfold h'. heap_simpl. rewrite list_lookup_insert_eq by lia.
      now destruct (bool_decide _). }
    split; [now rewrite (run_size _ _ _ _ Hc')|].
    intros fuel'. unfold StdList.elements. run_step. run_step.
    apply walk_never_ends with (rs := r1 :: rs); [exact Hend| |exact Hr1in].
    intros r Hr. destruct (seg_next _ _ _ _ _ _ _ Hs Hr) as (n & Hn & _ & Hcase).
    unfold h'. heap_simpl.
    destruct (decide (r = r1)) as [->|Hrr1].
    + rewrite list_lookup_insert_eq by (length_simpl; lia).
      destruct Hcase1 as [[_ Hl1]|(r' & Hnext & Hr')]; [congruence|].
      eexists _, r'. split; [reflexivity|]. split; [exact Hnext|exact Hr'].
    + rewrite list_lookup_insert_ne by congruence.
      destruct (decide (r = rl)) as [->|Hrrl].
      * rewrite list_lookup_insert_eq by lia.
        eexists _, r1. split; [reflexivity|]. split; [reflexivity|exact Hr1in].
      * rewrite list_lookup_insert_ne by congruence.
        destruct Hcase as [[_ Hl0]|(r' & Hnext & Hr')]; [congruence|].
        exists n, r'. split; [exact Hn|]. split; [exact Hnext|exact Hr'].
Qed.

(** ** sort *)

Variable std_sort : list T → list T.


(** ** insert, then erase *)

(** X28.  Insert, then erase: [insert(position, val)] followed by
    [erase] of the returned iterator gives back the list as it was (same
    nodes, same elements, same size) and returns [position], when
    [position] is not [begin()] of a non-empty list. *)
Theorem X28_erase_undoes_insert (h : Heap) fuel this e rs xs (i : nat) v :
  StdList.list_at T null h this e rs xs → (i ≤ length rs)%nat →
  (0 < i)%nat ∨ rs = [] → (2 ≤ fuel)%nat →
  ∃ h1 r h2,
    StdList.insert T fuel this
      (StdList.InsertVal T (Some (default e (rs !! i))) v) h
    = StdList.Ret (Some r) h1 ∧
    StdList.erase T fuel this (StdList.ErasePosition (Some r)) h1
    = StdList.Ret (Some (default e (rs !! i))) h2 ∧
    StdList.list_at T null h2 this e rs xs.
Proof.
  intros Hl Hi Hcase Hf. pose proof Hl as (_ & _ & Hs & _).
  pose proof (seg_length _ _ _ _ _ _ Hs) as Hlen.
  assert (length (take i rs) = length (take i xs)) as Hlen'.
  { rewrite !length_take. lia. }
  rewrite <- (take_drop i rs), <- (take_drop i xs) in Hl.
  destruct (insert_by_val_list_at h this e _ _ _ _ v Hlen' Hl)
    as (h1 & Hrun1 & Hl1 & _ & _).
  rewrite head_drop_lookup in Hrun1.
  destruct (erase_list_at_wf h1 this e (take i rs)
              (length (StdList.iterators h)) (drop i rs) (take i xs) v (drop i xs)
              fuel Hlen' Hf) as (h2 & Hrun2 & Hl2 & _ & _); [|exact Hl1|].
  { destruct Hcase as [Hpos| ->]; [left|right; now destruct i].
    destruct rs; [cbn in Hi; lia|]. destruct i; [lia|]. discriminate. }
  rewrite head_drop_lookup in Hrun2. rewrite !take_drop in Hl2.
  exists h1, (length (StdList.iterators h)), h2.
  split; [exact Hrun1|]. split; [exact Hrun2|exact Hl2].
Qed.

(** ** push_front *)

(** X29.  [push_front(val)] on a well-formed list returns, and as far as
    the walk forward goes the value is prepended: the walk from [begin()]
    meets [val] and then the old elements, [size()] is one more,
    [front()] is [val] and [back()] is the old last element ([val] on a
    list that was empty). *)
Theorem X29_push_front_prepends_for_the_forward_walk (h : Heap) this xs val :
  StdList.is_list T null h this xs →
  ∃ h', StdList.push_front T null this val h = StdList.Ret tt h' ∧
        (∀ fuel, (length xs + 1 < fuel)%nat →
                 StdList.elements T fuel this h' = StdList.Ret (val :: xs) h') ∧
        StdList.size T this h'
        = StdList.Ret (Some (Z.of_nat (length xs) + 1)) h' ∧
        StdList.front T this h' = StdList.Ret val h' ∧
        StdList.back T this h' = StdList.Ret (default val (last xs)) h'.
Proof.
  intros (e & rs & Hl). pose proof Hl as (Hc & He & Hs & Hnd).
  pose proof (lookup_lt_Some _ _ _ Hc) as Hthis.
  pose proof (lookup_lt_Some _ _ _ He) as Helt.
  pose proof (seg_length _ _ _ _ _ _ Hs) as Hlen.
  apply NoDup_cons in Hnd as [Hend Hnd].
  unfold StdList.push_front, StdList.setPrev, StdList.setNext, StdList.set_begin,
    StdList.set_end, StdList.add_size.
  destruct rs as [|r1 rs]; destruct xs as [|x1 xs]; try discriminate.
  - (* the list is empty *)
    cbn [head last default from_option id length] in *.
    run_step. run_step. run_step. run_step.
    rewrite bool_decide_eq_true_2 by reflexivity.
    rewrite bind_assoc. run_step. rewrite bind_assoc. run_step.
    run_step. run_step. erewrite run_putList by lookup_solver. heap_simpl.
    eexists. split; [reflexivity|].
    set (n0 := length (StdList.iterators h)) in *.
    set (h' := StdList.mkHeap _ _).
    assert (StdList.containers h' !! this
            = Some (StdList.mkList (Some n0) (Some (n0 + 1)%nat) (Some 1))) as Hc'.
    { unfold h'. heap_simpl. length_simpl.
      now rewrite list_lookup_insert_eq by (rewrite !length_insert; lia). }
    assert (StdList.iterators h' !! n0
            = Some (StdList.mkIt this None (Some (n0 + 1)%nat) val)) as Hn0.
    { unfold h'. heap_simpl. length_simpl. fold n0. now lookup_solver. }
    assert (StdList.iterators h' !! (n0 + 1)%nat
            = Some (StdList.mkIt this (Some n0) (Some n0) null)) as Hn1.
    { unfold h'. heap_simpl. length_simpl. fold n0.
      rewrite list_lookup_insert_ne by lia.
      apply list_lookup_middle. length_simpl. fold n0. lia. }
    clearbody h'.
    split; [|split; [|split]].
    + intros fuel Hf. destruct fuel as [|[|fuel]]; [lia|lia|].
      unfold StdList.elements. run_step. run_step.
      cbn [StdList.vector_of_range]. run_step.
      rewrite bool_decide_eq_false_2 by (intros [= H0]; lia).
      run_step. run_step. rewrite bind_assoc. run_step.
      rewrite bool_decide_eq_true_2 by reflexivity. reflexivity.
    + now rewrite (run_size _ _ _ _ Hc').
    + unfold StdList.front. run_step. exact (run_value _ _ _ Hn0).
    + unfold StdList.back. run_step. run_step. exact (run_value _ _ _ Hn0).
  - (* the list has a first node *)
    pose proof Hs as [Hr1 Hs'].
    pose proof (lookup_lt_Some _ _ _ Hr1) as Hr1lt.
    assert (r1 ≠ e) as Hr1e.
    { intros ->. apply Hend. apply elem_of_cons. now left. }
    cbn [head default from_option id] in *.
    run_step. run_step. run_step. run_step.
    rewrite bool_decide_eq_false_2 by (intros [= H0]; cbn in H0; lia).
    rewrite bind_assoc. run_step. run_step.
    run_step. erewrite run_putList by lookup_solver. heap_simpl.
    eexists. split; [reflexivity|].
    set (n0 := length (StdList.iterators h)) in *.
    set (its' := <[e := _]> (<[r1 := _]> _)).
    assert (∀ r, (r < n0)%nat → r ≠ e → r ≠ r1 →
                 its' !! r = StdList.iterators h !! r) as L1.
    { intros r Hr H1 H2. unfold its'. now lookup_solver. }
    assert (its' !! r1 = Some (StdList.mkIt this (Some n0)
              (Some (default e (head rs))) x1)) as L2.
    { unfold its'. now lookup_solver. }
    assert (its' !! e = Some (StdList.mkIt this
              (Some (default e (last (r1 :: rs)))) (Some n0) null)) as L3.
    { unfold its'. now lookup_solver. }
    assert (its' !! n0 = Some (StdList.mkIt this None (Some r1) val)) as L4.
    { unfold its'. now lookup_solver. }
    clearbody its'.
    set (h' := StdList.mkHeap _ _).
    assert (StdList.containers h' !! this
            = Some (StdList.mkList (Some n0) (Some e)
                      (Some (Z.of_nat (length (x1 :: xs)) + 1)))) as Hc'.
    { unfold h'. heap_simpl.
      rewrite list_lookup_insert_eq by (rewrite ?length_insert; lia).
      cbn [fmap option_fmap option_map length]. do 3 f_equal. lia. }
    assert (seg h' this n0 (r1 :: rs) (x1 :: xs) e) as Hseg.
    { eapply seg_retarget_prev; [exact Hs|exact Hnd| |].
      - intros r Hr Hhead. unfold h'. heap_simpl. apply L1.
        + eapply seg_lt; [exact Hs|exact Hr].
        + intros ->. contradiction.
        + intros ->. apply Hhead. reflexivity.
      - intros f n [= <-] Hn. rewrite Hr1 in Hn. injection Hn as <-.
        unfold h'. heap_simpl. exact L2. }
    assert (StdList.iterators h' !! n0
            = Some (StdList.mkIt this None (Some r1) val)) as Hn0 by exact L4.
    split; [|split; [|split]].
    + intros fuel Hf. destruct fuel as [|fuel]; [lia|].
      unfold StdList.elements. run_step. run_step.
      cbn [StdList.vector_of_range]. run_step.
      rewrite bool_decide_eq_false_2 by (intros [= H0]; lia).
      run_step. run_step.
      erewrite run_bind.
      2:{ apply (walk_seg h' this n0 (r1 :: rs) (x1 :: xs) e fuel Hseg Hend).
          cbn in Hf, Hlen |- *. lia. }
      reflexivity.
    + now rewrite (run_size _ _ _ _ Hc').
    + unfold StdList.front. run_step. exact (run_value _ _ _ Hn0).
    + unfold StdList.back. run_step.
      erewrite run_bind by (apply run_prev; exact L3). heap_simpl.
      destruct (last (r1 :: rs)) as [rl|] eqn:Hlast.
      * destruct (seg_last_value _ _ _ _ _ _ _ Hseg Hlast) as (n & Hn & ->).
        cbn [default from_option id]. exact (run_value _ _ _ Hn).
      * apply last_None in Hlast. discriminate.
Qed.

(** ** insert of an empty range *)

Lemma list_at_neighbours (h : Heap) this e rs1 rs2 xs1 xs2 :
  length rs1 = length xs1 →
  list_at h this e (rs1 ++ rs2) (xs1 ++ xs2) →
  ∃ nprv npos,
    StdList.iterators h !! default e (last rs1) = Some nprv ∧
    StdList.next_ nprv = Some (default e (head rs2)) ∧
    StdList.iterators h !! default e (head rs2) = Some npos ∧
    StdList.source_ npos = this ∧
    StdList.prev_ npos = Some (default e (last rs1)).
Proof.
  intros Hlen (Hc & He & Hs & Hnd).
  apply (seg_app _ _ _ _ _ _ _ _ Hlen) in Hs as [Hs1 Hs2].
  assert (∃ nprv, StdList.iterators h !! default e (last rs1) = Some nprv ∧
                  StdList.next_ nprv = Some (default e (head rs2)))
    as (nprv & Hprv & Hnext).
  { destruct (last rs1) as [l|] eqn:Hlast.
    - destruct (seg_last_node _ _ _ _ _ _ _ Hs1 Hlast) as (n & Hn & _ & Hnext).
      exists n. auto.
    - apply last_None in Hlast. subst rs1. eexists. split; [exact He|].
      reflexivity. }
  exists nprv. destruct rs2 as [|r rs2].
  - eexists. split; [exact Hprv|]. split; [exact Hnext|].
    split; [exact He|]. rewrite app_nil_r. split; reflexivity.
  - destruct xs2 as [|x xs2]; [destruct Hs2|]. destruct Hs2 as [Hr _].
    eexists. split; [exact Hprv|]. split; [exact Hnext|].
    split; [exact Hr|]. split; reflexivity.
Qed.

(** X30.  [insert(position, first, last)] with an empty range
    ([first] and [last] the same iterator) on a non-empty well-formed
    list leaves the heap exactly as it was and returns [null], not
    [position]. *)
Theorem X30_insert_of_an_empty_range_returns_null
    (h : Heap) fuel this e rs xs (i : nat) (r : StdList.ref) :
  StdList.list_at T null h this e rs xs → xs ≠ [] →
  (i ≤ length rs)%nat → (1 ≤ fuel)%nat →
  StdList.insert T fuel this
    (StdList.InsertRange T (Some (default e (rs !! i))) (Some r) (Some r)) h
  = StdList.Ret None h.
Proof.
  intros Hl Hxs Hi Hf. pose proof Hl as (Hc & _ & Hs & _).
  pose proof (lookup_lt_Some _ _ _ Hc) as Hthis.
  pose proof (seg_length _ _ _ _ _ _ Hs) as Hlen.
  assert (length (take i rs) = length (take i xs)) as Hlen'.
  { rewrite !length_take. lia. }
  rewrite <- (take_drop i rs), <- (take_drop i xs) in Hl.
  destruct (list_at_neighbours h this e _ _ _ _ Hlen' Hl)
    as (nprv & npos & Hprv & Hnext & Hpos & Hsrc & Hprev).
  rewrite head_drop_lookup in Hnext, Hpos.
  remember (default e (rs !! i)) as pos eqn:Hposdef in *.
  remember (default e (last (take i rs))) as prv eqn:Hprvdef in *.
  pose proof (lookup_lt_Some _ _ _ Hprv) as Hprvlt.
  pose proof (lookup_lt_Some _ _ _ Hpos) as Hposlt.
  destruct fuel as [|fuel]; [lia|].
  cbn [StdList.insert]. unfold StdList.insert_by_range.
  run_step. rewrite bool_decide_eq_true_2 by congruence. cbn [negb].
  run_step. rewrite Hprev. cbn [StdList.range_loop].
  rewrite bind_assoc. run_step. rewrite bool_decide_eq_true_2 by reflexivity.
  run_step. cbn [fst snd].
  run_step. rewrite bool_decide_eq_false_2.
  2:{ intros [= H0]. destruct xs; [contradiction|cbn in H0; lia]. }
  run_step. unfold StdList.setNext, StdList.setPrev, StdList.add_size.
  run_step.
  assert (StdList.mkIt (StdList.source_ nprv) (StdList.prev_ nprv) (Some pos)
            (StdList.value_ nprv) = nprv) as Hsame1.
  { destruct nprv. cbn in *. congruence. }
  assert (StdList.mkIt (StdList.source_ npos) (Some prv) (StdList.next_ npos)
            (StdList.value_ npos) = npos) as Hsame2.
  { destruct npos. cbn in *. congruence. }
  rewrite Hsame1. rewrite list_insert_id by exact Hprv.
  run_step.
  rewrite Hsame2. rewrite list_insert_id by exact Hpos.
  run_step. unfold StdList.ret.
  rewrite list_insert_id.
  - now destruct h.
  - etransitivity; [exact Hc|reflexivity].
Qed.

End list_more.

(** A concrete heap holds a well-formed list: every lookup is computed. *)
Ltac list_at_here :=
  split; [reflexivity|];
  split; [reflexivity|];
  split; [cbn; repeat split; reflexivity|];
  apply (bool_decide_unpack _); vm_compute; exact I.

Ltac is_list_here e rs := exists e, rs; list_at_here.

(** The first of the two lists [[1]] and [[2]] is cleared. *)
Lemma X13_clear_gives_an_empty_list_witness :
  StdList.containers Instances.two_lists !! 0%nat
  = Some (StdList.mkList (Some 1%nat) (Some 0%nat) (Some 1)) ∧
  ∃ h', StdList.clear Instances.JsVal Instances.JsNull 0%nat Instances.two_lists
        = StdList.Ret tt h' ∧
        StdList.is_list Instances.JsVal Instances.JsNull h' 0%nat [] ∧
        ∀ b ys, b ≠ 0%nat →
                StdList.is_list Instances.JsVal Instances.JsNull Instances.two_lists b ys →
                StdList.is_list Instances.JsVal Instances.JsNull h' b ys.
Proof.
  split; [reflexivity|].
  exact (X13_clear_gives_an_empty_list Instances.JsVal Instances.JsNull
           Instances.two_lists 0%nat _ eq_refl).
Defined.

(** [4] and [5] are pushed on the list [[1, 2, 2, 3]]. *)
Lemma X14_push_appends_witness :
  StdList.is_list Instances.JsVal Instances.JsNull Instances.list_1_2_2_3 0%nat
    [Instances.JsNum 1; Instances.JsNum 2; Instances.JsNum 2; Instances.JsNum 3] ∧
  ∃ h', StdList.push Instances.JsVal 0%nat [Instances.JsNum 4; Instances.JsNum 5]
          Instances.list_1_2_2_3
        = StdList.Ret (Some (Z.of_nat (4 + 2))) h' ∧
        StdList.is_list Instances.JsVal Instances.JsNull h' 0%nat
          ([Instances.JsNum 1; Instances.JsNum 2; Instances.JsNum 2; Instances.JsNum 3]
             ++ [Instances.JsNum 4; Instances.JsNum 5]) ∧
        ∀ b ys, b ≠ 0%nat →
                StdList.is_list Instances.JsVal Instances.JsNull Instances.list_1_2_2_3 b ys →
                StdList.is_list Instances.JsVal Instances.JsNull h' b ys.
Proof.
  assert (StdList.is_list Instances.JsVal Instances.JsNull Instances.list_1_2_2_3 0%nat
            [Instances.JsNum 1; Instances.JsNum 2; Instances.JsNum 2; Instances.JsNum 3])
    as Hl by (is_list_here 0%nat [1; 2; 3; 4]%nat).
  split; [exact Hl|].
  exact (X14_push_appends Instances.JsVal Instances.JsNull Instances.list_1_2_2_3
           0%nat _ [Instances.JsNum 4; Instances.JsNum 5] Hl).
Defined.

(** The walk and [back()] on the list [[1, 2, 2, 3]]. *)
Lemma X16_accessors_read_the_list_witness :
  StdList.is_list Instances.JsVal Instances.JsNull Instances.list_1_2_2_3 0%nat
    [Instances.JsNum 1; Instances.JsNum 2; Instances.JsNum 2; Instances.JsNum 3] ∧
  StdList.elements Instances.JsVal 10 0%nat Instances.list_1_2_2_3
  = StdList.Ret
      [Instances.JsNum 1; Instances.JsNum 2; Instances.JsNum 2; Instances.JsNum 3]
      Instances.list_1_2_2_3 ∧
  StdList.back Instances.JsVal 0%nat Instances.list_1_2_2_3
  = StdList.Ret (Instances.JsNum 3) Instances.list_1_2_2_3.
Proof.
  assert (StdList.is_list Instances.JsVal Instances.JsNull Instances.list_1_2_2_3 0%nat
            [Instances.JsNum 1; Instances.JsNum 2; Instances.JsNum 2; Instances.JsNum 3])
    as Hl by (is_list_here 0%nat [1; 2; 3; 4]%nat).
  split; [exact Hl|].
  pose proof (X16_accessors_read_the_list Instances.JsVal Instances.JsNull
                Instances.list_1_2_2_3 0%nat _ Hl) as (Hel & _ & _ & _ & Hback).
  split; [apply Hel; cbn; lia|exact Hback].
Defined.

(** [9] is inserted at index 2 of [[1, 2, 2, 3]], before node 3. *)
Lemma X17_insert_puts_the_value_before_position_witness :
  StdList.list_at Instances.JsVal Instances.JsNull Instances.list_1_2_2_3 0%nat 0%nat
    [1; 2; 3; 4]%nat
    [Instances.JsNum 1; Instances.JsNum 2; Instances.JsNum 2; Instances.JsNum 3] ∧
  (2 ≤ length [1; 2; 3; 4]%nat)%nat ∧
  ∃ h' r, StdList.insert Instances.JsVal 10 0%nat
            (StdList.InsertVal Instances.JsVal (Some 3%nat) (Instances.JsNum 9))
            Instances.list_1_2_2_3
          = StdList.Ret (Some r) h' ∧
          StdList.list_at Instances.JsVal Instances.JsNull h' 0%nat 0%nat
            ([1; 2]%nat ++ r :: [3; 4]%nat)
            ([Instances.JsNum 1; Instances.JsNum 2] ++ Instances.JsNum 9
               :: [Instances.JsNum 2; Instances.JsNum 3]) ∧
          ∀ b ys, b ≠ 0%nat →
                  StdList.is_list Instances.JsVal Instances.JsNull Instances.list_1_2_2_3 b ys →
                  StdList.is_list Instances.JsVal Instances.JsNull h' b ys.
Proof.
  assert (StdList.list_at Instances.JsVal Instances.JsNull Instances.list_1_2_2_3
            0%nat 0%nat [1; 2; 3; 4]%nat
            [Instances.JsNum 1; Instances.JsNum 2; Instances.JsNum 2; Instances.JsNum 3])
    as Hl by list_at_here.
  assert (2 ≤ length [1; 2; 3; 4]%nat)%nat as Hi by (cbn; lia).
  split; [exact Hl|]. split; [exact Hi|].
  exact (X17_insert_puts_the_value_before_position Instances.JsVal Instances.JsNull
           Instances.list_1_2_2_3 10 0%nat 0%nat _ _ 2%nat (Instances.JsNum 9) Hl Hi).
Defined.

(** The element at index 2 of [[1, 2, 2, 3]], node 3, is erased. *)
Lemma X18_erase_removes_a_later_element_witness :
  StdList.list_at Instances.JsVal Instances.JsNull Instances.list_1_2_2_3 0%nat 0%nat
    [1; 2; 3; 4]%nat
    [Instances.JsNum 1; Instances.JsNum 2; Instances.JsNum 2; Instances.JsNum 3] ∧
  [1; 2; 3; 4]%nat !! 2%nat = Some 3%nat ∧ (0 < 2)%nat ∧ (2 ≤ 10)%nat ∧
  ∃ h', StdList.erase Instances.JsVal 10 0%nat (StdList.ErasePosition (Some 3%nat))
          Instances.list_1_2_2_3
        = StdList.Ret (Some 4%nat) h' ∧
        StdList.list_at Instances.JsVal Instances.JsNull h' 0%nat 0%nat
          [1; 2; 4]%nat [Instances.JsNum 1; Instances.JsNum 2; Instances.JsNum 3] ∧
        ∀ b ys, b ≠ 0%nat →
                StdList.is_list Instances.JsVal Instances.JsNull Instances.list_1_2_2_3 b ys →
                StdList.is_list Instances.JsVal Instances.JsNull h' b ys.
Proof.
  assert (StdList.list_at Instances.JsVal Instances.JsNull Instances.list_1_2_2_3
            0%nat 0%nat [1; 2; 3; 4]%nat
            [Instances.JsNum 1; Instances.JsNum 2; Instances.JsNum 2; Instances.JsNum 3])
    as Hl by list_at_here.
  split; [exact Hl|]. split; [reflexivity|]. split; [lia|]. split; [lia|].
  exact (X18_erase_removes_a_later_element Instances.JsVal Instances.JsNull
           Instances.list_1_2_2_3 10 0%nat 0%nat _ _ 2%nat 3%nat Hl eq_refl
           ltac:(lia) ltac:(lia)).
Defined.

(** [pop_back()] on [[1, 2, 2, 3]]. *)
Lemma X19_pop_back_removes_the_last_element_witness :
  StdList.is_list Instances.JsVal Instances.JsNull Instances.list_1_2_2_3 0%nat
    ([Instances.JsNum 1; Instances.JsNum 2; Instances.JsNum 2] ++ [Instances.JsNum 3]) ∧
  (2 ≤ 10)%nat ∧
  ∃ h', StdList.pop_back Instances.JsVal 10 0%nat Instances.list_1_2_2_3
        = StdList.Ret tt h' ∧
        StdList.is_list Instances.JsVal Instances.JsNull h' 0%nat
          [Instances.JsNum 1; Instances.JsNum 2; Instances.JsNum 2] ∧
        ∀ b ys, b ≠ 0%nat →
                StdList.is_list Instances.JsVal Instances.JsNull Instances.list_1_2_2_3 b ys →
                StdList.is_list Instances.JsVal Instances.JsNull h' b ys.
Proof.
  assert (StdList.is_list Instances.JsVal Instances.JsNull Instances.list_1_2_2_3 0%nat
            ([Instances.JsNum 1; Instances.JsNum 2; Instances.JsNum 2]
               ++ [Instances.JsNum 3]))
    as Hl by (is_list_here 0%nat [1; 2; 3; 4]%nat).
  split; [exact Hl|]. split; [lia|].
  exact (X19_pop_back_removes_the_last_element Instances.JsVal Instances.JsNull
           Instances.list_1_2_2_3 10 0%nat _ _ Hl ltac:(lia)).
Defined.

(** [pop_front()] on [[1, 2, 2, 3]]: size 3, front still [1]. *)
Lemma X20_pop_front_leaves_begin_on_the_removed_node_witness :
  StdList.is_list Instances.JsVal Instances.JsNull Instances.list_1_2_2_3 0%nat
    [Instances.JsNum 1; Instances.JsNum 2; Instances.JsNum 2; Instances.JsNum 3] ∧
  (2 ≤ 10)%nat ∧
  ∃ h', StdList.pop_front Instances.JsVal 10 0%nat Instances.list_1_2_2_3
        = StdList.Ret tt h' ∧
        StdList.size Instances.JsVal 0%nat h' = StdList.Ret (Some 3) h' ∧
        StdList.front Instances.JsVal 0%nat h' = StdList.Ret (Instances.JsNum 1) h' ∧
        StdList.elements Instances.JsVal 10 0%nat h'
        = StdList.Ret
            [Instances.JsNum 1; Instances.JsNum 2; Instances.JsNum 2; Instances.JsNum 3]
            h'.
Proof.
  assert (StdList.is_list Instances.JsVal Instances.JsNull Instances.list_1_2_2_3 0%nat
            [Instances.JsNum 1; Instances.JsNum 2; Instances.JsNum 2; Instances.JsNum 3])
    as Hl by (is_list_here 0%nat [1; 2; 3; 4]%nat).
  split; [exact Hl|]. split; [lia|].
  destruct (X20_pop_front_leaves_begin_on_the_removed_node Instances.JsVal
              Instances.JsNull Instances.list_1_2_2_3 10 0%nat _ _ _ Hl ltac:(lia))
    as (h' & Hrun & Hsize & Hfront & Hel).
  exists h'. split; [exact Hrun|]. split; [exact Hsize|]. split; [exact Hfront|].
  apply Hel. cbn. lia.
Defined.

(** [insert(position, 0, 9)] at node 2 of [[1, 2, 2, 3]]. *)
Lemma X21_insert_of_no_element_raises_TypeError_witness :
  StdList.list_at Instances.JsVal Instances.JsNull Instances.list_1_2_2_3 0%nat 0%nat
    [1; 2; 3; 4]%nat
    [Instances.JsNum 1; Instances.JsNum 2; Instances.JsNum 2; Instances.JsNum 3] ∧
  [Instances.JsNum 1; Instances.JsNum 2; Instances.JsNum 2; Instances.JsNum 3] ≠ [] ∧
  2%nat ∈ 0%nat :: [1; 2; 3; 4]%nat ∧ 0 ≤ 0 ∧
  StdList.insert Instances.JsVal 10 0%nat
    (StdList.InsertRepeat Instances.JsVal (Some 2%nat) 0 (Instances.JsNum 9))
    Instances.list_1_2_2_3
  = StdList.Throw StdList.TypeError Instances.list_1_2_2_3.
Proof.
  assert (StdList.list_at Instances.JsVal Instances.JsNull Instances.list_1_2_2_3
            0%nat 0%nat [1; 2; 3; 4]%nat
            [Instances.JsNum 1; Instances.JsNum 2; Instances.JsNum 2; Instances.JsNum 3])
    as Hl by list_at_here.
  assert (2%nat ∈ 0%nat :: [1; 2; 3; 4]%nat) as Hin
    by (apply (bool_decide_unpack _); vm_compute; exact I).
  split; [exact Hl|]. split; [discriminate|]. split; [exact Hin|]. split; [lia|].
  exact (X21_insert_of_no_element_raises_TypeError Instances.JsVal Instances.JsNull
           Instances.list_1_2_2_3 10 0%nat 0%nat _ _ 2%nat 0 (Instances.JsNum 9)
           Hl ltac:(discriminate) Hin ltac:(lia)).
Defined.

(** The lists [[1]] and [[2]] are swapped. *)
Lemma X22_swap_exchanges_contents_but_not_ownership_witness :
  0%nat ≠ 1%nat ∧
  StdList.is_list Instances.JsVal Instances.JsNull Instances.two_lists 0%nat
    [Instances.JsNum 1] ∧
  StdList.is_list Instances.JsVal Instances.JsNull Instances.two_lists 1%nat
    [Instances.JsNum 2] ∧
  ∃ h' p, StdList.swap_list Instances.JsVal 0%nat 1%nat Instances.two_lists
          = StdList.Ret tt h' ∧
          StdList.elements Instances.JsVal 10 0%nat h'
          = StdList.Ret [Instances.JsNum 2] h' ∧
          StdList.begin Instances.JsVal 0%nat h' = StdList.Ret (Some p) h' ∧
          StdList.insert Instances.JsVal 10 0%nat
            (StdList.InsertVal Instances.JsVal (Some p) (Instances.JsNum 9)) h'
          = StdList.Throw StdList.InvalidArgument h'.
Proof.
  assert (StdList.is_list Instances.JsVal Instances.JsNull Instances.two_lists 0%nat
            [Instances.JsNum 1]) as Ha by (is_list_here 0%nat [1]%nat).
  assert (StdList.is_list Instances.JsVal Instances.JsNull Instances.two_lists 1%nat
            [Instances.JsNum 2]) as Hb by (is_list_here 2%nat [3]%nat).
  split; [lia|]. split; [exact Ha|]. split; [exact Hb|].
  destruct (X22_swap_exchanges_contents_but_not_ownership Instances.JsVal
              Instances.JsNull Instances.two_lists 0%nat 1%nat _ _ ltac:(lia) Ha Hb)
    as (h' & p & Hrun & Hela & _ & _ & _ & Hbegin & Hins & _).
  exists h', p. split; [exact Hrun|]. split; [apply Hela; cbn; lia|].
  split; [exact Hbegin|apply Hins].
Defined.

(** [assign] of the range [[1, 2]] to a list just cleared. *)
Lemma X23_assign_from_a_range_leaves_the_nodes_unlinked_witness :
  StdList.containers Instances.cleared_list !! 0%nat
  = Some (StdList.mkList (Some 0%nat) (Some 0%nat) (Some 0)) ∧
  (length [Instances.JsNum 1; Instances.JsNum 2] < 10)%nat ∧
  ∃ h', StdList.assign Instances.JsVal Instances.JsNull 10 0%nat
          (StdList.AssignRange Instances.JsVal [Instances.JsNum 1; Instances.JsNum 2])
          Instances.cleared_list
        = StdList.Ret tt h' ∧
        StdList.size Instances.JsVal 0%nat h' = StdList.Ret (Some 2) h' ∧
        StdList.front Instances.JsVal 0%nat h' = StdList.Ret (Instances.JsNum 1) h' ∧
        StdList.elements Instances.JsVal 10 0%nat h'
        = StdList.Throw StdList.TypeError h'.
Proof.
  split; [reflexivity|]. split; [cbn; lia|].
  destruct (X23_assign_from_a_range_leaves_the_nodes_unlinked Instances.JsVal
              Instances.JsNull Instances.cleared_list 10 0%nat _ (Instances.JsNum 1)
              [Instances.JsNum 2] eq_refl ltac:(cbn; lia))
    as (h' & Hrun & Hsize & Hfront & Hel).
  exists h'. split; [exact Hrun|]. split; [exact Hsize|]. split; [exact Hfront|].
  apply Hel. lia.
Defined.

(** [unique(same_parity)] on [[1, 2, 2, 3]] gives [[1, 2, 3]]. *)
Lemma X24_unique_keeps_one_of_each_run_witness :
  StdList.is_list Instances.JsVal Instances.JsNull Instances.list_1_2_2_3 0%nat
    [Instances.JsNum 1; Instances.JsNum 2; Instances.JsNum 2; Instances.JsNum 3] ∧
  (length [Instances.JsNum 1; Instances.JsNum 2; Instances.JsNum 2; Instances.JsNum 3]
     + 2 ≤ 10)%nat ∧
  ∃ h', StdList.unique Instances.JsVal Instances.js_equals 10 0%nat
          Instances.same_parity Instances.list_1_2_2_3
        = StdList.Ret tt h' ∧
        StdList.is_list Instances.JsVal Instances.JsNull h' 0%nat
          [Instances.JsNum 1; Instances.JsNum 2; Instances.JsNum 3].
Proof.
  assert (StdList.is_list Instances.JsVal Instances.JsNull Instances.list_1_2_2_3 0%nat
            [Instances.JsNum 1; Instances.JsNum 2; Instances.JsNum 2; Instances.JsNum 3])
    as Hl by (is_list_here 0%nat [1; 2; 3; 4]%nat).
  split; [exact Hl|]. split; [cbn; lia|].
  destruct (X24_unique_keeps_one_of_each_run Instances.JsVal Instances.JsNull
              Instances.js_equals Instances.list_1_2_2_3 10 0%nat
              Instances.same_parity _ Hl ltac:(cbn; lia))
    as (h' & Hrun & Hl' & _).
  exists h'. split; [exact Hrun|exact Hl'].
Defined.

(** On [[1, 2, 2, 3]], [remove_if(v => 1 < v)] leaves [[1]] and
    [remove(2)] leaves [[1, 3]]. *)
Lemma X25_remove_and_remove_if_delete_the_matching_elements_witness :
  StdList.is_list Instances.JsVal Instances.JsNull Instances.list_1_2_2_3 0%nat
    [Instances.JsNum 1; Instances.JsNum 2; Instances.JsNum 2; Instances.JsNum 3] ∧
  (length [Instances.JsNum 1; Instances.JsNum 2; Instances.JsNum 2; Instances.JsNum 3]
     + 2 ≤ 10)%nat ∧
  (∀ x, head [Instances.JsNum 1; Instances.JsNum 2; Instances.JsNum 2; Instances.JsNum 3]
        = Some x → Instances.js_less (Instances.JsNum 1) x = false) ∧
  (∀ x, head [Instances.JsNum 1; Instances.JsNum 2; Instances.JsNum 2; Instances.JsNum 3]
        = Some x → Instances.js_equals x (Instances.JsNum 2) = false) ∧
  (∃ h', StdList.remove_if Instances.JsVal 10 0%nat
           (Instances.js_less (Instances.JsNum 1)) Instances.list_1_2_2_3
         = StdList.Ret tt h' ∧
         StdList.is_list Instances.JsVal Instances.JsNull h' 0%nat [Instances.JsNum 1]) ∧
  (∃ h', StdList.remove Instances.JsVal Instances.js_equals 10 0%nat
           (Instances.JsNum 2) Instances.list_1_2_2_3
         = StdList.Ret tt h' ∧
         StdList.is_list Instances.JsVal Instances.JsNull h' 0%nat
           [Instances.JsNum 1; Instances.JsNum 3]).
Proof.
  assert (StdList.is_list Instances.JsVal Instances.JsNull Instances.list_1_2_2_3 0%nat
            [Instances.JsNum 1; Instances.JsNum 2; Instances.JsNum 2; Instances.JsNum 3])
    as Hl by (is_list_here 0%nat [1; 2; 3; 4]%nat).
  assert (∀ x, head [Instances.JsNum 1; Instances.JsNum 2; Instances.JsNum 2;
                     Instances.JsNum 3] = Some x →
               Instances.js_less (Instances.JsNum 1) x = false) as Hpred
    by (intros x [= <-]; reflexivity).
  assert (∀ x, head [Instances.JsNum 1; Instances.JsNum 2; Instances.JsNum 2;
                     Instances.JsNum 3] = Some x →
               Instances.js_equals x (Instances.JsNum 2) = false) as Hval
    by (intros x [= <-]; reflexivity).
  split; [exact Hl|]. split; [cbn; lia|]. split; [exact Hpred|]. split; [exact Hval|].
  destruct (X25_remove_and_remove_if_delete_the_matching_elements Instances.JsVal
              Instances.JsNull Instances.js_equals Instances.list_1_2_2_3 10 0%nat _
              (Instances.js_less (Instances.JsNum 1)) (Instances.JsNum 2)
              Hl ltac:(cbn; lia) Hpred Hval)
    as [(h1 & Hrun1 & Hl1 & _) (h2 & Hrun2 & Hl2 & _)].
  split; [exists h1|exists h2]; split; assumption.
Defined.

(** [erase(end())] on [[1, 2, 2, 3]]. *)
Lemma X26_erase_of_end_cuts_the_sentinel_out_witness :
  StdList.list_at Instances.JsVal Instances.JsNull Instances.list_1_2_2_3 0%nat 0%nat
    [1; 2; 3; 4]%nat
    [Instances.JsNum 1; Instances.JsNum 2; Instances.JsNum 2; Instances.JsNum 3] ∧
  [Instances.JsNum 1; Instances.JsNum 2; Instances.JsNum 2; Instances.JsNum 3] ≠ [] ∧
  (2 ≤ 10)%nat ∧
  ∃ h', StdList.erase Instances.JsVal 10 0%nat (StdList.ErasePosition (Some 0%nat))
          Instances.list_1_2_2_3
        = StdList.Ret (Some 1%nat) h' ∧
        StdList.size Instances.JsVal 0%nat h' = StdList.Ret (Some 3) h' ∧
        StdList.elements Instances.JsVal 1000 0%nat h' = StdList.OutOfFuel.
Proof.
  assert (StdList.list_at Instances.JsVal Instances.JsNull Instances.list_1_2_2_3
            0%nat 0%nat [1; 2; 3; 4]%nat
            [Instances.JsNum 1; Instances.JsNum 2; Instances.JsNum 2; Instances.JsNum 3])
    as Hl by list_at_here.
  split; [exact Hl|]. split; [discriminate|]. split; [lia|].
  destruct (X26_erase_of_end_cuts_the_sentinel_out Instances.JsVal Instances.JsNull
              Instances.list_1_2_2_3 10 0%nat 0%nat _ _ Hl ltac:(discriminate)
              ltac:(lia))
    as (h' & Hrun & Hsize & Hel).
  exists h'. split; [exact Hrun|]. split; [exact Hsize|apply Hel].
Defined.


(** [9] is inserted before node 3 of [[1, 2, 2, 3]] and erased again. *)
Lemma X28_erase_undoes_insert_witness :
  StdList.list_at Instances.JsVal Instances.JsNull Instances.list_1_2_2_3 0%nat 0%nat
    [1; 2; 3; 4]%nat
    [Instances.JsNum 1; Instances.JsNum 2; Instances.JsNum 2; Instances.JsNum 3] ∧
  (2 ≤ length [1; 2; 3; 4]%nat)%nat ∧
  ((0 < 2)%nat ∨ [1; 2; 3; 4]%nat = []) ∧ (2 ≤ 10)%nat ∧
  ∃ h1 r h2,
    StdList.insert Instances.JsVal 10 0%nat
      (StdList.InsertVal Instances.JsVal (Some 3%nat) (Instances.JsNum 9))
      Instances.list_1_2_2_3
    = StdList.Ret (Some r) h1 ∧
    StdList.erase Instances.JsVal 10 0%nat (StdList.ErasePosition (Some r)) h1
    = StdList.Ret (Some 3%nat) h2 ∧
    StdList.list_at Instances.JsVal Instances.JsNull h2 0%nat 0%nat
      [1; 2; 3; 4]%nat
      [Instances.JsNum 1; Instances.JsNum 2; Instances.JsNum 2; Instances.JsNum 3].
Proof.
  assert (StdList.list_at Instances.JsVal Instances.JsNull Instances.list_1_2_2_3
            0%nat 0%nat [1; 2; 3; 4]%nat
            [Instances.JsNum 1; Instances.JsNum 2; Instances.JsNum 2; Instances.JsNum 3])
    as Hl by list_at_here.
  assert (2 ≤ length [1; 2; 3; 4]%nat)%nat as Hi by (cbn; lia).
  assert ((0 < 2)%nat ∨ [1; 2; 3; 4]%nat = []) as Hcase by (left; lia).
  split; [exact Hl|]. split; [exact Hi|]. split; [exact Hcase|]. split; [lia|].
  exact (X28_erase_undoes_insert Instances.JsVal Instances.JsNull
           Instances.list_1_2_2_3 10 0%nat 0%nat _ _ 2%nat (Instances.JsNum 9)
           Hl Hi Hcase ltac:(lia)).
Defined.

(** [push_front(0)] on [[1, 2, 2, 3]]. *)
Lemma X29_push_front_prepends_for_the_forward_walk_witness :
  StdList.is_list Instances.JsVal Instances.JsNull Instances.list_1_2_2_3 0%nat
    [Instances.JsNum 1; Instances.JsNum 2; Instances.JsNum 2; Instances.JsNum 3] ∧
  ∃ h', StdList.push_front Instances.JsVal Instances.JsNull 0%nat (Instances.JsNum 0)
          Instances.list_1_2_2_3
        = StdList.Ret tt h' ∧
        StdList.elements Instances.JsVal 10 0%nat h'
        = StdList.Ret
            [Instances.JsNum 0; Instances.JsNum 1; Instances.JsNum 2;
             Instances.JsNum 2; Instances.JsNum 3] h' ∧
        StdList.size Instances.JsVal 0%nat h' = StdList.Ret (Some 5) h' ∧
        StdList.back Instances.JsVal 0%nat h' = StdList.Ret (Instances.JsNum 3) h'.
Proof.
  assert (StdList.is_list Instances.JsVal Instances.JsNull Instances.list_1_2_2_3 0%nat
            [Instances.JsNum 1; Instances.JsNum 2; Instances.JsNum 2; Instances.JsNum 3])
    as Hl by (is_list_here 0%nat [1; 2; 3; 4]%nat).
  split; [exact Hl|].
  destruct (X29_push_front_prepends_for_the_forward_walk Instances.JsVal
              Instances.JsNull Instances.list_1_2_2_3 0%nat _ (Instances.JsNum 0) Hl)
    as (h' & Hrun & Hel & Hsize & _ & Hback).
  exists h'. split; [exact Hrun|]. split; [apply Hel; cbn; lia|].
  split; [exact Hsize|exact Hback].
Defined.

(** An empty range is inserted before node 3 of [[1, 2, 2, 3]]. *)
Lemma X30_insert_of_an_empty_range_returns_null_witness :
  StdList.list_at Instances.JsVal Instances.JsNull Instances.list_1_2_2_3 0%nat 0%nat
    [1; 2; 3; 4]%nat
    [Instances.JsNum 1; Instances.JsNum 2; Instances.JsNum 2; Instances.JsNum 3] ∧
  [Instances.JsNum 1; Instances.JsNum 2; Instances.JsNum 2; Instances.JsNum 3] ≠ [] ∧
  (2 ≤ length [1; 2; 3; 4]%nat)%nat ∧ (1 ≤ 10)%nat ∧
  StdList.insert Instances.JsVal 10 0%nat
    (StdList.InsertRange Instances.JsVal (Some 3%nat) (Some 1%nat) (Some 1%nat))
    Instances.list_1_2_2_3
  = StdList.Ret None Instances.list_1_2_2_3.
Proof.
  assert (StdList.list_at Instances.JsVal Instances.JsNull Instances.list_1_2_2_3
            0%nat 0%nat [1; 2; 3; 4]%nat
            [Instances.JsNum 1; Instances.JsNum 2; Instances.JsNum 2; Instances.JsNum 3])
    as Hl by list_at_here.
  assert (2 ≤ length [1; 2; 3; 4]%nat)%nat as Hi by (cbn; lia).
  split; [exact Hl|]. split; [discriminate|]. split; [exact Hi|]. split; [lia|].
  exact (X30_insert_of_an_empty_range_returns_null Instances.JsVal Instances.JsNull
           Instances.list_1_2_2_3 10 0%nat 0%nat _ _ 2%nat 1%nat Hl
           ltac:(discriminate) Hi ltac:(lia)).
Defined.
